(** * UTXO-set scanning and snapshot export (src/rpc/blockchain.cpp)

    A shallow embedding of [FindScriptPubKey], [CoinsViewScanReserver],
    the [scantxoutset] actions, [dumptxoutset] and [CreateUTXOSnapshot],
    with the properties the specification states about them. *)

From Stdlib Require Import ZArith Lia List.
From Stdlib.Strings Require Import Byte.
From stdpp Require Import base tactics option list gmap strings sorting relations.

Local Open Scope Z_scope.

(** ** Data model *)

(** Bytes are [Byte.byte]; they are countable through their code. *)
#[global] Instance byte_eq_dec : EqDecision byte := Byte.byte_eq_dec.

#[global] Instance byte_countable : Countable byte :=
  inj_countable Byte.to_N Byte.of_N Byte.of_to_N.

Definition byte_val (b : byte) : Z := Z.of_N (Byte.to_N b).

(** Modelled from the spec: [uint256], declared outside src/, is the
    32-byte hash of the spec.  It is the list of the bytes [m_data[0..31]]
    in memory order; [begin()] points at the first of them.  A read past
    the end of the list is modelled as the zero byte; a well-formed blob
    has exactly 32 bytes. *)
Definition uint256 := list byte.
Definition begin_at (h : uint256) (i : nat) : byte := nth i h "000"%byte.

(** Modelled from the spec: [COutPoint], [CTxOut], [Coin], [CScript] and
    [CAmount] are declared outside src/.  The spec has an outpoint as
    (transaction id, output index) and a coin as value, output script,
    creation height, coinbase flag and stake flag; the fields carry the
    names the source uses for them. *)
Definition CScript := list byte.
Definition CAmount := Z.

Record COutPoint := { hash : uint256; n : Z }.
Record CTxOut := { nValue : CAmount; scriptPubKey : CScript }.
Record Coin := { out : CTxOut; fCoinBase : bool; fCoinStake : bool; nHeight : Z }.

#[global] Instance COutPoint_eq_dec : EqDecision COutPoint.
Proof. solve_decision. Defined.
#[global] Instance COutPoint_countable : Countable COutPoint :=
  inj_countable' (λ o, (hash o, n o)) (λ p, {| hash := p.1; n := p.2 |})
                 (λ o, match o with Build_COutPoint _ _ => eq_refl end).
#[global] Instance CTxOut_eq_dec : EqDecision CTxOut.
Proof. solve_decision. Defined.
#[global] Instance Coin_eq_dec : EqDecision Coin.
Proof. solve_decision. Defined.

(** Fixed-width integers of the source. *)
Definition wrap_int64 (z : Z) : Z := (z + 2 ^ 63) mod 2 ^ 64 - 2 ^ 63.
Definition wrap_uint32 (z : Z) : Z := z mod 2 ^ 32.
Definition wrap_int32 (z : Z) : Z := (z + 2 ^ 31) mod 2 ^ 32 - 2 ^ 31.
Definition INT64_MAX : Z := 2 ^ 63 - 1.

(** Modelled from the spec: the block-index entry ([CBlockIndex],
    declared outside src/) with what the handlers read of it, its height,
    its hash and its cumulative transaction count. *)
Module BlockIndex.
Record CBlockIndex := { nHeight : Z; GetBlockHash : uint256; nChainTx : Z }.
End BlockIndex.
Abbreviation CBlockIndex := BlockIndex.CBlockIndex.

(** Modelled from the spec: [CCoinsViewCursor], declared outside src/, is
    the lazy ordered iterator over the coin database.  At one position
    [GetKey] and [GetValue] decode the stored record and fail ([None]) on
    a record they cannot decode.  A cursor is the list of the positions
    from the current one on: [Valid()] is "the list is not empty",
    [Next()] drops its head. *)
Record CursorEntry := { GetKey : option COutPoint; GetValue : option Coin }.
Definition CCoinsViewCursor := list CursorEntry.

Definition entry_of (kc : COutPoint * Coin) : CursorEntry :=
  {| GetKey := Some kc.1; GetValue := Some kc.2 |}.
Definition decodable (e : CursorEntry) : Prop :=
  is_Some (GetKey e) ∧ is_Some (GetValue e).
#[global] Instance decodable_dec e : Decision (decodable e).
Proof. unfold decodable. apply _. Defined.

(** The three process-wide atomics. *)
Record ScanGlobals := {
  g_scan_progress : Z;
  g_scan_in_progress : bool;
  g_should_abort_scan : bool }.

Definition set_progress (v : Z) (g : ScanGlobals) : ScanGlobals :=
  {| g_scan_progress := v;
     g_scan_in_progress := g_scan_in_progress g;
     g_should_abort_scan := g_should_abort_scan g |}.
Definition set_in_progress (b : bool) (g : ScanGlobals) : ScanGlobals :=
  {| g_scan_progress := g_scan_progress g;
     g_scan_in_progress := b;
     g_should_abort_scan := g_should_abort_scan g |}.
Definition set_should_abort (b : bool) (g : ScanGlobals) : ScanGlobals :=
  {| g_scan_progress := g_scan_progress g;
     g_scan_in_progress := g_scan_in_progress g;
     g_should_abort_scan := b |}.

(** Every access to one of the atomics, and every call of the
    interruption callback, is an observable event.  [EvInterruption] and
    [EvLoadAbort] carry the value of [count] at which they happen. *)
Inductive event :=
  | EvExchangeInProgress (old : bool)
  | EvStoreInProgress (b : bool)
  | EvLoadProgress (v : Z)
  | EvStoreProgress (v : Z)
  | EvStoreAbort (b : bool)
  | EvLoadAbort (count : Z) (b : bool)
  | EvInterruption (count : Z).

(** [std::map::emplace]: no effect when the key is already present. *)
Definition emplace `{Countable K} {V} (key : K) (v : V) (m : gmap K V) : gmap K V :=
  match m !! key with Some _ => m | None => <[key := v]> m end.

(** Modelled from the spec: the order of keys, which is defined outside
    src/.  The coin database is ordered by key and the progress estimate
    takes the two leading bytes of the hash as the position in it: the
    order is the bytewise order of the hashes ([memcmp] over the 32
    bytes), refined by the index where [std::map<COutPoint, _>] needs a
    strict order. *)
Fixpoint bytes_compare (a b : list byte) : comparison :=
  match a, b with
  | [], [] => Eq
  | [], _ :: _ => Lt
  | _ :: _, [] => Gt
  | x :: a1, y :: b1 =>
      match byte_val x ?= byte_val y with
      | Eq => bytes_compare a1 b1
      | c => c
      end
  end.

Definition outpoint_lt (a b : COutPoint) : bool :=
  match bytes_compare (hash a) (hash b) with
  | Lt => true
  | Eq => n a <? n b
  | Gt => false
  end.

(** [hash_le a b]: the key [a] is not after [b] in the bytewise order of
    the hashes. *)
Definition hash_le (a b : COutPoint) : Prop :=
  bytes_compare (hash a) (hash b) ≠ Gt.
#[global] Instance comparison_eq_dec : EqDecision comparison.
Proof. solve_decision. Defined.
#[global] Instance hash_le_dec : RelDecision hash_le.
Proof. intros a b. unfold hash_le. apply _. Defined.

(** ** FindScriptPubKey *)
Module Scan.

(** The progress estimate of line 3007-3008.  [high] is at most 65535,
    so [high * 100.0 / 65536.0 + 0.5] is computed without rounding in
    double precision (a multiple of 2^-16 below 101) and the conversion to
    [int] truncates a positive number: the value is the integer quotient
    below. *)
Definition high_of (key : COutPoint) : Z :=
  wrap_uint32 (256 * byte_val (begin_at (hash key) 0) + byte_val (begin_at (hash key) 1)).
Definition progress_of (key : COutPoint) : Z :=
  (high_of key * 100 + 32768) / 65536.

(** Local and shared state of one call.  [events] has the newest event
    first. *)
Record state := {
  shared : ScanGlobals;
  events : list event;
  count : Z;
  out_results : gmap COutPoint Coin }.

Definition store_progress (v : Z) (st : state) : state :=
  {| shared := set_progress v (shared st);
     events := EvStoreProgress v :: events st;
     count := count st;
     out_results := out_results st |}.
Definition set_count (c : Z) (st : state) : state :=
  {| shared := shared st; events := events st; count := c;
     out_results := out_results st |}.
Definition log (e : event) (st : state) : state :=
  {| shared := shared st; events := e :: events st; count := count st;
     out_results := out_results st |}.
(** A load of [should_abort] that finds [b].  The flag is written by
    other threads only; the copy of it in [shared] is brought up to date
    with what the load found. *)
Definition observe_abort (b : bool) (st : state) : state :=
  {| shared := set_should_abort b (shared st);
     events := EvLoadAbort (count st) b :: events st;
     count := count st;
     out_results := out_results st |}.
Definition emplace_result (key : COutPoint) (coin : Coin) (st : state) : state :=
  {| shared := shared st; events := events st; count := count st;
     out_results := emplace key coin (out_results st) |}.

(** How a piece of the loop body ends. *)
Inductive flow :=
  | Continue (st : state)
  | Return (b : bool) (st : state)
  | Throw (st : state).

Definition and_then (f : flow) (k : state → flow) : flow :=
  match f with Continue st => k st | _ => f end.

Definition state_of (f : flow) : state :=
  match f with Continue st | Return _ st | Throw st => st end.

Inductive outcome := Returned (b : bool) | Interrupted.

Section FindScriptPubKey.
(** The environment of one call.  [interruption_point c] tells whether
    the callback throws when it is invoked at [count = c] (node
    shutdown).  [abort_request c] tells whether a concurrent [abort]
    action has stored [true] to the flag by the time the flag is loaded
    at [count = c]. *)
Variable interruption_point : Z → bool.
Variable abort_request : Z → bool.
Variable needles : gset CScript.

(** Lines 2998-3004. *)
Definition checkpoint (st : state) : flow :=
  if Z.rem (count st) 8192 =? 0 then
    let st1 := log (EvInterruption (count st)) st in
    if interruption_point (count st) then Throw st1
    else
      let b := g_should_abort_scan (shared st1) || abort_request (count st) in
      let st2 := observe_abort b st1 in
      if b then Return false st2 else Continue st2
  else Continue st.

(** Lines 3005-3009. *)
Definition update_progress (key : COutPoint) (st : state) : state :=
  if Z.rem (count st) 256 =? 0 then store_progress (progress_of key) st else st.

(** Lines 3010-3012. *)
Definition match_needle (key : COutPoint) (coin : Coin) (st : state) : state :=
  if decide (scriptPubKey (out coin) ∈ needles) then emplace_result key coin st else st.

(** One iteration of the loop at the cursor's current position. *)
Definition loop_body (e : CursorEntry) (st : state) : flow :=
  match GetKey e, GetValue e with
  | Some key, Some coin =>
      and_then (checkpoint (set_count (wrap_int64 (count st + 1)) st))
        (λ st1, Continue (match_needle key coin (update_progress key st1)))
  | _, _ => Return false st
  end.

Fixpoint scan_loop (cursor : CCoinsViewCursor) (st : state) : outcome * state :=
  match cursor with
  | [] => (Returned true, store_progress 100 st)
  | e :: rest =>
      match loop_body e st with
      | Continue st1 => scan_loop rest st1
      | Return b st1 => (Returned b, st1)
      | Throw st1 => (Interrupted, st1)
      end
  end.

(** The state in which the loop stands when it has gone through the
    records of [cursor] and none of them has ended it ([None] when one
    has): where a scan is while it runs, for the statements on what is
    read meanwhile. *)
Fixpoint scan_through (cursor : CCoinsViewCursor) (st : state) : option state :=
  match cursor with
  | [] => Some st
  | e :: rest =>
      match loop_body e st with
      | Continue st1 => scan_through rest st1
      | _ => None
      end
  end.

(** [scan_progress = 0; count = 0;] then the loop.  [tr] is the trace of
    events before the call. *)
Definition FindScriptPubKey (g : ScanGlobals) (tr : list event)
    (cursor : CCoinsViewCursor) (results : gmap COutPoint Coin) : outcome * state :=
  scan_loop cursor
    (set_count 0 (store_progress 0
       {| shared := g; events := tr; count := 0; out_results := results |})).
End FindScriptPubKey.

(** What the scan is expected to compute, for the statements below: the
    matches of a list of records added to a result map in cursor order,
    and the values stored to [scan_progress], oldest first. *)
Definition add_match (needles : gset CScript) (m : gmap COutPoint Coin)
    (kc : COutPoint * Coin) : gmap COutPoint Coin :=
  if decide (scriptPubKey (out kc.2) ∈ needles) then emplace kc.1 kc.2 m else m.
Definition matches (needles : gset CScript) (recs : list (COutPoint * Coin))
    (m : gmap COutPoint Coin) : gmap COutPoint Coin :=
  foldl (add_match needles) m recs.

Definition stored_progress (e : event) : option Z :=
  match e with EvStoreProgress v => Some v | _ => None end.
Definition progress_stores (evs : list event) : list Z :=
  omap stored_progress (reverse evs).

Definition flag (st : state) : bool := g_should_abort_scan (shared st).

(** Two states that differ at most in the trace kept of the events. *)
Definition same_data (a b : state) : Prop :=
  shared a = shared b ∧ count a = count b ∧ out_results a = out_results b.

(** The events of the reservation protocol. *)
Definition reservation_event (e : event) : bool :=
  match e with
  | EvExchangeInProgress _ | EvStoreInProgress _ => true
  | _ => false
  end.

(** The keys at which the loop refreshes the estimate: those of the
    records that bring [count] to a multiple of 256, [c] records having
    been counted before. *)
Fixpoint sampled_keys (c : Z) (recs : list (COutPoint * Coin)) : list COutPoint :=
  match recs with
  | [] => []
  | kc :: rest =>
      (if (c + 1) mod 256 =? 0 then [kc.1] else []) ++ sampled_keys (c + 1) rest
  end.

(** The events one iteration adds at [count = c]. *)
Definition checkpoint_events (c : Z) (b : bool) : list event :=
  if Z.rem c 8192 =? 0 then [EvLoadAbort c b; EvInterruption c] else [].
Definition progress_events (c : Z) (key : COutPoint) : list event :=
  if Z.rem c 256 =? 0 then [EvStoreProgress (progress_of key)] else [].

End Scan.

(** ** Exceptions and the state-and-error monad of the RPC handlers *)

Inductive RPCErrorCode :=
  | RPC_MISC_ERROR | RPC_INVALID_PARAMETER | RPC_INTERNAL_ERROR
  | RPC_INVALID_ADDRESS_OR_KEY.

(** What a handler can throw: a [JSONRPCError], the error of a failed
    [CHECK_NONFATAL], the exception of the interruption callback, the I/O
    failure of a write to a [CAutoFile], and the error of a failed
    [fs::rename]. *)
Inductive exn :=
  | JSONRPCError (code : RPCErrorCode) (message : string)
  | NonFatalCheckError
  | InterruptionError
  | IosBaseFailure
  | FilesystemError.

Inductive result (A : Type) :=
  | Ok (a : A)
  | Raise (e : exn).
Arguments Ok {A} a.
Arguments Raise {A} e.

(** Handlers run in a state-and-error monad over the part of the world
    they touch. *)
Definition St (W A : Type) : Type := W → result A * W.

Definition ret {W A} (a : A) : St W A := λ w, (Ok a, w).
Definition raise {W A} (e : exn) : St W A := λ w, (Raise e, w).
Definition bind {W A B} (m : St W A) (k : A → St W B) : St W B := λ w,
  match m w with
  | (Ok a, w1) => k a w1
  | (Raise e, w1) => (Raise e, w1)
  end.
Definition lift {W A} (r : result A) : St W A := λ w, (r, w).

(** For the scan: the shared atomics together with the trace of the
    accesses to them (newest first). *)
Definition world : Type := ScanGlobals * list event.
Abbreviation M := (St world).

Declare Scope rpc_scope.
Delimit Scope rpc_scope with rpc.
Notation "'let*' x := m 'in' k" := (bind m (λ x, k))
  (at level 10, x name, m at level 100, k at level 200) : rpc_scope.
Notation "m ;; k" := (bind m (λ _, k))
  (at level 100, k at level 200, right associativity) : rpc_scope.

(** Modelled from the spec: [CHECK_NONFATAL], a macro defined outside
    src/, ends the operation in progress by an exception when its
    condition is false. *)
Definition CHECK_NONFATAL {W} (b : bool) : St W unit :=
  if b then ret tt else raise NonFatalCheckError.

(** Atomic accesses. *)
Definition exchange_in_progress (b : bool) : M bool := λ w,
  (Ok (g_scan_in_progress w.1),
   (set_in_progress b w.1, EvExchangeInProgress (g_scan_in_progress w.1) :: w.2)).
Definition store_in_progress (b : bool) : M unit := λ w,
  (Ok tt, (set_in_progress b w.1, EvStoreInProgress b :: w.2)).
Definition load_progress : M Z := λ w,
  (Ok (g_scan_progress w.1), (w.1, EvLoadProgress (g_scan_progress w.1) :: w.2)).
Definition store_progress (v : Z) : M unit := λ w,
  (Ok tt, (set_progress v w.1, EvStoreProgress v :: w.2)).
Definition store_should_abort (b : bool) : M unit := λ w,
  (Ok tt, (set_should_abort b w.1, EvStoreAbort b :: w.2)).

(** ** CoinsViewScanReserver *)
Module Reserver.
Local Open Scope rpc_scope.

Record CoinsViewScanReserver := { m_could_reserve : bool }.

(** The constructor: [m_could_reserve(false)]. *)
Definition fresh : CoinsViewScanReserver := {| m_could_reserve := false |}.

(** [reserve()] returns its result and the object after the call. *)
Definition reserve (r : CoinsViewScanReserver) : M (bool * CoinsViewScanReserver) :=
  CHECK_NONFATAL (negb (m_could_reserve r)) ;;
  let* old := exchange_in_progress true in
  if (old : bool) then ret (false, r)
  else
    let* p := load_progress in
    CHECK_NONFATAL (p =? 0) ;;
    ret (true, {| m_could_reserve := true |}).

(** The destructor. *)
Definition destroy (r : CoinsViewScanReserver) : M unit :=
  if m_could_reserve r then store_in_progress false ;; store_progress 0
  else ret tt.

(** A block that declares a reserver, calls [reserve()] first and runs
    [body] on its result; the destructor runs when the block is left,
    by a return or by an exception.  When [reserve()] itself throws, the
    object is as it was before the call. *)
Definition scoped {A} (body : bool → M A) : M A := λ w,
  match reserve fresh w with
  | (Ok (ok, r), w1) =>
      let (res, w2) := body ok w1 in
      (res, (destroy r w2).2)
  | (Raise e, w1) => (Raise e, (destroy fresh w1).2)
  end.

End Reserver.

(** ** scantxoutset *)
Module ScanTxOutSet.
Local Open Scope rpc_scope.

Record unspent := {
  u_txid : uint256;
  u_vout : Z;
  u_scriptPubKey : CScript;
  u_desc : string;
  u_amount : CAmount;
  u_height : Z }.

Record scan_result := {
  success : bool;
  txouts : Z;
  height : Z;
  bestblock : uint256;
  unspents : list unspent;
  total_amount : CAmount }.

Inductive UniValue :=
  | NullUniValue
  | VBool (b : bool)
  | VProgress (progress : Z)
  | VScan (r : scan_result).

(** What the node hands to one [start]: the cursor and the tip obtained
    under [cs_main] ([None] for a null pointer), and the behaviour of the
    environment while the scan runs (see [Scan.FindScriptPubKey]). *)
Record NodeEnv := {
  pcursor : option CCoinsViewCursor;
  tip : option CBlockIndex;
  rpc_interruption_point : Z → bool;
  abort_request : Z → bool }.

(** Iteration over a [std::map<COutPoint, Coin>] is in key order. *)
Definition entry_le (x y : COutPoint * Coin) : Prop := outpoint_lt y.1 x.1 = false.
#[global] Instance entry_le_dec : RelDecision entry_le.
Proof. intros x y. unfold entry_le. apply _. Defined.
Definition in_key_order (m : gmap COutPoint Coin) : list (COutPoint * Coin) :=
  merge_sort entry_le (map_to_list m).

Section scantxoutset.
(** The descriptor collaborators: the scan objects, their expansion to
    scripts (which throws on a malformed descriptor) and the inferred
    descriptor string of a script under the provider of its object. *)
Variable scanobject : Type.
Variable EvalDescriptorStringOrObject : scanobject → result (list CScript).
Variable InferDescriptor : scanobject → CScript → string.

(** Lines 3149-3153. *)
Fixpoint add_scripts (obj : scanobject) (scripts : list CScript)
    (nd : gset CScript * gmap CScript string) : gset CScript * gmap CScript string :=
  match scripts with
  | [] => nd
  | script :: rest =>
      add_scripts obj rest
        ({[ script ]} ∪ nd.1, emplace script (InferDescriptor obj script) nd.2)
  end.

(** Lines 3146-3154. *)
Fixpoint expand_scanobjects (objs : list scanobject)
    (nd : gset CScript * gmap CScript string)
    : result (gset CScript * gmap CScript string) :=
  match objs with
  | [] => Ok nd
  | obj :: rest =>
      match EvalDescriptorStringOrObject obj with
      | Ok scripts => expand_scanobjects rest (add_scripts obj scripts nd)
      | Raise e => Raise e
      end
  end.

(** The call of line 3175, on the shared atomics of the world. *)
Definition run_scan (env : NodeEnv) (needles : gset CScript)
    (cursor : CCoinsViewCursor) : M (Scan.outcome * Z * gmap COutPoint Coin) := λ w,
  let (o, st) := Scan.FindScriptPubKey (rpc_interruption_point env) (abort_request env)
                   needles w.1 w.2 cursor ∅ in
  (Ok (o, Scan.count st, Scan.out_results st), (Scan.shared st, Scan.events st)).

(** Lines 3181-3197. *)
Definition make_unspent (descriptors : gmap CScript string)
    (it : COutPoint * Coin) : unspent :=
  {| u_txid := hash it.1;
     u_vout := wrap_int32 (n it.1);
     u_scriptPubKey := scriptPubKey (out it.2);
     u_desc := default EmptyString (descriptors !! scriptPubKey (out it.2));
     u_amount := nValue (out it.2);
     u_height := wrap_int32 (nHeight it.2) |}.
Definition sum_values (its : list (COutPoint * Coin)) : CAmount :=
  fold_left (λ total_in it, wrap_int64 (total_in + nValue (out it.2))) its 0.

(** The body of the [start] branch after a successful reservation. *)
Definition start_body (scanobjects : option (list scanobject)) (env : NodeEnv)
    : M UniValue :=
  match scanobjects with
  | None => raise (JSONRPCError RPC_MISC_ERROR
                     "scanobjects argument is required for the start action")
  | Some objs =>
      let* nd := lift (expand_scanobjects objs (∅, ∅)) in
      store_should_abort false ;;
      CHECK_NONFATAL (bool_decide (is_Some (pcursor env))) ;;
      CHECK_NONFATAL (bool_decide (is_Some (tip env))) ;;
      match pcursor env, tip env with
      | Some cursor, Some tip =>
          let* r := run_scan env nd.1 cursor in
          match r with
          | (Scan.Interrupted, _, _) => raise InterruptionError
          | (Scan.Returned res, count, coins) =>
              let its := in_key_order coins in
              ret (VScan {| success := res;
                            txouts := count;
                            height := BlockIndex.nHeight tip;
                            bestblock := BlockIndex.GetBlockHash tip;
                            unspents := make_unspent nd.2 <$> its;
                            total_amount := sum_values its |})
          end
      | _, _ => raise NonFatalCheckError
      end
  end.

(** The handler.  [action] is [request.params[0]], [scanobjects] is
    [request.params[1]] when the request has it.  (The inner double
    quotes of the busy message are written as single quotes.) *)
Definition scantxoutset (action : string) (scanobjects : option (list scanobject))
    (env : NodeEnv) : M UniValue :=
  if String.eqb action "status" then
    Reserver.scoped (λ ok,
      if ok then ret NullUniValue
      else let* p := load_progress in ret (VProgress p))
  else if String.eqb action "abort" then
    Reserver.scoped (λ ok,
      if ok then ret (VBool false)
      else store_should_abort true ;; ret (VBool true))
  else if String.eqb action "start" then
    Reserver.scoped (λ ok,
      if negb ok then
        raise (JSONRPCError RPC_INVALID_PARAMETER
                 "Scan already in progress, use action 'abort' or 'status'")
      else start_body scanobjects env)
  else raise (JSONRPCError RPC_INVALID_PARAMETER "Invalid command").
End scantxoutset.

End ScanTxOutSet.

(** ** dumptxoutset and CreateUTXOSnapshot *)
Module Snapshot.
Local Open Scope rpc_scope.

(** Modelled from the spec: [SnapshotMetadata] and [CCoinsStats] are
    declared outside src/.  The header of a snapshot is {base block hash,
    coin count, cumulative transaction count of the base block}; the stats
    call returns the coin count and the hash of the tip. *)
Record SnapshotMetadata := {
  m_base_blockhash : uint256;
  m_coins_count : Z;
  m_nchaintx : Z }.

Record CCoinsStats := { hashBlock : uint256; coins_count : Z }.

(** A file is the sequence of the objects serialized to it (the byte
    encoding of an object is the business of serializers outside src/). *)
Inductive item :=
  | IMetadata (m : SnapshotMetadata)
  | IOutPoint (key : COutPoint)
  | ICoin (coin : Coin).
Abbreviation file := (list item).

(** The operations of an export on the disk and on the node, in the
    order they are performed.  [OpWriteOut p xs]: the stream that was
    opened on [p] writes the objects [xs] of its buffer out to the file;
    [OpFclose p xs]: the stream is closed, and the close has written out
    [xs] of what the buffer still held. *)
Inductive op :=
  | OpFopen (p : string)
  | OpWriteOut (p : string) (xs : list item)
  | OpFclose (p : string) (xs : list item)
  | OpRename (from to : string)
  | OpForceFlushStateToDisk
  | OpGetUTXOStats
  | OpCursor
  | OpLookupBlockIndex.

(** The disk: the files that paths name, and the files of the node's
    coin database.  The database files are kept apart from the named ones
    (what they hold is the business of the database, outside src/); of
    them the model keeps how many flushes have written them. *)
Abbreviation disk := (gmap string file * nat)%type.

(** The effect of one operation on the disk.  [fopen(_, "wb")] creates or
    truncates; a stream appends what it writes out, also at its close;
    [rename] replaces the target; [ForceFlushStateToDisk] writes the
    database files. *)
Definition apply_op (o : op) (d : disk) : disk :=
  match o with
  | OpFopen p => (<[p := []]> d.1, d.2)
  | OpWriteOut p xs | OpFclose p xs => (alter (λ content, content ++ xs) p d.1, d.2)
  | OpRename from to =>
      (match d.1 !! from with
       | Some content => <[to := content]> (delete from d.1)
       | None => d.1
       end, d.2)
  | OpForceFlushStateToDisk => (d.1, S d.2)
  | OpGetUTXOStats | OpCursor | OpLookupBlockIndex => d
  end.
Definition replay (ops : list op) (d : disk) : disk :=
  foldl (λ d o, apply_op o d) d ops.

(** The world of an export: the named files, the flushes of the database
    files, the open streams (each with the objects in its buffer, written
    through the handle and not yet in the file), and the operations
    performed so far (newest first). *)
Record xworld := {
  files : gmap string file;
  coinsdb_flushes : nat;
  streams : gmap string (list item);
  ops : list op }.
Abbreviation XM := (St xworld).

Definition on_disk (w : xworld) : disk := (files w, coinsdb_flushes w).

Definition perform (o : op) : XM unit := λ w,
  (Ok tt, {| files := (apply_op o (on_disk w)).1;
             coinsdb_flushes := (apply_op o (on_disk w)).2;
             streams := streams w;
             ops := o :: ops w |}).
Definition set_stream (p : string) (buffer : option (list item)) : XM unit := λ w,
  (Ok tt, {| files := files w;
             coinsdb_flushes := coinsdb_flushes w;
             streams := match buffer with
                        | Some b => <[p := b]> (streams w)
                        | None => delete p (streams w)
                        end;
             ops := ops w |}).

Inductive stats_outcome :=
  | StatsOk (stats : CCoinsStats)
  | StatsFailed
  | StatsInterrupted.

(** What [fwrite] on the buffered [FILE*] of line 3330 does with an
    object: it keeps it in the buffer of the stream, or writes the buffer
    and the object out to the file, or fails. *)
Inductive fwrite_outcome := Buffered | WrittenOut | WriteFailed.

(** What the node and the operating system answer during one export:
    whether [fopen] fails, what [GetUTXOStats] does, the cursor over the
    flushed state, the block index, whether the interruption callback
    throws at the [i]-th record, what the write of the [k]-th object
    through the stream does, and whether the close of the stream writes
    its buffer out ([None]) or fails having written out only the first
    [n] of the objects buffered ([Some n]). *)
Record ExportEnv := {
  fopen_fails : bool;
  GetUTXOStats : stats_outcome;
  Cursor : CCoinsViewCursor;
  LookupBlockIndex : uint256 → option CBlockIndex;
  rpc_interruption_point : nat → bool;
  fwrite : nat → fwrite_outcome;
  fclose_fails : option nat }.

(** Modelled from the spec: [CAutoFile], declared outside src/.  It is
    the path its [FILE*] was opened on, [None] for a null handle.  The
    [FILE*] is a buffered stream: it is open while [streams] has an entry
    for the path.  A write through it that fails is fatal to the export;
    its [fclose] returns nothing, so a close that fails goes unnoticed;
    its destructor closes the stream if it is still open. *)
Record CAutoFile := { handle : option string }.

(** [fs::exists], [fsbridge::fopen] in mode "wb", and below [fs::rename],
    which throws when its source is missing. *)
Definition fs_exists (p : string) : XM bool := λ w,
  (Ok (bool_decide (is_Some (files w !! p))), w).

Definition fopen_wb (env : ExportEnv) (p : string) : XM CAutoFile :=
  if fopen_fails env then ret {| handle := None |}
  else perform (OpFopen p) ;; set_stream p (Some []) ;; ret {| handle := Some p |}.

(** [afile << x]: throws on a null or closed handle and on a failed
    write.  The position of [x] is the number of objects written through
    the stream before it.  What a failed write has put into the file
    before it failed is left out. *)
Definition write (env : ExportEnv) (afile : CAutoFile) (x : item) : XM unit := λ w,
  match handle afile with
  | None => (Raise IosBaseFailure, w)
  | Some p =>
      match streams w !! p with
      | None => (Raise IosBaseFailure, w)
      | Some buffer =>
          match fwrite env (length (default [] (files w !! p)) + length buffer) with
          | WriteFailed => (Raise IosBaseFailure, w)
          | Buffered => set_stream p (Some (buffer ++ [x])) w
          | WrittenOut =>
              (perform (OpWriteOut p (buffer ++ [x])) ;; set_stream p (Some [])) w
          end
      end
  end.

(** [afile.fclose()], also run by the destructor: nothing on a null or
    closed handle; otherwise the stream is closed, which writes its
    buffer out, or, when the close fails, a part of it only.  Whether the
    close failed is not returned. *)
Definition fclose (env : ExportEnv) (afile : CAutoFile) : XM unit := λ w,
  match handle afile with
  | None => (Ok tt, w)
  | Some p =>
      match streams w !! p with
      | None => (Ok tt, w)
      | Some buffer =>
          let written :=
            match fclose_fails env with
            | None => buffer
            | Some n => take n buffer
            end in
          (perform (OpFclose p written) ;; set_stream p None) w
      end
  end.

(** A block that owns a local object: [destructor] runs when the block is
    left, by its return or by an exception. *)
Definition with_local {A} (destructor : XM unit) (body : XM A) : XM A := λ w,
  let (r, w1) := body w in (r, (destructor w1).2).

Definition rename (from to : string) : XM unit := λ w,
  match files w !! from with
  | None => (Raise FilesystemError, w)
  | Some _ => perform (OpRename from to) w
  end.

Record snapshot_result := {
  coins_written : Z;
  base_hash : uint256;
  base_height : Z }.

Record dump_result := {
  snapshot : snapshot_result;
  path : string }.

(** Lines 3382-3391.  [iter] is the [unsigned int] counter, [i] the
    position of the cursor. *)
Fixpoint stream (env : ExportEnv) (afile : CAutoFile) (pcursor : CCoinsViewCursor)
    (iter : Z) (i : nat) : XM unit :=
  match pcursor with
  | [] => ret tt
  | e :: rest =>
      (if iter mod 5000 =? 0
       then (if rpc_interruption_point env i then raise InterruptionError else ret tt)
       else ret tt) ;;
      (match GetKey e, GetValue e with
       | Some key, Some coin =>
           write env afile (IOutPoint key) ;; write env afile (ICoin coin)
       | _, _ => ret tt
       end) ;;
      stream env afile rest (wrap_uint32 (iter + 1)) (S i)
  end.

Definition CreateUTXOSnapshot (env : ExportEnv) (afile : CAutoFile)
    : XM snapshot_result :=
  perform OpForceFlushStateToDisk ;;
  perform OpGetUTXOStats ;;
  match GetUTXOStats env with
  | StatsInterrupted => raise InterruptionError
  | StatsFailed => raise (JSONRPCError RPC_INTERNAL_ERROR "Unable to read UTXO set")
  | StatsOk stats =>
      perform OpCursor ;;
      perform OpLookupBlockIndex ;;
      match LookupBlockIndex env (hashBlock stats) with
      | None => raise NonFatalCheckError
      | Some tip =>
          let metadata := {| m_base_blockhash := BlockIndex.GetBlockHash tip;
                             m_coins_count := coins_count stats;
                             m_nchaintx := BlockIndex.nChainTx tip |} in
          write env afile (IMetadata metadata) ;;
          stream env afile (Cursor env) 0 0 ;;
          fclose env afile ;;
          ret {| coins_written := coins_count stats;
                 base_hash := BlockIndex.GetBlockHash tip;
                 base_height := BlockIndex.nHeight tip |}
      end
  end.

(** The operations of the snapshot writer on a handle opened on [p]. *)
Definition writer_op (p : string) (o : op) : Prop :=
  match o with
  | OpWriteOut q _ | OpFclose q _ => q = p
  | OpForceFlushStateToDisk | OpGetUTXOStats | OpCursor | OpLookupBlockIndex => True
  | _ => False
  end.

Section dumptxoutset.
(** [fsbridge::AbsPathJoin], defined outside src/, and the data
    directory. *)
Variable AbsPathJoin : string → string → string.
Variable datadir : string.

Definition final_path (arg : string) : string := AbsPathJoin datadir arg.
Definition temp_path (arg : string) : string :=
  AbsPathJoin datadir (arg +:+ ".incomplete").

Definition dumptxoutset (arg : string) (env : ExportEnv) : XM dump_result :=
  let path := final_path arg in
  let temppath := temp_path arg in
  let* found := fs_exists path in
  if (found : bool) then
    raise (JSONRPCError RPC_INVALID_PARAMETER
             (path +:+ " already exists. If you are sure this is what you want, "
                   +:+ "move it out of the way first"))
  else
    let* afile := fopen_wb env temppath in
    with_local (fclose env afile)
      (let* result := CreateUTXOSnapshot env afile in
       rename temppath path ;;
       ret {| snapshot := result; path := path |}).

(** The operations of an export before its rename. *)
Definition export_op (arg : string) (o : op) : Prop :=
  writer_op (temp_path arg) o ∨ o = OpFopen (temp_path arg).

End dumptxoutset.

(** An environment that disturbs nothing: [fopen] succeeds, the callback
    never throws, no write fails, and the close writes the buffer out. *)
Definition benign (env : ExportEnv) : Prop :=
  fopen_fails env = false ∧
  (∀ i, rpc_interruption_point env i = false) ∧
  (∀ k, fwrite env k ≠ WriteFailed) ∧
  fclose_fails env = None.

(** What the statements below measure: the records of a file's body, the
    count in its header, the records of a cursor that decode, and the
    content of a complete snapshot. *)
Definition is_coin (x : item) : bool :=
  match x with ICoin _ => true | _ => false end.
Definition records_written (content : file) : Z :=
  Z.of_nat (length (filter (λ x, is_coin x = true) content)).
Definition header_count (content : file) : option Z :=
  match content with
  | IMetadata m :: _ => Some (m_coins_count m)
  | _ => None
  end.
Definition record_items (e : CursorEntry) : list item :=
  match GetKey e, GetValue e with
  | Some key, Some coin => [IOutPoint key; ICoin coin]
  | _, _ => []
  end.
Definition body_of (pcursor : CCoinsViewCursor) : list item :=
  pcursor ≫= record_items.
Definition decoded_count (pcursor : CCoinsViewCursor) : Z :=
  Z.of_nat (length (filter decodable pcursor)).

(** [performs P m]: whatever the world, [m] adds to the operations a list
    [new] (newest first) of operations that satisfy [P], and the disk it
    leaves is the disk it found with these operations applied in
    order. *)
Definition performs (P : op → Prop) {A} (m : XM A) : Prop :=
  ∀ w, ∃ new, ops (m w).2 = new ++ ops w ∧
              on_disk (m w).2 = replay (reverse new) (on_disk w) ∧
              Forall P new.

(** An operation that creates, changes or removes the file at [p]. *)
Definition touches (p : string) (o : op) : Prop :=
  match o with
  | OpFopen q | OpWriteOut q _ | OpFclose q _ => q = p
  | OpRename from to => from = p ∨ to = p
  | _ => False
  end.

(** The world once [fopen] has created the file at [p] and given a
    stream on it. *)
Definition opened (p : string) (w : xworld) : xworld :=
  {| files := <[p := []]> (files w);
     coinsdb_flushes := coinsdb_flushes w;
     streams := <[p := []]> (streams w);
     ops := OpFopen p :: ops w |}.

End Snapshot.

(** ** Handlers running concurrently

    The three atomics are accessed with sequentially consistent
    operations, so a run of several handler threads is an interleaving of
    their atomic accesses.  A thread is at one of the program points of
    the reserver protocol; what a [start] does while it holds the
    reservation is abstracted to the stores it can make (clearing the
    abort flag, storing a progress value). *)
Module Interleaving.

Inductive action := Status | Abort | Start.

Inductive pc :=
  | Idle                     (* not in a handler *)
  | Reserving (a : action)   (* reserver constructed, before the exchange *)
  | Checking (a : action)    (* the exchange found false, before the progress check *)
  | Holding (a : action)     (* m_could_reserve = true, inside the block *)
  | Losing (a : action)      (* reserve() returned false, inside the block *)
  | Releasing.               (* destructor, between its two stores *)

Inductive label :=
  | LCall (a : action)
  | LStep
  | LClearAbort
  | LProgress (v : Z)
  | LRelease.

(** The next atomic step of a thread. *)
Definition thread_next (l : label) (g : ScanGlobals) (p : pc)
    : option (ScanGlobals * pc) :=
  match p, l with
  | Idle, LCall a => Some (g, Reserving a)
  | Reserving a, LStep =>
      Some (set_in_progress true g,
            if g_scan_in_progress g then Losing a else Checking a)
  | Checking a, LStep =>
      Some (g, if g_scan_progress g =? 0 then Holding a else Idle)
  | Holding Start, LClearAbort => Some (set_should_abort false g, Holding Start)
  | Holding Start, LProgress v => Some (set_progress v g, Holding Start)
  | Holding _, LRelease => Some (set_in_progress false g, Releasing)
  | Releasing, LStep => Some (set_progress 0 g, Idle)
  | Losing Abort, LStep => Some (set_should_abort true g, Idle)
  | Losing _, LStep => Some (g, Idle)
  | _, _ => None
  end.

Record config := { globals : ScanGlobals; threads : list pc }.

Definition step (who : nat) (l : label) (c : config) : option config :=
  match threads c !! who with
  | None => None
  | Some p =>
      match thread_next l (globals c) p with
      | None => None
      | Some (g, p1) => Some {| globals := g; threads := <[who := p1]> (threads c) |}
      end
  end.

Fixpoint run (schedule : list (nat * label)) (c : config) : option config :=
  match schedule with
  | [] => Some c
  | (who, l) :: rest =>
      match step who l c with
      | None => None
      | Some c1 => run rest c1
      end
  end.

(** The statics are zero-initialized. *)
Definition idle : ScanGlobals :=
  {| g_scan_progress := 0; g_scan_in_progress := false; g_should_abort_scan := false |}.
Definition init (nthreads : nat) : config :=
  {| globals := idle; threads := replicate nthreads Idle |}.

(** A thread owns the reservation from its successful exchange until the
    first store of its destructor. *)
Definition owns (p : pc) : bool :=
  match p with Checking _ | Holding _ => true | _ => false end.
Definition weight (p : pc) : nat := if owns p then 1 else 0.
Fixpoint owners (ts : list pc) : nat :=
  match ts with
  | [] => 0
  | p :: rest => (weight p + owners rest)%nat
  end.

(** The invariant of the protocol: at most one thread owns the
    reservation, and while one does the flag is set. *)
Definition protocol_inv (c : config) : Prop :=
  (owners (threads c) ≤ 1)%nat ∧
  (owners (threads c) = 1%nat → g_scan_in_progress (globals c) = true).

End Interleaving.

(** ** Concrete stores for the examples *)
Module Examples.

Definition byte_of (z : Z) : byte := default "000"%byte (Byte.of_N (Z.to_N (z mod 256))).

(** The outpoint whose hash starts with the two bytes of [hi] (most
    significant first) followed by thirty zero bytes. *)
Definition outpoint_at (hi : Z) (index : Z) : COutPoint :=
  {| hash := byte_of (hi / 256) :: byte_of hi :: replicate 30 "000"%byte; n := index |}.

Definition script_a : CScript := ["118"%byte; "169"%byte].
Definition script_b : CScript := ["081"%byte].

Definition coin_of (value : CAmount) (script : CScript) (h : Z) : Coin :=
  {| out := {| nValue := value; scriptPubKey := script |};
     fCoinBase := false; fCoinStake := false; nHeight := h |}.

(** Three coins, one of them paying to [script_b]. *)
Definition store3 : list (COutPoint * Coin) :=
  [ (outpoint_at 256 0, coin_of 10 script_a 5);
    (outpoint_at 32768 1, coin_of 20 script_b 6);
    (outpoint_at 65535 0, coin_of 30 script_a 7) ].

(** [len] coins in key order, the [i]-th under the hash prefix [100 * i]. *)
Definition store_of (len : nat) : list (COutPoint * Coin) :=
  (λ i : nat, (outpoint_at (100 * Z.of_nat i) 0,
               coin_of (Z.of_nat i) (if Nat.even i then script_a else script_b) 1))
  <$> seq 0 len.
Definition store600 : list (COutPoint * Coin) := store_of 600.

Definition never (c : Z) : bool := false.
Definition always (c : Z) : bool := true.

Definition tip0 : CBlockIndex :=
  {| BlockIndex.nHeight := 100; BlockIndex.GetBlockHash := replicate 32 "007"%byte;
     BlockIndex.nChainTx := 1234 |}.

Definition idle : ScanGlobals :=
  {| g_scan_progress := 0; g_scan_in_progress := false; g_should_abort_scan := false |}.

(** A record whose value does not decode. *)
Definition corrupt_entry : CursorEntry :=
  {| GetKey := Some (outpoint_at 40000 0); GetValue := None |}.

(** A cursor whose second record does not decode. *)
Definition corrupt_cursor : CCoinsViewCursor :=
  (entry_of <$> take 1 store3) ++ corrupt_entry :: (entry_of <$> drop 2 store3).

Definition quiet_env (cursor : CCoinsViewCursor) : ScanTxOutSet.NodeEnv :=
  {| ScanTxOutSet.pcursor := Some cursor;
     ScanTxOutSet.tip := Some tip0;
     ScanTxOutSet.rpc_interruption_point := never;
     ScanTxOutSet.abort_request := never |}.

(** Two threads: the first starts a scan and holds the reservation, the
    second calls start and loses. *)
Definition schedule_two_starts : list (nat * Interleaving.label) :=
  [ (0%nat, Interleaving.LCall Interleaving.Start); (0%nat, Interleaving.LStep);
    (1%nat, Interleaving.LCall Interleaving.Start); (0%nat, Interleaving.LStep);
    (0%nat, Interleaving.LClearAbort); (1%nat, Interleaving.LStep);
    (0%nat, Interleaving.LProgress 37) ].

(** Two threads: the first finishes a scan and is between the two
    stores of its destructor when the second reserves. *)
Definition schedule_release_race : list (nat * Interleaving.label) :=
  [ (0%nat, Interleaving.LCall Interleaving.Start); (0%nat, Interleaving.LStep);
    (0%nat, Interleaving.LStep); (0%nat, Interleaving.LClearAbort);
    (0%nat, Interleaving.LProgress 100); (0%nat, Interleaving.LRelease);
    (1%nat, Interleaving.LCall Interleaving.Start); (1%nat, Interleaving.LStep);
    (1%nat, Interleaving.LStep); (0%nat, Interleaving.LStep) ].


(** A join of paths in the manner of [fsbridge::AbsPathJoin]: an absolute
    path is kept, a relative one is put under the base. *)
Definition abs_path_join (base p : string) : string :=
  if String.prefix "/" p then p else base +:+ "/" +:+ p.

(** An export that nothing disturbs, of a cursor and a count given by
    the stats call.  Its stream writes every object out at once. *)
Definition export_env (cursor : CCoinsViewCursor) (count : Z) : Snapshot.ExportEnv :=
  {| Snapshot.fopen_fails := false;
     Snapshot.GetUTXOStats :=
       Snapshot.StatsOk {| Snapshot.hashBlock := BlockIndex.GetBlockHash tip0;
                           Snapshot.coins_count := count |};
     Snapshot.Cursor := cursor;
     Snapshot.LookupBlockIndex := λ _, Some tip0;
     Snapshot.rpc_interruption_point := λ _, false;
     Snapshot.fwrite := λ _, Snapshot.WrittenOut;
     Snapshot.fclose_fails := None |}.

(** The same export interrupted at the record of position [i]. *)
Definition interrupted_env (cursor : CCoinsViewCursor) (count : Z) (i : nat)
    : Snapshot.ExportEnv :=
  {| Snapshot.fopen_fails := false;
     Snapshot.GetUTXOStats :=
       Snapshot.StatsOk {| Snapshot.hashBlock := BlockIndex.GetBlockHash tip0;
                           Snapshot.coins_count := count |};
     Snapshot.Cursor := cursor;
     Snapshot.LookupBlockIndex := λ _, Some tip0;
     Snapshot.rpc_interruption_point := λ j, bool_decide (j = i);
     Snapshot.fwrite := λ _, Snapshot.WrittenOut;
     Snapshot.fclose_fails := None |}.

(** An export whose stream writes the first [k] objects out and keeps
    the later ones in its buffer, and whose close fails before it has
    written any of them (a full disk, say). *)
Definition failing_close_env (cursor : CCoinsViewCursor) (count : Z) (k : nat)
    : Snapshot.ExportEnv :=
  {| Snapshot.fopen_fails := false;
     Snapshot.GetUTXOStats :=
       Snapshot.StatsOk {| Snapshot.hashBlock := BlockIndex.GetBlockHash tip0;
                           Snapshot.coins_count := count |};
     Snapshot.Cursor := cursor;
     Snapshot.LookupBlockIndex := λ _, Some tip0;
     Snapshot.rpc_interruption_point := λ _, false;
     Snapshot.fwrite := λ j, if (j <? k)%nat then Snapshot.WrittenOut else Snapshot.Buffered;
     Snapshot.fclose_fails := Some 0%nat |}.

Definition no_files : Snapshot.xworld :=
  {| Snapshot.files := ∅; Snapshot.coinsdb_flushes := 0;
     Snapshot.streams := ∅; Snapshot.ops := [] |}.
Definition one_file : Snapshot.xworld :=
  {| Snapshot.files := {[ "/data/utxo.dat" := [] ]}; Snapshot.coinsdb_flushes := 0;
     Snapshot.streams := ∅; Snapshot.ops := [] |}.

(** Descriptors, for the examples, are the scripts themselves. *)
Definition eval_raw (script : CScript) : result (list CScript) := Ok [script].
Definition infer_raw (obj script : CScript) : string := "raw".

End Examples.

(** ** Variations of an export environment, for the statements on what
    an export depends on *)
Module ExportVariants.
Import Snapshot.

(** The environment [env] with another interruption callback. *)
Definition with_interruption_point (ip : nat → bool) (env : ExportEnv) : ExportEnv :=
  {| fopen_fails := fopen_fails env;
     GetUTXOStats := GetUTXOStats env;
     Cursor := Cursor env;
     LookupBlockIndex := LookupBlockIndex env;
     rpc_interruption_point := ip;
     fwrite := fwrite env;
     fclose_fails := fclose_fails env |}.

(** The positions of the cursor at which the 32-bit counter [iter] of the
    streaming loop is a multiple of 5000. *)
Definition polled (i : nat) : bool := (Z.of_nat i mod 2 ^ 32) mod 5000 =? 0.

End ExportVariants.

(** ** More concrete data: a running scan, a descriptor that fails *)
Module Samples.

(** The atomics while a scan runs, a third of the way through. *)
Definition scanning : ScanGlobals :=
  {| g_scan_progress := 37; g_scan_in_progress := true; g_should_abort_scan := false |}.

(** The atomics between the two stores of the destructor of a scan that
    completed. *)
Definition releasing : ScanGlobals :=
  {| g_scan_progress := 100; g_scan_in_progress := false; g_should_abort_scan := false |}.

(** A descriptor evaluation that rejects the empty script. *)
Definition eval_checked (script : CScript) : result (list CScript) :=
  match script with
  | [] => Raise (JSONRPCError RPC_INVALID_ADDRESS_OR_KEY "empty descriptor")
  | _ => Ok [script]
  end.

(** A callback that would throw wherever the streaming loop of an export
    does not consult it. *)
Definition unpolled (i : nat) : bool := negb (ExportVariants.polled i).

End Samples.

(** ** The median of getblockstats *)
Module BlockStats.

(** [CalculateTruncatedMedian], lines 2655-2670, at [T = int64_t]
    ([CAmount] is [int64_t]).  [std::sort] leaves the scores in
    increasing order; the two reads are within the vector ([nth] never
    returns its default), the sum of the two middle scores is a 64-bit
    sum and [/] truncates towards zero.  The vector is sorted in place;
    no caller reads it afterwards. *)
Definition CalculateTruncatedMedian (scores : list Z) : Z :=
  let size := length scores in
  if (size =? 0)%nat then 0
  else
    let sorted := merge_sort Z.le scores in
    if (size mod 2 =? 0)%nat
    then Z.quot (wrap_int64 (nth (size / 2 - 1) sorted 0 + nth (size / 2) sorted 0)) 2
    else nth (size / 2) sorted 0.

End BlockStats.

(** * Properties *)

(** ** Arithmetic of the fixed-width counters *)

Lemma wrap_int64_small z : - 2 ^ 63 ≤ z ≤ INT64_MAX → wrap_int64 z = z.
Proof.
  unfold wrap_int64, INT64_MAX. intros Hz.
  rewrite Z.mod_small by lia. lia.
Qed.


Module ScanFacts.
Import Scan.






(** Keys that increase in the order of [COutPoint] are distinct, and
    their hashes are in bytewise order. *)
Lemma bytes_compare_refl h : bytes_compare h h = Eq.
Proof.
  induction h as [|x h IH]; [done|]. simpl. by rewrite Z.compare_refl.
Qed.

Lemma outpoint_lt_irrefl a : outpoint_lt a a = false.
Proof. unfold outpoint_lt. rewrite bytes_compare_refl. apply Z.ltb_irrefl. Qed.

Lemma outpoint_lt_hash_le a b : outpoint_lt a b = true → hash_le a b.
Proof.
  unfold outpoint_lt, hash_le. by destruct (bytes_compare (hash a) (hash b)).
Qed.

Lemma ordered_keys_NoDup (keys : list COutPoint) :
  StronglySorted (λ a b, outpoint_lt a b = true) keys → NoDup keys.
Proof.
  induction 1 as [|a keys Hs IH Hall]; constructor; [|done].
  intros Hin. rewrite Forall_forall in Hall. specialize (Hall _ Hin).
  by rewrite outpoint_lt_irrefl in Hall.
Qed.

Lemma ordered_keys_hash_le (keys : list COutPoint) :
  Sorted (λ a b, outpoint_lt a b = true) keys → Sorted hash_le keys.
Proof.
  induction 1 as [|a keys Hs IH Hhd]; constructor; [done|].
  destruct Hhd; constructor. by apply outpoint_lt_hash_le.
Qed.

Section steps.
Variable interruption_point : Z → bool.
Variable abort_request : Z → bool.
Variable needles : gset CScript.

Local Abbreviation loop_body := (loop_body interruption_point abort_request needles).
Local Abbreviation scan_loop := (scan_loop interruption_point abort_request needles).
Local Abbreviation scan_through :=
  (scan_through interruption_point abort_request needles).

(** One iteration on a record that decodes, when [count] does not
    overflow: the three ways it can end. *)
Lemma loop_body_continue kc st st1 :
  0 ≤ count st < INT64_MAX →
  loop_body (entry_of kc) st = Continue st1 →
  count st1 = count st + 1 ∧
  out_results st1 = add_match needles (out_results st) kc ∧
  events st1 = progress_events (count st1) kc.1
               ++ checkpoint_events (count st1) false ++ events st ∧
  (Z.rem (count st1) 8192 = 0 →
     interruption_point (count st1) = false ∧ flag st = false ∧
     abort_request (count st1) = false ∧ flag st1 = false) ∧
  (Z.rem (count st1) 8192 ≠ 0 → flag st1 = flag st).
Proof.
  intros Hc. unfold loop_body, Scan.loop_body, checkpoint, and_then,
    update_progress, match_needle, add_match, progress_events,
    checkpoint_events, flag. simpl.
  rewrite wrap_int64_small by (unfold INT64_MAX in *; lia).
  destruct (Z.rem (count st + 1) 8192 =? 0) eqn:E8; simpl.
  - destruct (interruption_point (count st + 1)) eqn:Ei; [discriminate|].
    destruct (g_should_abort_scan (shared st)) eqn:Ef; simpl; [discriminate|].
    destruct (abort_request (count st + 1)) eqn:Ea; simpl; [discriminate|].
    intros [= <-].
    destruct (Z.rem (count st + 1) 256 =? 0) eqn:E256;
      destruct (decide (scriptPubKey (out kc.2) ∈ needles)); simpl;
      rewrite ?E8, ?E256; simpl; repeat split; auto; intros; lia.
  - intros [= <-]. apply Z.eqb_neq in E8.
    destruct (Z.rem (count st + 1) 256 =? 0) eqn:E256;
      destruct (decide (scriptPubKey (out kc.2) ∈ needles)); simpl;
      rewrite ?E256; simpl;
      (destruct (Z.rem (count st + 1) 8192 =? 0) eqn:E8'; [apply Z.eqb_eq in E8'; lia|]);
      repeat split; auto; intros; lia.
Qed.

Lemma loop_body_return kc st b st1 :
  0 ≤ count st < INT64_MAX →
  loop_body (entry_of kc) st = Return b st1 →
  b = false ∧ count st1 = count st + 1 ∧ Z.rem (count st1) 8192 = 0 ∧
  interruption_point (count st1) = false ∧
  flag st || abort_request (count st1) = true ∧
  out_results st1 = out_results st ∧
  events st1 = EvLoadAbort (count st1) true :: EvInterruption (count st1) :: events st.
Proof.
  intros Hc. unfold loop_body, Scan.loop_body, checkpoint, and_then, flag. simpl.
  rewrite wrap_int64_small by (unfold INT64_MAX in *; lia).
  destruct (Z.rem (count st + 1) 8192 =? 0) eqn:E8; simpl; [|discriminate].
  destruct (interruption_point (count st + 1)) eqn:Ei; [discriminate|].
  destruct (g_should_abort_scan (shared st) || abort_request (count st + 1)) eqn:Ef;
    simpl; [|discriminate].
  intros [= <- <-]. simpl. apply Z.eqb_eq in E8. rewrite Ef. repeat split; auto.
Qed.

Lemma loop_body_throw kc st st1 :
  0 ≤ count st < INT64_MAX →
  loop_body (entry_of kc) st = Throw st1 →
  count st1 = count st + 1 ∧ Z.rem (count st1) 8192 = 0 ∧
  interruption_point (count st1) = true ∧
  out_results st1 = out_results st ∧
  events st1 = EvInterruption (count st1) :: events st.
Proof.
  intros Hc. unfold loop_body, Scan.loop_body, checkpoint, and_then. simpl.
  rewrite wrap_int64_small by (unfold INT64_MAX in *; lia).
  destruct (Z.rem (count st + 1) 8192 =? 0) eqn:E8; simpl; [|discriminate].
  destruct (interruption_point (count st + 1)) eqn:Ei.
  - intros [= <-]. simpl. apply Z.eqb_eq in E8. repeat split; auto.
  - destruct (g_should_abort_scan (shared st) || abort_request (count st + 1));
      simpl; discriminate.
Qed.

(** A record that does not decode ends the scan where it stands. *)
Lemma loop_body_corrupt e st :
  ¬ decodable e → loop_body e st = Return false st.
Proof.
  unfold decodable, loop_body, Scan.loop_body. intros Hd.
  destruct (GetKey e) as [key|]; [|done].
  destruct (GetValue e) as [coin|]; [|done].
  exfalso. apply Hd. split; eauto.
Qed.

Lemma decodable_entry_of e : decodable e → ∃ kc, e = entry_of kc.
Proof.
  destruct e as [ok oc]. intros [[key Hk] [coin Hc]]. simpl in *. subst.
  by exists (key, coin).
Qed.

Lemma rem_8192_nonneg c : 0 ≤ c → Z.rem c 8192 = c mod 8192.
Proof. intros. apply Z.rem_mod_nonneg; lia. Qed.

(** The stores to [scan_progress], oldest first, grow at the end. *)
Lemma progress_stores_cons e evs :
  progress_stores (e :: evs) = progress_stores evs ++ option_list (stored_progress e).
Proof.
  unfold progress_stores. rewrite reverse_cons, omap_app. simpl.
  by destruct (stored_progress e).
Qed.

Lemma progress_stores_app evs1 evs2 :
  progress_stores (evs1 ++ evs2) = progress_stores evs2 ++ progress_stores evs1.
Proof. unfold progress_stores. by rewrite reverse_app, omap_app. Qed.

Lemma progress_stores_checkpoint c b : progress_stores (checkpoint_events c b) = [].
Proof. unfold checkpoint_events. by destruct (Z.rem c 8192 =? 0). Qed.

Lemma progress_stores_progress c key :
  0 ≤ c →
  progress_stores (progress_events c key) =
    progress_of <$> (if c mod 256 =? 0 then [key] else []).
Proof.
  intros Hc. unfold progress_events. rewrite Z.rem_mod_nonneg by lia.
  by destruct (c mod 256 =? 0).
Qed.

(** A scan that meets no stop request at a checkpoint runs to the end
    of a cursor whose records all decode. *)
Lemma scan_loop_exhaust recs st :
  0 ≤ count st → count st + Z.of_nat (length recs) ≤ INT64_MAX →
  flag st = false →
  (∀ c, count st < c ≤ count st + Z.of_nat (length recs) → c mod 8192 = 0 →
        interruption_point c = false ∧ abort_request c = false) →
  ∃ st', scan_loop (entry_of <$> recs) st = (Returned true, st') ∧
         count st' = count st + Z.of_nat (length recs) ∧
         out_results st' = matches needles recs (out_results st) ∧
         progress_stores (events st') =
           progress_stores (events st)
           ++ (progress_of <$> sampled_keys (count st) recs) ++ [100].
Proof.
  revert st. induction recs as [|kc recs IH]; intros st H0 Hmax Hf Hq.
  - eexists. split; [reflexivity|]. simpl. split; [lia|]. split; [done|].
    by rewrite progress_stores_cons.
  - simpl in Hmax. rewrite fmap_cons. simpl.
    destruct (loop_body (entry_of kc) st) as [st1|b st1|st1] eqn:Hb.
    + apply loop_body_continue in Hb as (Hc & Hr & Hev & H8 & Hn8); [|lia].
      destruct (IH st1) as (st' & Hrun & Hc' & Hr' & Hev'); try lia.
      * destruct (decide (Z.rem (count st1) 8192 = 0)) as [E|E].
        -- by apply H8.
        -- rewrite Hn8; done.
      * intros c ? ?. apply Hq; [simpl; lia|done].
      * exists st'. split; [done|]. split; [simpl; lia|].
        split; [by rewrite Hr', Hr|].
        rewrite Hev', Hev, !progress_stores_app, progress_stores_checkpoint.
        rewrite progress_stores_progress by lia. rewrite Hc.
        rewrite fmap_app, app_nil_r, <- !app_assoc. done.
    + apply loop_body_return in Hb as (_ & Hc & H8 & _ & Hfa & _); [|lia].
      rewrite rem_8192_nonneg in H8 by lia.
      destruct (Hq (count st1)) as [_ Ha]; [simpl; lia|done|].
      rewrite Hf, Ha in Hfa. done.
    + apply loop_body_throw in Hb as (Hc & H8 & Hi & _); [|lia].
      rewrite rem_8192_nonneg in H8 by lia.
      destruct (Hq (count st1)) as [Hi' _]; [simpl; lia|done|].
      congruence.
Qed.

(** The matches of records with distinct keys: a pair is in the result
    exactly when it was there before, or its key was free and it is a
    record whose script is a needle. *)
Lemma matches_lookup recs m key coin :
  NoDup recs.*1 →
  matches needles recs m !! key = Some coin ↔
    m !! key = Some coin ∨
    (m !! key = None ∧ (key, coin) ∈ recs ∧ scriptPubKey (out coin) ∈ needles).
Proof.
  revert m. induction recs as [|[k c] recs IH]; intros m Hnd.
  - simpl. split; [by left|]. intros [?|(_ & Hin & _)]; [done|].
    by apply elem_of_nil in Hin.
  - rewrite fmap_cons in Hnd. apply NoDup_cons in Hnd as [Hk Hnd].
    simpl. rewrite IH by done. unfold add_match, emplace. simpl.
    assert (Hfresh : ∀ c', (k, c') ∉ recs).
    { intros c' Hin. apply Hk. apply list_elem_of_fmap. by exists (k, c'). }
    destruct (decide (scriptPubKey (out c) ∈ needles)) as [Hm|Hm].
    + destruct (m !! k) as [c0|] eqn:Hmk.
      * split.
        -- intros [?|(? & Hin & ?)]; [by left|].
           right. split; [done|]. split; [|done]. by apply list_elem_of_further.
        -- intros [?|(Hnone & Hin & ?)]; [by left|].
           apply elem_of_cons in Hin as [[= -> ->]|Hin]; [congruence|].
           right. done.
      * destruct (decide (key = k)) as [->|Hne].
        -- rewrite lookup_insert_eq. split.
           ++ intros [[= ->]|(? & _)]; [|done].
              right. split; [done|]. split; [|done]. apply list_elem_of_here.
           ++ intros [?|(_ & Hin & ?)]; [congruence|].
              apply elem_of_cons in Hin as [[= ->]|Hin]; [by left|].
              by apply Hfresh in Hin.
        -- rewrite lookup_insert_ne by done. split.
           ++ intros [?|(? & Hin & ?)]; [by left|].
              right. split; [done|]. split; [|done]. by apply list_elem_of_further.
           ++ intros [?|(? & Hin & ?)]; [by left|].
              apply elem_of_cons in Hin as [[= -> ->]|Hin]; [done|].
              right. done.
    + split.
      * intros [?|(? & Hin & ?)]; [by left|].
        right. split; [done|]. split; [|done]. by apply list_elem_of_further.
      * intros [?|(? & Hin & ?)]; [by left|].
        apply elem_of_cons in Hin as [[= -> ->]|Hin]; [done|].
        right. done.
Qed.

Lemma matches_no_needles recs m : matches ∅ recs m = m.
Proof.
  revert m. induction recs as [|kc recs IH]; intros m; [done|].
  simpl. rewrite IH. unfold add_match.
  destruct (decide (scriptPubKey (out kc.2) ∈ (∅ : gset CScript))) as [Hin|]; [|done].
  by apply not_elem_of_empty in Hin.
Qed.


Lemma loop_body_return_false e st b st1 :
  loop_body e st = Return b st1 → b = false.
Proof.
  unfold loop_body, Scan.loop_body, checkpoint, and_then.
  destruct (GetKey e); [|by intros [= <- _]].
  destruct (GetValue e); [|by intros [= <- _]].
  simpl. destruct (Z.rem _ 8192 =? 0); simpl; [|done].
  destruct (interruption_point _); [done|].
  destruct (g_should_abort_scan (shared st) || abort_request _); simpl; [|done].
  by intros [= <- _].
Qed.


Lemma StronglySorted_lookup_le (l : list Z) i j a b :
  StronglySorted Z.le l → (i ≤ j)%nat →
  l !! i = Some a → l !! j = Some b → a ≤ b.
Proof.
  intros Hs. revert i j. induction Hs as [|x l Hs IH Hall]; intros i j Hij Hi Hj.
  - done.
  - destruct i as [|i], j as [|j]; simpl in *.
    + simplify_eq. lia.
    + simplify_eq. rewrite Forall_forall in Hall. apply Hall.
      by eapply list_elem_of_lookup_2.
    + lia.
    + apply (IH i j); [lia|done|done].
Qed.

(** Every run over records that decode: [k] records were matched
    before the scan ended, by exhaustion or at the checkpoint of the
    record after them. *)
Lemma scan_loop_run recs st :
  0 ≤ count st → count st + Z.of_nat (length recs) ≤ INT64_MAX →
  let r := scan_loop (entry_of <$> recs) st in
  ∃ k : nat,
    (k ≤ length recs)%nat ∧
    out_results r.2 = matches needles (take k recs) (out_results st) ∧
    match r.1 with
    | Returned true => k = length recs ∧ count r.2 = count st + Z.of_nat k
    | Returned false =>
        (k < length recs)%nat ∧ count r.2 = count st + Z.of_nat k + 1 ∧
        count r.2 mod 8192 = 0 ∧ interruption_point (count r.2) = false ∧
        head (events r.2) = Some (EvLoadAbort (count r.2) true)
    | Interrupted =>
        (k < length recs)%nat ∧ count r.2 = count st + Z.of_nat k + 1 ∧
        count r.2 mod 8192 = 0 ∧ interruption_point (count r.2) = true
    end.
Proof.
  revert st. induction recs as [|kc recs IH]; intros st H0 Hmax.
  - exists 0%nat. simpl. repeat split; [lia|lia].
  - simpl in Hmax. rewrite fmap_cons. cbn [Scan.scan_loop].
    destruct (loop_body (entry_of kc) st) as [st1|b st1|st1] eqn:Hb.
    + apply loop_body_continue in Hb as (Hc & Hr & _); [|lia].
      destruct (IH st1) as (k & Hk & Hres & Hout); [lia|lia|].
      exists (S k). split; [simpl; lia|]. split.
      { rewrite Hres, Hr. done. }
      destruct (scan_loop (entry_of <$> recs) st1) as [[[]|] st2]; simpl in *;
        repeat split; try lia; try tauto.
    + apply loop_body_return in Hb as (-> & Hc & H8 & Hi & _ & Hr & Hev); [|lia].
      rewrite rem_8192_nonneg in H8 by lia.
      exists 0%nat. simpl. split; [lia|]. split; [done|].
      repeat split; try lia; try done. by rewrite Hev.
    + apply loop_body_throw in Hb as (Hc & H8 & Hi & Hr & _); [|lia].
      rewrite rem_8192_nonneg in H8 by lia.
      exists 0%nat. simpl. split; [lia|]. split; [done|].
      repeat split; try lia; done.
Qed.

(** Once a checkpoint [m] would find the flag set, the scan does not
    count past it. *)
Lemma scan_loop_stops_by cursor st m :
  0 ≤ count st < m → m mod 8192 = 0 →
  count st + Z.of_nat (length cursor) ≤ INT64_MAX →
  abort_request m = true →
  count (scan_loop cursor st).2 ≤ m.
Proof.
  revert st. induction cursor as [|e rest IH]; intros st Hc Hm Hmax Ha.
  - simpl. lia.
  - simpl in Hmax. cbn [Scan.scan_loop].
    destruct (decide (decodable e)) as [Hd|Hd].
    + apply decodable_entry_of in Hd as [kc ->].
      destruct (loop_body (entry_of kc) st) as [st1|b st1|st1] eqn:Hb.
      * apply loop_body_continue in Hb as (Hc1 & _ & _ & H8 & _); [|lia].
        apply IH; [|done|lia|done].
        split; [lia|]. destruct (decide (count st1 = m)) as [E|E]; [|lia].
        destruct H8 as (_ & _ & Ha' & _).
        { rewrite rem_8192_nonneg by lia. by rewrite E. }
        rewrite E in Ha'. congruence.
      * apply loop_body_return in Hb as (_ & Hc1 & _); [|lia]. simpl. lia.
      * apply loop_body_throw in Hb as (Hc1 & _); [|lia]. simpl. lia.
    + rewrite loop_body_corrupt by done. simpl. lia.
Qed.

Lemma step_events_interruption c1 key evs c :
  0 ≤ c1 →
  EvInterruption c ∈ progress_events c1 key ++ checkpoint_events c1 false ++ evs ↔
  EvInterruption c ∈ evs ∨ (c = c1 ∧ c mod 8192 = 0).
Proof.
  intros Hc1. unfold progress_events, checkpoint_events.
  rewrite (Z.rem_mod_nonneg c1 8192) by lia.
  rewrite !elem_of_app.
  destruct (Z.rem c1 256 =? 0); destruct (c1 mod 8192 =? 0) eqn:E8;
    [apply Z.eqb_eq in E8|apply Z.eqb_neq in E8
    |apply Z.eqb_eq in E8|apply Z.eqb_neq in E8];
    rewrite ?elem_of_cons, ?elem_of_nil; split.
  all: try (intros [?|[[?|[?|?]]|?]]; simplify_eq; auto; done).
  all: try (intros [[?|?]|[[?|[?|?]]|?]]; simplify_eq; auto; done).
  all: try (intros [[?|?]|[?|?]]; simplify_eq; auto; done).
  all: try (intros [?|[?|?]]; simplify_eq; auto; done).
  all: try (intros [?|[-> ?]]; auto 6; done).
Qed.

Lemma step_events_load c1 key evs c :
  0 ≤ c1 →
  (∃ b, EvLoadAbort c b ∈ progress_events c1 key ++ checkpoint_events c1 false ++ evs) ↔
  (∃ b, EvLoadAbort c b ∈ evs) ∨ (c = c1 ∧ c mod 8192 = 0).
Proof.
  intros Hc1. unfold progress_events, checkpoint_events.
  rewrite (Z.rem_mod_nonneg c1 8192) by lia.
  destruct (Z.rem c1 256 =? 0); destruct (c1 mod 8192 =? 0) eqn:E8;
    [apply Z.eqb_eq in E8|apply Z.eqb_neq in E8
    |apply Z.eqb_eq in E8|apply Z.eqb_neq in E8];
    simpl; split.
  all: try (intros [b Hb]; rewrite ?elem_of_cons in Hb; destruct_or?;
            simplify_eq; eauto; done).
  all: try (intros [[b Hb]|[-> ?]]; [exists b|exists false]; rewrite ?elem_of_cons;
            auto 6; done).
  all: try (intros [[b Hb]|[-> ?]]; [exists b; rewrite ?elem_of_cons; auto 6|done]; done).
Qed.

(** The callback is invoked at the counts that are multiples of 8192,
    and the flag is loaded there when the callback returns. *)
Lemma scan_loop_checks cursor st :
  0 ≤ count st → count st + Z.of_nat (length cursor) ≤ INT64_MAX →
  let r := scan_loop cursor st in
  count st ≤ count r.2 ∧
  (∀ c, EvInterruption c ∈ events r.2 ↔
        EvInterruption c ∈ events st ∨
        (count st < c ≤ count r.2 ∧ c mod 8192 = 0)) ∧
  (∀ c, (∃ b, EvLoadAbort c b ∈ events r.2) ↔
        (∃ b, EvLoadAbort c b ∈ events st) ∨
        (count st < c ≤ count r.2 ∧ c mod 8192 = 0 ∧ interruption_point c = false)).
Proof.
  revert st. induction cursor as [|e rest IH]; intros st H0 Hmax.
  - simpl. split; [lia|]. split.
    + intros c. rewrite elem_of_cons. split.
      * intros [?|?]; [done|by left].
      * intros [?|[? _]]; [by right|lia].
    + intros c. split.
      * intros [b Hb]. apply elem_of_cons in Hb as [?|?]; [done|]. left. by exists b.
      * intros [[b Hb]|[? _]]; [|lia]. exists b. by apply list_elem_of_further.
  - simpl in Hmax. cbn [Scan.scan_loop].
    destruct (decide (decodable e)) as [Hd|Hd].
    + apply decodable_entry_of in Hd as [kc ->].
      destruct (loop_body (entry_of kc) st) as [st1|b st1|st1] eqn:Hb.
      * apply loop_body_continue in Hb as (Hc1 & _ & Hev & H8 & _); [|lia].
        destruct (IH st1) as (Hle & Hint & Hload); [lia|lia|].
        split; [lia|].
        assert (Hin1 := λ c, step_events_interruption (count st1) kc.1 (events st) c
                                ltac:(lia)).
        assert (Hld1 := λ c, step_events_load (count st1) kc.1 (events st) c
                                ltac:(lia)).
        rewrite <- Hev in Hin1, Hld1.
        split.
        -- intros c. rewrite Hint, Hin1. split.
           ++ intros [[?|[-> ?]]|[? ?]]; [by left|right; split; [lia|done]|right; split; [lia|done]].
           ++ intros [?|[? ?]]; [by left; left|].
              destruct (decide (c = count st1)) as [->|]; [left; right; done|].
              right. split; [lia|done].
        -- intros c. rewrite Hload, Hld1. split.
           ++ intros [[?|(-> & Hm)]|(? & ? & ?)];
                [by left| |right; split; [lia|done]].
              right. split; [lia|]. split; [done|].
              apply H8. rewrite rem_8192_nonneg by lia. done.
           ++ intros [?|(? & ? & ?)]; [by left; left|].
              destruct (decide (c = count st1)) as [->|]; [left; right; done|].
              right. split; [lia|done].
      * apply loop_body_return in Hb as (_ & Hc1 & H8 & Hi & _ & _ & Hev); [|lia].
        rewrite rem_8192_nonneg in H8 by lia.
        simpl. split; [lia|]. rewrite Hev. split.
        -- intros c. rewrite !elem_of_cons. split.
           ++ intros [?|[[= ->]|?]]; [done|right; split; [lia|done]|by left].
           ++ intros [?|[? ?]]; [by right; right|].
              right; left. f_equal. lia.
        -- intros c. split.
           ++ intros [b0 Hb0]. rewrite !elem_of_cons in Hb0.
              destruct Hb0 as [[= -> ->]|[?|?]]; [right; split; [lia|done]|done|].
              left. by exists b0.
           ++ intros [[b0 Hb0]|(? & ? & ?)].
              ** exists b0. by do 2 apply list_elem_of_further.
              ** exists true. replace c with (count st1) by lia. apply list_elem_of_here.
      * apply loop_body_throw in Hb as (Hc1 & H8 & Hi & _ & Hev); [|lia].
        rewrite rem_8192_nonneg in H8 by lia.
        simpl. split; [lia|]. rewrite Hev. split.
        -- intros c. rewrite !elem_of_cons. split.
           ++ intros [[= ->]|?]; [right; split; [lia|done]|by left].
           ++ intros [?|[? ?]]; [by right|]. left. f_equal. lia.
        -- intros c. split.
           ++ intros [b0 Hb0]. rewrite !elem_of_cons in Hb0.
              destruct Hb0 as [?|?]; [done|]. left. by exists b0.
           ++ intros [[b0 Hb0]|(? & ? & Hi')].
              ** exists b0. by apply list_elem_of_further.
              ** replace c with (count st1) in Hi' by lia. congruence.
    + rewrite loop_body_corrupt by done. simpl. split; [lia|]. split.
      * intros c. split; [by left|]. intros [?|[? _]]; [done|lia].
      * intros c. split; [by left|]. intros [?|[? _]]; [done|lia].
Qed.

(** A cursor with a record that does not decode is never scanned to
    completion. *)
Lemma scan_loop_never_true cursor st :
  Exists (λ e, ¬ decodable e) cursor →
  (scan_loop cursor st).1 ≠ Returned true.
Proof.
  revert st. induction cursor as [|e rest IH]; intros st Hex.
  - by apply Exists_nil in Hex.
  - cbn [Scan.scan_loop].
    destruct (loop_body e st) as [st1|b st1|st1] eqn:Hb; simpl.
    + apply IH. apply Exists_cons in Hex as [Hd|Hex]; [|done].
      rewrite loop_body_corrupt in Hb by done. done.
    + apply loop_body_return_false in Hb as ->. done.
    + done.
Qed.

(** With no stop request at a checkpoint before it, the first record
    that does not decode ends the scan: it is not counted, and nothing
    after it is looked at. *)
Lemma scan_loop_corrupt recs e rest st :
  ¬ decodable e →
  0 ≤ count st → count st + Z.of_nat (length recs) ≤ INT64_MAX →
  flag st = false →
  (∀ c, count st < c ≤ count st + Z.of_nat (length recs) → c mod 8192 = 0 →
        interruption_point c = false ∧ abort_request c = false) →
  ∃ st', scan_loop ((entry_of <$> recs) ++ e :: rest) st = (Returned false, st') ∧
         count st' = count st + Z.of_nat (length recs) ∧
         out_results st' = matches needles recs (out_results st) ∧
         progress_stores (events st') =
           progress_stores (events st) ++ (progress_of <$> sampled_keys (count st) recs).
Proof.
  intros Hd. revert st. induction recs as [|kc recs IH]; intros st H0 Hmax Hf Hq.
  - simpl. rewrite loop_body_corrupt by done. eexists. split; [reflexivity|].
    simpl. split; [lia|]. split; [done|]. by rewrite app_nil_r.
  - simpl in Hmax. rewrite fmap_cons. simpl.
    destruct (loop_body (entry_of kc) st) as [st1|b st1|st1] eqn:Hb.
    + apply loop_body_continue in Hb as (Hc & Hr & Hev & H8 & Hn8); [|lia].
      destruct (IH st1) as (st' & Hrun & Hc' & Hr' & Hev'); try lia.
      * destruct (decide (Z.rem (count st1) 8192 = 0)) as [E|E].
        -- by apply H8.
        -- rewrite Hn8; done.
      * intros c ? ?. apply Hq; [simpl; lia|done].
      * exists st'. split; [done|]. split; [simpl; lia|].
        split; [by rewrite Hr', Hr|].
        rewrite Hev', Hev, !progress_stores_app, progress_stores_checkpoint.
        rewrite progress_stores_progress by lia. rewrite Hc.
        rewrite fmap_app, app_nil_r, <- !app_assoc. done.
    + apply loop_body_return in Hb as (_ & Hc & H8 & _ & Hfa & _); [|lia].
      rewrite rem_8192_nonneg in H8 by lia.
      destruct (Hq (count st1)) as [_ Ha]; [simpl; lia|done|].
      rewrite Hf, Ha in Hfa. done.
    + apply loop_body_throw in Hb as (Hc & H8 & Hi & _); [|lia].
      rewrite rem_8192_nonneg in H8 by lia.
      destruct (Hq (count st1)) as [Hi' _]; [simpl; lia|done|].
      congruence.
Qed.

(** The trace is a record of what happened: it has no influence on
    what happens. *)
Lemma loop_body_same_data e a b :
  same_data a b →
  match loop_body e a, loop_body e b with
  | Continue a1, Continue b1 => same_data a1 b1
  | Return x a1, Return y b1 => x = y ∧ same_data a1 b1
  | Throw a1, Throw b1 => same_data a1 b1
  | _, _ => False
  end.
Proof.
  destruct a as [ga ta ca ra], b as [gb tb cb rb].
  intros (Hg & Hc & Hr). simpl in Hg, Hc, Hr. subst gb cb rb.
  unfold loop_body, Scan.loop_body, checkpoint, and_then, update_progress,
    match_needle, same_data. simpl.
  destruct (GetKey e); [|done]. destruct (GetValue e); [|done]. simpl.
  destruct (Z.rem _ 8192 =? 0); simpl.
  - destruct (interruption_point _); [done|].
    destruct (g_should_abort_scan ga || abort_request _); simpl; [done|].
    destruct (Z.rem _ 256 =? 0); destruct (decide _); done.
  - destruct (Z.rem _ 256 =? 0); destruct (decide _); done.
Qed.

Lemma scan_loop_same_data cursor a b :
  same_data a b →
  (scan_loop cursor a).1 = (scan_loop cursor b).1 ∧
  same_data (scan_loop cursor a).2 (scan_loop cursor b).2.
Proof.
  revert a b. induction cursor as [|e rest IH]; intros a b Hab.
  - simpl. split; [done|]. destruct Hab as (Hg & Hc & Hr).
    unfold same_data. simpl. by rewrite Hg, Hc, Hr.
  - cbn [Scan.scan_loop]. pose proof (loop_body_same_data e a b Hab) as Hstep.
    destruct (loop_body e a), (loop_body e b); try done.
    + by apply IH.
    + destruct Hstep as [-> ?]. done.
Qed.

(** The scan leaves [g_scan_in_progress] alone. *)
Lemma loop_body_reservation e st :
  ∃ new, events (state_of (loop_body e st)) = new ++ events st ∧
         Forall (λ ev, reservation_event ev = false) new ∧
         g_scan_in_progress (shared (state_of (loop_body e st)))
           = g_scan_in_progress (shared st).
Proof.
  unfold loop_body, Scan.loop_body, checkpoint, and_then, update_progress, match_needle.
  destruct (GetKey e); [|by exists []]. destruct (GetValue e); [|by exists []]. simpl.
  destruct (Z.rem _ 8192 =? 0); simpl.
  - destruct (interruption_point _); simpl.
    { eexists [_]. repeat split. by repeat constructor. }
    destruct (g_should_abort_scan (shared st) || abort_request _); simpl.
    { eexists [_; _]. repeat split. by repeat constructor. }
    destruct (Z.rem _ 256 =? 0); destruct (decide _); simpl.
    all: first [ eexists [_; _; _]; repeat split; by repeat constructor
               | eexists [_; _]; repeat split; by repeat constructor ].
  - destruct (Z.rem _ 256 =? 0); destruct (decide _); simpl.
    all: first [ eexists [_]; repeat split; by repeat constructor
               | exists []; repeat split; by repeat constructor ].
Qed.

Lemma scan_loop_reservation cursor st :
  ∃ new, events (scan_loop cursor st).2 = new ++ events st ∧
         Forall (λ ev, reservation_event ev = false) new ∧
         g_scan_in_progress (shared (scan_loop cursor st).2)
           = g_scan_in_progress (shared st).
Proof.
  revert st. induction cursor as [|e rest IH]; intros st.
  - simpl. eexists [_]. repeat split. by repeat constructor.
  - cbn [Scan.scan_loop].
    destruct (loop_body_reservation e st) as (new1 & Hev1 & Hres1 & Hg1).
    destruct (loop_body e st) as [st1|b st1|st1]; simpl in *.
    + destruct (IH st1) as (new2 & Hev2 & Hres2 & Hg2).
      exists (new2 ++ new1). rewrite Hev2, Hev1, Hg2, Hg1.
      split; [by rewrite app_assoc|]. split; [|done]. by apply Forall_app.
    + by exists new1.
    + by exists new1.
Qed.
(** *** A scan under way *)


(** A scan that goes through its cursor is one that returns [true],
    short of the last store. *)
Lemma scan_loop_through cursor st st1 :
  scan_through cursor st = Some st1 →
  scan_loop cursor st = (Returned true, store_progress 100 st1).
Proof.
  revert st. induction cursor as [|e rest IH]; intros st; simpl.
  - by intros [= <-].
  - destruct (loop_body e st); [apply IH|done|done].
Qed.




(** Every run, whatever the records: [k] records were matched before
    the scan ended, by exhaustion, at the checkpoint of the record after
    them, or because the record after them does not decode. *)
Lemma scan_loop_run_any cursor st :
  0 ≤ count st → count st + Z.of_nat (length cursor) ≤ INT64_MAX →
  let r := scan_loop cursor st in
  ∃ (k : nat) recs,
    (k ≤ length cursor)%nat ∧
    take k cursor = entry_of <$> recs ∧
    out_results r.2 = matches needles recs (out_results st) ∧
    match r.1 with
    | Returned true => k = length cursor ∧ count r.2 = count st + Z.of_nat k
    | Returned false =>
        ∃ e, cursor !! k = Some e ∧
             ((decodable e ∧ count r.2 = count st + Z.of_nat k + 1 ∧
               count r.2 mod 8192 = 0 ∧ interruption_point (count r.2) = false ∧
               head (events r.2) = Some (EvLoadAbort (count r.2) true)) ∨
              (¬ decodable e ∧ count r.2 = count st + Z.of_nat k))
    | Interrupted =>
        ∃ e, cursor !! k = Some e ∧ decodable e ∧
             count r.2 = count st + Z.of_nat k + 1 ∧
             count r.2 mod 8192 = 0 ∧ interruption_point (count r.2) = true
    end.
Proof.
  revert st. induction cursor as [|e rest IH]; intros st H0 Hmax.
  - exists 0%nat, []. simpl. repeat split; [lia|lia].
  - simpl in Hmax. cbn [Scan.scan_loop].
    destruct (decide (decodable e)) as [Hd|Hd].
    + destruct (decodable_entry_of e Hd) as [kc Hkc]. subst e.
      destruct (loop_body (entry_of kc) st) as [st1|b st1|st1] eqn:Hb.
      * apply loop_body_continue in Hb as (Hc & Hr & _); [|lia].
        destruct (IH st1) as (k & recs & Hk & Htake & Hres & Hout); [lia|lia|].
        exists (S k), (kc :: recs). split; [simpl; lia|].
        split; [simpl; by rewrite Htake|]. split.
        { rewrite Hres, Hr. done. }
        destruct (scan_loop rest st1) as [[[]|] st2]; cbn [fst snd] in *.
        -- destruct Hout as [-> ->]. split; [done|lia].
        -- destruct Hout as (e & He & [(Hd' & ? & ? & ? & ?)|(Hd' & ?)]); exists e;
             (split; [exact He|]); [left|right]; (split; [exact Hd'|]);
             repeat split; try done; lia.
        -- destruct Hout as (e & He & Hd' & ? & ? & ?). exists e.
           split; [exact He|]. split; [exact Hd'|]. repeat split; try done; lia.
      * apply loop_body_return in Hb as (-> & Hc & H8 & Hi & _ & Hr & Hev); [|lia].
        rewrite rem_8192_nonneg in H8 by lia.
        exists 0%nat, []. cbn [fst snd]. split; [simpl; lia|]. split; [done|].
        split; [done|]. exists (entry_of kc). split; [done|]. left.
        split; [exact Hd|]. repeat split; try done; try lia. by rewrite Hev.
      * apply loop_body_throw in Hb as (Hc & H8 & Hi & Hr & _); [|lia].
        rewrite rem_8192_nonneg in H8 by lia.
        exists 0%nat, []. cbn [fst snd]. split; [simpl; lia|]. split; [done|].
        split; [done|]. exists (entry_of kc). split; [done|]. split; [exact Hd|].
        repeat split; try done; lia.
    + rewrite loop_body_corrupt by done.
      exists 0%nat, []. cbn [fst snd]. split; [simpl; lia|]. split; [done|].
      split; [done|]. exists e. split; [done|]. right. split; [done|lia].
Qed.
End steps.

(** What the first statement of [FindScriptPubKey] leaves. *)
Lemma FindScriptPubKey_unfold ip ar needles g tr cursor results :
  FindScriptPubKey ip ar needles g tr cursor results =
  scan_loop ip ar needles cursor
    {| shared := set_progress 0 g; events := EvStoreProgress 0 :: tr;
       count := 0; out_results := results |}.
Proof. reflexivity. Qed.

(** A scan of [recs] that meets no stop request at a checkpoint. *)
Lemma FindScriptPubKey_exhaust ip ar needles g tr recs :
  Z.of_nat (length recs) ≤ INT64_MAX →
  g_should_abort_scan g = false →
  (∀ c, 0 < c ≤ Z.of_nat (length recs) → c mod 8192 = 0 →
        ip c = false ∧ ar c = false) →
  ∃ st, FindScriptPubKey ip ar needles g tr (entry_of <$> recs) ∅ = (Returned true, st) ∧
        count st = Z.of_nat (length recs) ∧
        out_results st = matches needles recs ∅ ∧
        progress_stores (events st) =
          progress_stores tr ++ 0 :: (progress_of <$> sampled_keys 0 recs) ++ [100].
Proof.
  intros Hmax Hf Hq. rewrite FindScriptPubKey_unfold.
  set (st0 := {| shared := set_progress 0 g; events := EvStoreProgress 0 :: tr;
                 count := 0; out_results := ∅ |}).
  destruct (scan_loop_exhaust ip ar needles recs st0) as (st & Hrun & Hc & Hr & Hev).
  - simpl. lia.
  - simpl. lia.
  - done.
  - simpl. intros c Hc. apply Hq. lia.
  - exists st. split; [exact Hrun|]. split; [exact Hc|]. split; [exact Hr|].
    rewrite Hev. simpl. rewrite progress_stores_cons. simpl.
    by rewrite <- app_assoc.
Qed.

End ScanFacts.

(** ** The reserver, one handler at a time *)
Module ReserverFacts.
Import Reserver.

Lemma set_in_progress_same g : set_in_progress (g_scan_in_progress g) g = g.
Proof. by destruct g. Qed.

Lemma reserve_idle g tr :
  g_scan_in_progress g = false → g_scan_progress g = 0 →
  reserve fresh (g, tr) =
    (Ok (true, {| m_could_reserve := true |}),
     (set_in_progress true g, EvLoadProgress 0 :: EvExchangeInProgress false :: tr)).
Proof.
  intros Hi Hp. unfold reserve, bind, CHECK_NONFATAL, exchange_in_progress,
    load_progress, ret, fresh. simpl. rewrite Hi. simpl. rewrite Hp. reflexivity.
Qed.

Lemma reserve_busy g tr :
  g_scan_in_progress g = true →
  reserve fresh (g, tr) = (Ok (false, fresh), (g, EvExchangeInProgress true :: tr)).
Proof.
  intros Hi. unfold reserve, bind, CHECK_NONFATAL, exchange_in_progress, ret, fresh.
  simpl. rewrite Hi. simpl. rewrite <- Hi at 1. by rewrite set_in_progress_same.
Qed.

(** The block of a handler when the reservation is free, and when it is
    taken. *)
Lemma scoped_idle {A} (body : bool → M A) g tr :
  g_scan_in_progress g = false → g_scan_progress g = 0 →
  scoped body (g, tr) =
    let r := body true (set_in_progress true g,
                        EvLoadProgress 0 :: EvExchangeInProgress false :: tr) in
    (r.1, (set_progress 0 (set_in_progress false r.2.1),
           EvStoreProgress 0 :: EvStoreInProgress false :: r.2.2)).
Proof.
  intros Hi Hp. unfold scoped. rewrite reserve_idle by done.
  simpl. by destruct (body true _) as [res [g2 tr2]].
Qed.

Lemma scoped_busy {A} (body : bool → M A) g tr :
  g_scan_in_progress g = true →
  scoped body (g, tr) = body false (g, EvExchangeInProgress true :: tr).
Proof.
  intros Hi. unfold scoped. rewrite reserve_busy by done.
  simpl. by destruct (body false _) as [res [g2 tr2]].
Qed.

End ReserverFacts.

(** ** The start action *)
Module StartFacts.
Import Scan ScanTxOutSet ScanFacts ReserverFacts.

Lemma in_key_order_empty : in_key_order ∅ = [].
Proof. unfold in_key_order. by rewrite map_to_list_empty. Qed.

Section start.
Variable scanobject : Type.
Variable EvalDescriptorStringOrObject : scanobject → result (list CScript).
Variable InferDescriptor : scanobject → CScript → string.

Local Abbreviation scantxoutset :=
  (scantxoutset scanobject EvalDescriptorStringOrObject InferDescriptor).
Local Abbreviation expand_scanobjects :=
  (expand_scanobjects scanobject EvalDescriptorStringOrObject InferDescriptor).

(** A start that reserves and expands its descriptors reports what the
    scan returns; the reservation is released afterwards. *)
Lemma start_scan_result objs nd env g tr cursor t res st :
  g_scan_in_progress g = false → g_scan_progress g = 0 →
  expand_scanobjects objs (∅, ∅) = Ok nd →
  pcursor env = Some cursor → tip env = Some t →
  FindScriptPubKey (rpc_interruption_point env) (abort_request env) nd.1
    (set_should_abort false (set_in_progress true g))
    (EvStoreAbort false :: EvLoadProgress 0 :: EvExchangeInProgress false :: tr)
    cursor ∅ = (Returned res, st) →
  scantxoutset "start" (Some objs) env (g, tr) =
    (Ok (VScan {| success := res;
                  txouts := count st;
                  height := BlockIndex.nHeight t;
                  bestblock := BlockIndex.GetBlockHash t;
                  unspents := make_unspent nd.2 <$> in_key_order (out_results st);
                  total_amount := sum_values (in_key_order (out_results st)) |}),
     (set_progress 0 (set_in_progress false (shared st)),
      EvStoreProgress 0 :: EvStoreInProgress false :: events st)).
Proof.
  intros Hi Hp Hnd Hcur Htip Hrun.
  unfold scantxoutset, ScanTxOutSet.scantxoutset. simpl.
  rewrite scoped_idle by done. simpl.
  unfold start_body, bind, lift. rewrite Hnd, Hcur, Htip. simpl.
  unfold run_scan. simpl. rewrite Hrun. reflexivity.
Qed.

(** A start that reserves, expands its descriptors and scans the whole
    store. *)
Lemma start_exhaustive objs nd env g tr recs t :
  g_scan_in_progress g = false → g_scan_progress g = 0 →
  expand_scanobjects objs (∅, ∅) = Ok nd →
  pcursor env = Some (entry_of <$> recs) → tip env = Some t →
  Z.of_nat (length recs) ≤ INT64_MAX →
  (∀ c, 0 < c ≤ Z.of_nat (length recs) → c mod 8192 = 0 →
        rpc_interruption_point env c = false ∧ abort_request env c = false) →
  (scantxoutset "start" (Some objs) env (g, tr)).1 =
    Ok (VScan {| success := true;
                 txouts := Z.of_nat (length recs);
                 height := BlockIndex.nHeight t;
                 bestblock := BlockIndex.GetBlockHash t;
                 unspents := make_unspent nd.2 <$> in_key_order (matches nd.1 recs ∅);
                 total_amount := sum_values (in_key_order (matches nd.1 recs ∅)) |}).
Proof.
  intros Hi Hp Hnd Hcur Htip Hmax Hq.
  destruct (FindScriptPubKey_exhaust (rpc_interruption_point env) (abort_request env)
              nd.1 (set_should_abort false (set_in_progress true g))
              (EvStoreAbort false :: EvLoadProgress 0 :: EvExchangeInProgress false :: tr)
              recs Hmax eq_refl Hq) as (st & Hrun & Hc & Hr & _).
  rewrite (start_scan_result objs nd env g tr _ t true st) by done.
  simpl. by rewrite Hc, Hr.
Qed.

(** A start whose scan meets, before any stop request, a record that
    does not decode. *)
Lemma start_corrupt objs nd env g tr recs e rest t :
  g_scan_in_progress g = false → g_scan_progress g = 0 →
  expand_scanobjects objs (∅, ∅) = Ok nd →
  pcursor env = Some ((entry_of <$> recs) ++ e :: rest) → tip env = Some t →
  ¬ decodable e →
  Z.of_nat (length recs) ≤ INT64_MAX →
  (∀ c, 0 < c ≤ Z.of_nat (length recs) → c mod 8192 = 0 →
        rpc_interruption_point env c = false ∧ abort_request env c = false) →
  (scantxoutset "start" (Some objs) env (g, tr)).1 =
    Ok (VScan {| success := false;
                 txouts := Z.of_nat (length recs);
                 height := BlockIndex.nHeight t;
                 bestblock := BlockIndex.GetBlockHash t;
                 unspents := make_unspent nd.2 <$> in_key_order (matches nd.1 recs ∅);
                 total_amount := sum_values (in_key_order (matches nd.1 recs ∅)) |}).
Proof.
  intros Hi Hp Hnd Hcur Htip Hd Hmax Hq.
  set (g1 := set_should_abort false (set_in_progress true g)).
  set (tr1 := EvStoreAbort false :: EvLoadProgress 0 :: EvExchangeInProgress false :: tr).
  destruct (scan_loop_corrupt (rpc_interruption_point env) (abort_request env) nd.1
              recs e rest
              {| shared := set_progress 0 g1; events := EvStoreProgress 0 :: tr1;
                 count := 0; out_results := ∅ |} Hd)
    as (st & Hrun & Hc & Hr & _); [simpl; lia|simpl; lia|done| |].
  { simpl. intros c Hc. apply Hq. lia. }
  rewrite (start_scan_result objs nd env g tr _ t false st) by done.
  simpl in Hc, Hr. simpl. by rewrite Hc, Hr.
Qed.
End start.

End StartFacts.

(** ** The scan: matches, count and completion *)
Module ScanClaims.
Import Scan ScanTxOutSet ScanFacts ReserverFacts StartFacts.

(** C1.  A scan of a store of decodable records with distinct keys that
    meets no stop request at a checkpoint (it runs to natural exhaustion)
    returns [true], counts every record, and its result holds exactly the
    pairs of the store whose script is a needle.  In particular a [start]
    with no scan object on a store of N records, from the idle state,
    returns success = true, txouts = N, no unspent and a total amount
    of 0. *)
Theorem scan_exhaustion_complete (ip ar : Z → bool) (needles : gset CScript)
    (recs : list (COutPoint * Coin)) :
  NoDup recs.*1 →
  Z.of_nat (length recs) ≤ INT64_MAX →
  (∀ c, 0 < c ≤ Z.of_nat (length recs) → c mod 8192 = 0 →
        ip c = false ∧ ar c = false) →
  (∀ g tr, g_should_abort_scan g = false →
     ∃ st, FindScriptPubKey ip ar needles g tr (entry_of <$> recs) ∅
             = (Returned true, st) ∧
           count st = Z.of_nat (length recs) ∧
           ∀ key coin, out_results st !! key = Some coin ↔
                       (key, coin) ∈ recs ∧ scriptPubKey (out coin) ∈ needles) ∧
  (∀ (scanobject : Type) (eval : scanobject → result (list CScript))
     (infer : scanobject → CScript → string) env g tr t,
     g_scan_in_progress g = false → g_scan_progress g = 0 →
     pcursor env = Some (entry_of <$> recs) → tip env = Some t →
     rpc_interruption_point env = ip → abort_request env = ar →
     (scantxoutset scanobject eval infer "start" (Some []) env (g, tr)).1 =
       Ok (VScan {| success := true;
                    txouts := Z.of_nat (length recs);
                    height := BlockIndex.nHeight t;
                    bestblock := BlockIndex.GetBlockHash t;
                    unspents := [];
                    total_amount := 0 |})).
Proof.
  intros Hnd Hmax Hq. split.
  - intros g tr Hf.
    destruct (FindScriptPubKey_exhaust ip ar needles g tr recs Hmax Hf Hq)
      as (st & Hrun & Hc & Hr & _).
    exists st. split; [done|]. split; [done|].
    intros key coin. rewrite Hr, matches_lookup by done.
    rewrite lookup_empty. split.
    + intros [?|(_ & ? & ?)]; done.
    + intros [? ?]. by right.
  - intros scanobject eval infer env g tr t Hi Hp Hcur Htip <- <-.
    rewrite (start_exhaustive scanobject eval infer [] (∅, ∅) env g tr recs t)
      by done.
    simpl. by rewrite matches_no_needles, in_key_order_empty.
Qed.

Lemma scan_exhaustion_complete_witness :
  NoDup Examples.store600.*1 ∧
  Z.of_nat (length Examples.store600) ≤ INT64_MAX ∧
  ∃ st, FindScriptPubKey Examples.never Examples.never {[ Examples.script_b ]}
          Examples.idle [] (entry_of <$> Examples.store600) ∅ = (Returned true, st) ∧
        count st = 600 ∧
        ∀ key coin, out_results st !! key = Some coin ↔
          (key, coin) ∈ Examples.store600 ∧
          scriptPubKey (out coin) ∈ ({[ Examples.script_b ]} : gset CScript).
Proof.
  assert (Hnd : NoDup Examples.store600.*1).
  { apply (bool_decide_unpack _). vm_compute. exact I. }
  assert (Hmax : Z.of_nat (length Examples.store600) ≤ INT64_MAX).
  { vm_compute. discriminate. }
  split; [exact Hnd|]. split; [exact Hmax|].
  apply (proj1 (scan_exhaustion_complete Examples.never Examples.never
                  {[ Examples.script_b ]} Examples.store600 Hnd Hmax
                  (λ c _ _, conj eq_refl eq_refl)) Examples.idle [] eq_refl).
Defined.



(** The stores of the scan of the 600-record store: the estimates of the
    256th and of the 512th key between 0 and 100. *)
Example progress_stores_store600 :
  progress_stores
    (events (FindScriptPubKey Examples.never Examples.never ∅ Examples.idle []
               (entry_of <$> Examples.store600) ∅).2)
  = [0; 39; 78; 100].
Proof. vm_compute. reflexivity. Qed.


(** What successive [status] calls report during the scan of the
    600-record store when nothing else stores: 0 at its start, 39 after
    300 records, 78 after 520, and 100 once it has returned. *)
Example status_reads_store600 :
  let g := set_in_progress true Examples.idle in
  let cursor : CCoinsViewCursor := entry_of <$> Examples.store600 in
  let st0 := {| shared := set_progress 0 g; events := [EvStoreProgress 0];
                count := 0; out_results := ∅ |} in
  let status st :=
    (scantxoutset CScript Examples.eval_raw Examples.infer_raw "status" None
       (Examples.quiet_env cursor) (shared st, events st)).1 in
  let after (i : nat) :=
    status <$> scan_through Examples.never Examples.never ∅ (take i cursor) st0 in
  after 0%nat = Some (Ok (VProgress 0)) ∧
  after 300%nat = Some (Ok (VProgress 39)) ∧
  after 520%nat = Some (Ok (VProgress 78)) ∧
  status (FindScriptPubKey Examples.never Examples.never ∅ g [] cursor ∅).2
    = Ok (VProgress 100).
Proof. vm_compute. repeat split. Qed.

(** C6, as the code has it.  The callback is invoked, and the flag is
    loaded when the callback returns, exactly at the counts that are
    multiples of 8192.  Once an abort request is in place while the scan
    runs, after [c0] counted records (every load of the flag from then on
    finds it set), the scan counts at most 8192 further records.  It ends
    in one of these ways, [k] records having been matched: at a
    checkpoint, reached by the record after them, with [false]; at that
    checkpoint by the exception of the callback; at the record after
    them, which does not decode and is not counted, with [false] and at
    no checkpoint; or, when the cursor is exhausted before the next
    checkpoint, with [true] and every match. *)
Theorem abort_latency (ip ar : Z → bool) (needles : gset CScript) (g : ScanGlobals)
    (cursor : CCoinsViewCursor) (results : gmap COutPoint Coin) (c0 : Z) :
  Z.of_nat (length cursor) ≤ INT64_MAX →
  0 ≤ c0 →
  (∀ c, c0 < c → ar c = true) →
  let r := FindScriptPubKey ip ar needles g [] cursor results in
  (∀ c, EvInterruption c ∈ events r.2 ↔ 0 < c ≤ count r.2 ∧ c mod 8192 = 0) ∧
  (∀ c, (∃ b, EvLoadAbort c b ∈ events r.2) ↔
        0 < c ≤ count r.2 ∧ c mod 8192 = 0 ∧ ip c = false) ∧
  count r.2 ≤ c0 + 8192 ∧
  ∃ (k : nat) recs,
    (k ≤ length cursor)%nat ∧
    take k cursor = entry_of <$> recs ∧
    out_results r.2 = matches needles recs results ∧
    match r.1 with
    | Returned true => k = length cursor ∧ count r.2 = Z.of_nat (length cursor)
    | Returned false =>
        ∃ e, cursor !! k = Some e ∧
             ((decodable e ∧ count r.2 = Z.of_nat k + 1 ∧
               count r.2 mod 8192 = 0 ∧
               head (events r.2) = Some (EvLoadAbort (count r.2) true)) ∨
              (¬ decodable e ∧ count r.2 = Z.of_nat k))
    | Interrupted =>
        ∃ e, cursor !! k = Some e ∧ decodable e ∧
             count r.2 = Z.of_nat k + 1 ∧
             count r.2 mod 8192 = 0 ∧ ip (count r.2) = true
    end.
Proof.
  intros Hmax Hc0 Hab r. subst r. rewrite FindScriptPubKey_unfold.
  set (st0 := {| shared := set_progress 0 g; events := [EvStoreProgress 0];
                 count := 0; out_results := results |}).
  destruct (scan_loop_checks ip ar needles cursor st0) as (Hle & Hint & Hload);
    [simpl; lia|simpl; lia|].
  simpl in Hle, Hint, Hload.
  split; [|split; [|split]].
  - intros c. rewrite Hint. split.
    + intros [Hin|?]; [|done].
      apply list_elem_of_singleton in Hin. done.
    + intros ?. by right.
  - intros c. rewrite Hload. split.
    + intros [[b Hin]|?]; [|done].
      apply list_elem_of_singleton in Hin. done.
    + intros ?. by right.
  - set (m := 8192 * (c0 / 8192 + 1)).
    assert (Hm : c0 < m ≤ c0 + 8192).
    { subst m. pose proof (Z.mod_pos_bound c0 8192 ltac:(lia)).
      pose proof (Z.div_mod c0 8192 ltac:(lia)). lia. }
    assert (Hmm : m mod 8192 = 0).
    { subst m. rewrite Z.mul_comm. apply Z.mod_mul. lia. }
    pose proof (scan_loop_stops_by ip ar needles cursor st0 m) as Hstop.
    simpl in Hstop. specialize (Hstop ltac:(lia) Hmm ltac:(lia) (Hab m ltac:(lia))).
    lia.
  - destruct (scan_loop_run_any ip ar needles cursor st0)
      as (k & recs & Hk & Htake & Hres & Hout); [simpl; lia|simpl; lia|].
    exists k, recs. split; [exact Hk|]. split; [exact Htake|]. split; [exact Hres|].
    clear Hle Hint Hload.
    destruct (scan_loop ip ar needles cursor st0) as [[[]|] st1];
      cbn [fst snd] in *; change (count st0) with 0 in Hout.
    + destruct Hout as (-> & ->). split; [done|lia].
    + destruct Hout as (e & He & [(Hd & ? & ? & _ & ?)|(Hd & ?)]); exists e;
        (split; [exact He|]); [left|right]; (split; [exact Hd|]);
        repeat split; try done; lia.
    + destruct Hout as (e & He & Hd & ? & ? & ?). exists e.
      split; [exact He|]. split; [exact Hd|]. repeat split; try done; lia.
Qed.

Lemma abort_latency_witness :
  let ar := λ c, 5 <? c in
  let cursor := entry_of <$> Examples.store_of (Z.to_nat 8200) in
  Z.of_nat (length cursor) ≤ INT64_MAX ∧ 0 ≤ 5 ∧ (∀ c, 5 < c → ar c = true) ∧
  count (FindScriptPubKey Examples.never ar ∅ Examples.idle [] cursor ∅).2 ≤ 5 + 8192.
Proof.
  intros ar cursor.
  assert (Hmax : Z.of_nat (length cursor) ≤ INT64_MAX) by (vm_compute; discriminate).
  assert (Hab : ∀ c, 5 < c → ar c = true) by (intros c Hc; apply Z.ltb_lt; exact Hc).
  split; [exact Hmax|]. split; [lia|]. split; [exact Hab|].
  exact (proj1 (proj2 (proj2
           (abort_latency Examples.never ar ∅ Examples.idle cursor ∅ 5
              Hmax ltac:(lia) Hab)))).
Defined.

(** C6 as the specification states it fails: with the abort flag set
    before the scan begins and an abort request in place at every load, a
    scan of three records reaches no checkpoint and returns [true]. *)
Lemma abort_set_scan_completes :
  let r := FindScriptPubKey Examples.never Examples.always ∅
             (set_should_abort true Examples.idle) []
             (entry_of <$> Examples.store3) ∅ in
  g_should_abort_scan (set_should_abort true Examples.idle) = true ∧
  r.1 = Returned true ∧ count r.2 = 3 ∧ g_scan_progress (shared r.2) = 100.
Proof. vm_compute. repeat split. Qed.

(** A store that reaches the first checkpoint: the abort requested after
    five records ends the scan at record 8192, whose match is not
    collected. *)
Example abort_stops_at_first_checkpoint :
  let r := FindScriptPubKey Examples.never (λ c, 5 <? c) {[ Examples.script_b ]}
             Examples.idle [] (entry_of <$> Examples.store_of (Z.to_nat 8200)) ∅ in
  r.1 = Returned false ∧ count r.2 = 8192 ∧
  Z.of_nat (size (out_results r.2)) = 4095 ∧
  head (events r.2) = Some (EvLoadAbort 8192 true).
Proof. vm_compute. repeat split. Qed.

(** A record that does not decode ends the scan before the checkpoint:
    with the abort requested from the start, the scan of the cursor whose
    second record is corrupt ends there with [false], one record
    counted. *)
Example abort_then_corrupt_record :
  let r := FindScriptPubKey Examples.never Examples.always {[ Examples.script_a ]}
             Examples.idle [] Examples.corrupt_cursor ∅ in
  r.1 = Returned false ∧ count r.2 = 1 ∧ size (out_results r.2) = 1%nat ∧
  head (events r.2) = Some (EvStoreProgress 0).
Proof. vm_compute. repeat split. Qed.

(** C7, as the code has it.  When the first record that does not decode
    comes before any stop request at a checkpoint, the scan ends at that
    record with [false]: the records before it are counted and matched,
    the record itself and the records after it are not.  [start] reports
    this as an ordinary result with success = false and raises no error.
    Whatever the environment does, a scan of a cursor that holds such a
    record never returns [true]. *)
Theorem corrupt_record_ends_scan (ip ar : Z → bool) (needles : gset CScript)
    (recs : list (COutPoint * Coin)) (e : CursorEntry) (rest : CCoinsViewCursor) :
  ¬ decodable e →
  Z.of_nat (length recs) ≤ INT64_MAX →
  (∀ c, 0 < c ≤ Z.of_nat (length recs) → c mod 8192 = 0 →
        ip c = false ∧ ar c = false) →
  (∀ g tr, g_should_abort_scan g = false →
     ∃ st, FindScriptPubKey ip ar needles g tr ((entry_of <$> recs) ++ e :: rest) ∅
             = (Returned false, st) ∧
           count st = Z.of_nat (length recs) ∧
           out_results st = matches needles recs ∅) ∧
  (∀ (scanobject : Type) (eval : scanobject → result (list CScript))
     (infer : scanobject → CScript → string) objs nd env g tr t,
     g_scan_in_progress g = false → g_scan_progress g = 0 →
     expand_scanobjects scanobject eval infer objs (∅, ∅) = Ok nd → nd.1 = needles →
     pcursor env = Some ((entry_of <$> recs) ++ e :: rest) → tip env = Some t →
     rpc_interruption_point env = ip → abort_request env = ar →
     (scantxoutset scanobject eval infer "start" (Some objs) env (g, tr)).1 =
       Ok (VScan {| success := false;
                    txouts := Z.of_nat (length recs);
                    height := BlockIndex.nHeight t;
                    bestblock := BlockIndex.GetBlockHash t;
                    unspents := make_unspent nd.2 <$> in_key_order (matches needles recs ∅);
                    total_amount := sum_values (in_key_order (matches needles recs ∅)) |})) ∧
  (∀ ip1 ar1 g tr results,
     (FindScriptPubKey ip1 ar1 needles g tr ((entry_of <$> recs) ++ e :: rest) results).1
       ≠ Returned true).
Proof.
  intros Hd Hmax Hq. split; [|split].
  - intros g tr Hf. rewrite FindScriptPubKey_unfold.
    destruct (scan_loop_corrupt ip ar needles recs e rest
                {| shared := set_progress 0 g; events := EvStoreProgress 0 :: tr;
                   count := 0; out_results := ∅ |} Hd)
      as (st & Hrun & Hc & Hr & _); [simpl; lia|simpl; lia|done| |].
    { simpl. intros c Hc. apply Hq. lia. }
    exists st. split; [done|]. split; [exact Hc|exact Hr].
  - intros scanobject eval infer objs nd env g tr t Hi Hp Hnd <- Hcur Htip <- <-.
    by apply (start_corrupt scanobject eval infer objs nd env g tr recs e rest t).
  - intros ip1 ar1 g tr results. rewrite FindScriptPubKey_unfold.
    apply scan_loop_never_true. apply Exists_app. right. by apply Exists_cons_hd.
Qed.

Lemma corrupt_record_ends_scan_witness :
  ¬ decodable Examples.corrupt_entry ∧
  ∃ st, FindScriptPubKey Examples.never Examples.never {[ Examples.script_a ]}
          Examples.idle [] Examples.corrupt_cursor ∅ = (Returned false, st) ∧
        count st = 1 ∧
        out_results st = matches {[ Examples.script_a ]} (take 1 Examples.store3) ∅.
Proof.
  assert (Hd : ¬ decodable Examples.corrupt_entry).
  { intros [_ [coin Hcoin]]. discriminate Hcoin. }
  split; [exact Hd|].
  exact (proj1 (corrupt_record_ends_scan Examples.never Examples.never
                  {[ Examples.script_a ]} (take 1 Examples.store3)
                  Examples.corrupt_entry (entry_of <$> drop 2 Examples.store3)
                  Hd ltac:(vm_compute; discriminate)
                  (λ c _ _, conj eq_refl eq_refl))
               Examples.idle [] eq_refl).
Defined.

(** C7 as the specification states it fails: a [start] over a cursor
    whose second record does not decode raises no error.  It returns an
    ordinary result with success = false, one record counted and the one
    match found before the corrupt record. *)
Lemma corrupt_record_raises_no_error :
  (scantxoutset CScript Examples.eval_raw Examples.infer_raw "start"
     (Some [Examples.script_a]) (Examples.quiet_env Examples.corrupt_cursor)
     (Examples.idle, [])).1 =
  Ok (VScan {| success := false;
               txouts := 1;
               height := 100;
               bestblock := BlockIndex.GetBlockHash Examples.tip0;
               unspents := [ {| u_txid := hash (Examples.outpoint_at 256 0);
                                u_vout := 0;
                                u_scriptPubKey := Examples.script_a;
                                u_desc := "raw";
                                u_amount := 10;
                                u_height := 5 |} ];
               total_amount := 10 |}).
Proof. vm_compute. reflexivity. Qed.

(** The scenario of the specification: three coins, one needle. *)
Example start_three_coins_one_match :
  (scantxoutset CScript Examples.eval_raw Examples.infer_raw "start"
     (Some [Examples.script_b]) (Examples.quiet_env (entry_of <$> Examples.store3))
     (Examples.idle, [])).1 =
  Ok (VScan {| success := true;
               txouts := 3;
               height := 100;
               bestblock := BlockIndex.GetBlockHash Examples.tip0;
               unspents := [ {| u_txid := hash (Examples.outpoint_at 32768 1);
                                u_vout := 1;
                                u_scriptPubKey := Examples.script_b;
                                u_desc := "raw";
                                u_amount := 20;
                                u_height := 6 |} ];
               total_amount := 20 |}).
Proof. vm_compute. reflexivity. Qed.

End ScanClaims.

(** ** The handlers and the reservation *)
Module HandlerFacts.
Import Scan ScanTxOutSet ScanFacts ReserverFacts Reserver.

Lemma FindScriptPubKey_reservation ip ar needles g tr cursor results :
  let r := FindScriptPubKey ip ar needles g tr cursor results in
  ∃ new, events r.2 = new ++ tr ∧
         Forall (λ ev, reservation_event ev = false) new ∧
         g_scan_in_progress (shared r.2) = g_scan_in_progress g.
Proof.
  intros r. subst r. rewrite FindScriptPubKey_unfold.
  destruct (scan_loop_reservation ip ar needles cursor
              {| shared := set_progress 0 g; events := EvStoreProgress 0 :: tr;
                 count := 0; out_results := results |}) as (new & Hev & Hres & Hg).
  exists (new ++ [EvStoreProgress 0]). rewrite Hev, Hg. simpl.
  split; [by rewrite <- app_assoc|]. split; [|done].
  apply Forall_app. split; [done|]. by repeat constructor.
Qed.

Lemma FindScriptPubKey_same_data ip ar needles g tr1 tr2 cursor results :
  let r1 := FindScriptPubKey ip ar needles g tr1 cursor results in
  let r2 := FindScriptPubKey ip ar needles g tr2 cursor results in
  r1.1 = r2.1 ∧ same_data r1.2 r2.2.
Proof.
  intros r1 r2. subst r1 r2. rewrite !FindScriptPubKey_unfold.
  by apply scan_loop_same_data.
Qed.

Section handlers.
Variable scanobject : Type.
Variable EvalDescriptorStringOrObject : scanobject → result (list CScript).
Variable InferDescriptor : scanobject → CScript → string.

Local Abbreviation scantxoutset :=
  (scantxoutset scanobject EvalDescriptorStringOrObject InferDescriptor).
Local Abbreviation start_body :=
  (start_body scanobject EvalDescriptorStringOrObject InferDescriptor).

(** What the body of a start adds to the trace has no event of the
    reservation protocol, and it leaves [g_scan_in_progress] alone. *)
Lemma start_body_reservation objs env g tr :
  let r := start_body objs env (g, tr) in
  ∃ mid, r.2.2 = mid ++ tr ∧
         Forall (λ ev, reservation_event ev = false) mid ∧
         g_scan_in_progress r.2.1 = g_scan_in_progress g.
Proof.
  intros r. subst r. unfold start_body, ScanTxOutSet.start_body.
  destruct objs as [objs|]; [|by exists []].
  unfold bind, lift. simpl.
  destruct (expand_scanobjects _ _ _ objs (∅, ∅)) as [nd|err]; [|by exists []].
  simpl.
  destruct (pcursor env) as [cursor|]; simpl;
    [|eexists [_]; repeat split; by repeat constructor].
  destruct (tip env) as [t|]; simpl;
    [|eexists [_]; repeat split; by repeat constructor].
  unfold run_scan. simpl.
  destruct (FindScriptPubKey_reservation (rpc_interruption_point env) (abort_request env)
              nd.1 (set_should_abort false g) (EvStoreAbort false :: tr) cursor ∅)
    as (new & Hev & Hres & Hg).
  destruct (FindScriptPubKey _ _ _ _ _ _ _) as [[res|] st]; simpl in *.
  - exists (new ++ [EvStoreAbort false]). rewrite Hev, Hg.
    split; [by rewrite <- app_assoc|]. split; [|done].
    apply Forall_app. split; [done|]. by repeat constructor.
  - exists (new ++ [EvStoreAbort false]). rewrite Hev, Hg.
    split; [by rewrite <- app_assoc|]. split; [|done].
    apply Forall_app. split; [done|]. by repeat constructor.
Qed.

Lemma start_body_same_data objs env g tr1 tr2 :
  (start_body objs env (g, tr1)).1 = (start_body objs env (g, tr2)).1 ∧
  (start_body objs env (g, tr1)).2.1 = (start_body objs env (g, tr2)).2.1.
Proof.
  unfold start_body, ScanTxOutSet.start_body.
  destruct objs as [objs|]; [|done].
  unfold bind, lift. simpl.
  destruct (expand_scanobjects _ _ _ objs (∅, ∅)) as [nd|err]; [|done].
  simpl.
  destruct (pcursor env) as [cursor|]; simpl; [|done].
  destruct (tip env) as [t|]; simpl; [|done].
  unfold run_scan. simpl.
  destruct (FindScriptPubKey_same_data (rpc_interruption_point env) (abort_request env)
              nd.1 (set_should_abort false g)
              (EvStoreAbort false :: tr1) (EvStoreAbort false :: tr2) cursor ∅)
    as (Ho & Hg & Hc & Hr).
  destruct (FindScriptPubKey _ _ _ _ (EvStoreAbort false :: tr1) _ _) as [o1 st1],
           (FindScriptPubKey _ _ _ _ (EvStoreAbort false :: tr2) _ _) as [o2 st2].
  simpl in *. subst o2. destruct o1 as [res|]; simpl; [|done].
  by rewrite Hg, Hc, Hr.
Qed.

Lemma idle_released g :
  g_scan_in_progress g = false → g_scan_progress g = 0 →
  set_progress 0 (set_in_progress false (set_in_progress true g)) = g.
Proof. destruct g. simpl. by intros -> ->. Qed.

(** An abort when nothing runs. *)
Lemma abort_idle objs env g tr :
  g_scan_in_progress g = false → g_scan_progress g = 0 →
  scantxoutset "abort" objs env (g, tr) =
    (Ok (VBool false),
     (g, EvStoreProgress 0 :: EvStoreInProgress false
         :: EvLoadProgress 0 :: EvExchangeInProgress false :: tr)).
Proof.
  intros Hi Hp. unfold scantxoutset, ScanTxOutSet.scantxoutset. simpl.
  rewrite scoped_idle by done. simpl. by rewrite idle_released.
Qed.

(** A start when a scan runs. *)
Lemma start_busy objs env g tr :
  g_scan_in_progress g = true →
  scantxoutset "start" objs env (g, tr) =
    (Raise (JSONRPCError RPC_INVALID_PARAMETER
              "Scan already in progress, use action 'abort' or 'status'"),
     (g, EvExchangeInProgress true :: tr)).
Proof.
  intros Hi. unfold scantxoutset, ScanTxOutSet.scantxoutset. simpl.
  by rewrite scoped_busy.
Qed.

(** From the idle state every action that takes the reservation gives
    it back once, as the last thing it does. *)
Lemma handler_releases action objs env g tr :
  action = "status" ∨ action = "abort" ∨ action = "start" →
  g_scan_in_progress g = false → g_scan_progress g = 0 →
  let r := scantxoutset action objs env (g, tr) in
  g_scan_in_progress r.2.1 = false ∧ g_scan_progress r.2.1 = 0 ∧
  ∃ mid, r.2.2 = EvStoreProgress 0 :: EvStoreInProgress false
                 :: mid ++ EvLoadProgress 0 :: EvExchangeInProgress false :: tr ∧
         Forall (λ ev, reservation_event ev = false) mid.
Proof.
  intros Ha Hi Hp r. subst r.
  unfold scantxoutset, ScanTxOutSet.scantxoutset.
  destruct Ha as [-> | [-> | ->]]; simpl; rewrite scoped_idle by done; simpl.
  - repeat split. by exists [].
  - repeat split. by exists [].
  - repeat split.
    destruct (start_body_reservation objs env (set_in_progress true g)
                (EvLoadProgress 0 :: EvExchangeInProgress false :: tr))
      as (mid & Hev & Hres & _).
    exists mid. simpl in Hev. by rewrite Hev.
Qed.

(** The trace has no influence on a start. *)
Lemma start_same_data objs env g tr1 tr2 :
  (scantxoutset "start" objs env (g, tr1)).1 = (scantxoutset "start" objs env (g, tr2)).1 ∧
  (scantxoutset "start" objs env (g, tr1)).2.1 = (scantxoutset "start" objs env (g, tr2)).2.1.
Proof.
  unfold scantxoutset, ScanTxOutSet.scantxoutset. simpl.
  unfold scoped, reserve, bind, CHECK_NONFATAL, exchange_in_progress, load_progress,
    ret, raise, fresh, destroy, store_in_progress, store_progress. simpl.
  destruct (g_scan_in_progress g); simpl; [done|].
  destruct (g_scan_progress g =? 0); simpl; [|done].
  pose proof (start_body_same_data objs env (set_in_progress true g)
                (EvLoadProgress (g_scan_progress g) :: EvExchangeInProgress false :: tr1)
                (EvLoadProgress (g_scan_progress g) :: EvExchangeInProgress false :: tr2))
    as [H1 H2].
  destruct (start_body objs env (_, _ :: _ :: tr1)) as [res1 [g1 t1]],
           (start_body objs env (_, _ :: _ :: tr2)) as [res2 [g2 t2]].
  simpl in *. by subst.
Qed.
End handlers.

End HandlerFacts.

(** ** Interleaved handlers *)
Module InterleavingFacts.
Import Interleaving.

Lemma owners_insert ts i p q :
  ts !! i = Some p →
  (owners (<[i := q]> ts) + weight p = owners ts + weight q)%nat.
Proof.
  revert i. induction ts as [|x ts IH]; intros i Hi; [done|].
  destruct i as [|i]; simpl in *.
  - simplify_eq. lia.
  - specialize (IH i Hi). lia.
Qed.

Lemma owners_lookup ts i p :
  ts !! i = Some p → owns p = true → (1 ≤ owners ts)%nat.
Proof.
  intros Hi Ho. pose proof (owners_insert ts i p Idle Hi) as H.
  unfold weight in H. rewrite Ho in H. simpl in H. lia.
Qed.

Lemma owners_two ts i j p q :
  i ≠ j → ts !! i = Some p → ts !! j = Some q →
  owns p = true → owns q = true → (2 ≤ owners ts)%nat.
Proof.
  intros Hij Hi Hj Hp Hq.
  pose proof (owners_insert ts i p Idle Hi) as H.
  unfold weight in H. rewrite Hp in H. simpl in H.
  assert (Hj' : <[i := Idle]> ts !! j = Some q) by (by rewrite list_lookup_insert_ne).
  pose proof (owners_lookup _ _ _ Hj' Hq). lia.
Qed.

Lemma owners_replicate_idle k : owners (replicate k Idle) = 0%nat.
Proof. induction k as [|k IH]; simpl; [done|exact IH]. Qed.

Lemma protocol_inv_init k : protocol_inv (init k).
Proof.
  unfold protocol_inv, init. simpl. rewrite owners_replicate_idle. split; [lia|lia].
Qed.

Lemma protocol_inv_step who l c c1 :
  protocol_inv c → step who l c = Some c1 → protocol_inv c1.
Proof.
  intros [Hle Hflag]. unfold step.
  destruct (threads c !! who) as [p|] eqn:Hp; [|done].
  destruct (thread_next l (globals c) p) as [[g p1]|] eqn:Hnext; [|done].
  intros [= <-]. unfold protocol_inv. simpl.
  pose proof (owners_insert (threads c) who p p1 Hp) as Hown.
  assert (Hcases : owners (threads c) = 0%nat ∨
                   (owners (threads c) = 1%nat ∧ g_scan_in_progress (globals c) = true)).
  { destruct (decide (owners (threads c) = 1%nat)); [right; auto|left; lia]. }
  clear Hle Hflag.
  destruct p as [|a|a|a|a|]; destruct l; try destruct a; simpl in Hnext; try done;
    repeat match type of Hnext with
    | context [if ?b then _ else _] => destruct b eqn:?
    end;
    simplify_eq; unfold weight in Hown; simpl in Hown; simpl;
    destruct Hcases as [H0|[H1 Ht]]; try congruence;
    (split; [lia|intros; first [done|lia]]).
Qed.

Lemma protocol_inv_run schedule c c1 :
  protocol_inv c → run schedule c = Some c1 → protocol_inv c1.
Proof.
  revert c. induction schedule as [|[who l] rest IH]; intros c Hinv; simpl.
  - by intros [= <-].
  - destruct (step who l c) as [c2|] eqn:Hstep; [|done].
    apply IH. by eapply protocol_inv_step.
Qed.

(** Only the holder clears the flag, and it does so by the first store
    of its destructor. *)
Lemma only_holder_clears who l c c1 :
  step who l c = Some c1 →
  g_scan_in_progress (globals c) = true → g_scan_in_progress (globals c1) = false →
  (∃ a, threads c !! who = Some (Holding a)) ∧ threads c1 !! who = Some Releasing.
Proof.
  unfold step.
  destruct (threads c !! who) as [p|] eqn:Hp; [|done].
  destruct (thread_next l (globals c) p) as [[g p1]|] eqn:Hnext; [|done].
  intros [= <-]. simpl. intros Ht Hf.
  assert (Hlen : (who < length (threads c))%nat) by (by eapply lookup_lt_Some).
  rewrite list_lookup_insert_eq by done.
  destruct p as [|a|a|a|a|]; destruct l; simpl in Hnext; try done;
    try (destruct a); simplify_eq; simpl in Hf; try congruence; eauto.
  all: destruct (g_scan_progress (globals c) =? 0); simplify_eq; congruence.
Qed.

(** The steps of a thread are the atomic accesses of [reserve()] and of
    the destructor. *)
Lemma reserve_steps a g tr :
  match Reserver.reserve Reserver.fresh (g, tr) with
  | (Ok (true, r), (g1, _)) =>
      Reserver.m_could_reserve r = true ∧
      thread_next LStep g (Reserving a) = Some (set_in_progress true g, Checking a) ∧
      thread_next LStep (set_in_progress true g) (Checking a) = Some (g1, Holding a)
  | (Ok (false, r), (g1, _)) =>
      Reserver.m_could_reserve r = false ∧
      thread_next LStep g (Reserving a) = Some (g1, Losing a)
  | (Raise _, (g1, _)) =>
      thread_next LStep g (Reserving a) = Some (set_in_progress true g, Checking a) ∧
      thread_next LStep (set_in_progress true g) (Checking a) = Some (g1, Idle)
  end.
Proof.
  unfold Reserver.reserve, bind, CHECK_NONFATAL, exchange_in_progress, load_progress,
    ret, raise, Reserver.fresh. simpl.
  destruct (g_scan_in_progress g) eqn:Hg; simpl.
  - done.
  - destruct (g_scan_progress g =? 0) eqn:Hp; simpl; by rewrite ?Hp.
Qed.

Lemma destroy_steps a g tr :
  thread_next LRelease g (Holding a) = Some (set_in_progress false g, Releasing) ∧
  thread_next LStep (set_in_progress false g) Releasing
    = Some ((Reserver.destroy {| Reserver.m_could_reserve := true |} (g, tr)).2.1, Idle).
Proof. by destruct a. Qed.

End InterleavingFacts.

(** ** The reservation: exclusion, release, and the idle abort *)
Module ReservationClaims.
Import Scan ScanTxOutSet Reserver Interleaving.
Import ScanFacts ReserverFacts StartFacts HandlerFacts InterleavingFacts.

(** C4.  (1) In every interleaving of the atomic steps of any number of
    handler threads, started from the idle state, at most one thread
    holds the reservation.  (2) [reserve()] returns [true] only when its
    exchange found the flag clear and set it.  (3) A [start] that finds
    the flag set throws the busy error and leaves the three atomics as
    they were.  (4) From the idle state, whatever the action (status,
    abort, start) and however the start ends (a result with success true
    or false, or any exception), the handler stores [false] to the flag
    exactly once and then 0 to the progress, as its last two accesses.
    (5) In an interleaving, a step that clears the flag is the first store
    of the destructor of the thread that holds the reservation. *)
Theorem reservation_exclusive_and_released :
  (∀ k schedule c,
     run schedule (init k) = Some c →
     ∀ i j a b, threads c !! i = Some (Holding a) →
                threads c !! j = Some (Holding b) → i = j) ∧
  (∀ r g tr r1 g1 tr1,
     reserve r (g, tr) = (Ok (true, r1), (g1, tr1)) →
     g_scan_in_progress g = false ∧ g_scan_in_progress g1 = true ∧
     m_could_reserve r1 = true ∧
     tr1 = EvLoadProgress 0 :: EvExchangeInProgress false :: tr) ∧
  (∀ (scanobject : Type) (eval : scanobject → result (list CScript))
     (infer : scanobject → CScript → string) objs env g tr,
     g_scan_in_progress g = true →
     scantxoutset scanobject eval infer "start" objs env (g, tr) =
       (Raise (JSONRPCError RPC_INVALID_PARAMETER
                 "Scan already in progress, use action 'abort' or 'status'"),
        (g, EvExchangeInProgress true :: tr))) ∧
  (∀ (scanobject : Type) (eval : scanobject → result (list CScript))
     (infer : scanobject → CScript → string) action objs env g tr,
     action = "status" ∨ action = "abort" ∨ action = "start" →
     g_scan_in_progress g = false → g_scan_progress g = 0 →
     let r := scantxoutset scanobject eval infer action objs env (g, tr) in
     g_scan_in_progress r.2.1 = false ∧ g_scan_progress r.2.1 = 0 ∧
     ∃ mid, r.2.2 = EvStoreProgress 0 :: EvStoreInProgress false
                    :: mid ++ EvLoadProgress 0 :: EvExchangeInProgress false :: tr ∧
            Forall (λ ev, reservation_event ev = false) mid) ∧
  (∀ who l c c1,
     step who l c = Some c1 →
     g_scan_in_progress (globals c) = true → g_scan_in_progress (globals c1) = false →
     (∃ a, threads c !! who = Some (Holding a)) ∧ threads c1 !! who = Some Releasing).
Proof.
  split; [|split; [|split; [|split]]].
  - intros k schedule c Hrun i j a b Hi Hj.
    destruct (protocol_inv_run schedule (init k) c (protocol_inv_init k) Hrun) as [Hle _].
    destruct (decide (i = j)) as [|Hne]; [done|].
    pose proof (owners_two (threads c) i j _ _ Hne Hi Hj eq_refl eq_refl). lia.
  - intros r g tr r1 g1 tr1.
    unfold reserve, bind, CHECK_NONFATAL, exchange_in_progress, load_progress, ret, raise.
    simpl. destruct (m_could_reserve r); simpl; [done|].
    destruct (g_scan_in_progress g) eqn:Hg; simpl; [done|].
    destruct (g_scan_progress g =? 0) eqn:Hp; simpl; [|done].
    intros [= <- <- <-]. apply Z.eqb_eq in Hp. rewrite Hp. done.
  - intros scanobject eval infer objs env g tr Hg. by apply start_busy.
  - intros scanobject eval infer action objs env g tr Ha Hi Hp.
    by apply handler_releases.
  - intros who l c c1. apply only_holder_clears.
Qed.

Lemma reservation_exclusive_and_released_witness :
  ∃ c, run Examples.schedule_two_starts (init 2) = Some c ∧
       threads c = [Holding Start; Losing Start] ∧
       ∀ i j a b, threads c !! i = Some (Holding a) →
                  threads c !! j = Some (Holding b) → i = j.
Proof.
  eexists. split; [vm_compute; reflexivity|]. split; [reflexivity|].
  exact (proj1 reservation_exclusive_and_released 2%nat Examples.schedule_two_starts
           _ eq_refl).
Defined.

(** A reservation taken between the two stores of another thread's
    destructor.  The progress check of [reserve()] then fails after its
    exchange has set the flag: the flag stays set although no thread
    holds the reservation. *)
Example release_race_leaves_flag_set :
  run Examples.schedule_release_race (init 2) =
    Some {| globals := {| g_scan_progress := 0; g_scan_in_progress := true;
                          g_should_abort_scan := false |};
            threads := [Idle; Idle] |}.
Proof. vm_compute. reflexivity. Qed.

(** C9.  An abort when nothing runs returns [false], leaves the three
    atomics as they were and makes no store to the abort flag.  A start
    after it gives the result and leaves the atomics that the same start
    gives without it; and that start stores [false] to the flag before it
    scans, so that over records that decode, with no stop request while it
    runs, it completes with success = true, whatever the flag held
    before. *)
Theorem idle_abort_leaves_no_residue (scanobject : Type)
    (eval : scanobject → result (list CScript))
    (infer : scanobject → CScript → string) objs0 env g tr :
  g_scan_in_progress g = false → g_scan_progress g = 0 →
  let r := scantxoutset scanobject eval infer "abort" objs0 env (g, tr) in
  r.1 = Ok (VBool false) ∧
  r.2.1 = g ∧
  r.2.2 = EvStoreProgress 0 :: EvStoreInProgress false
          :: EvLoadProgress 0 :: EvExchangeInProgress false :: tr ∧
  (∀ objs env1,
     (scantxoutset scanobject eval infer "start" objs env1 r.2).1
       = (scantxoutset scanobject eval infer "start" objs env1 (g, tr)).1 ∧
     (scantxoutset scanobject eval infer "start" objs env1 r.2).2.1
       = (scantxoutset scanobject eval infer "start" objs env1 (g, tr)).2.1) ∧
  (∀ objs nd env1 recs t,
     expand_scanobjects scanobject eval infer objs (∅, ∅) = Ok nd →
     pcursor env1 = Some (entry_of <$> recs) → tip env1 = Some t →
     Z.of_nat (length recs) ≤ INT64_MAX →
     (∀ c, 0 < c ≤ Z.of_nat (length recs) → c mod 8192 = 0 →
           rpc_interruption_point env1 c = false ∧ abort_request env1 c = false) →
     ∃ found total,
       (scantxoutset scanobject eval infer "start" (Some objs) env1 r.2).1 =
         Ok (VScan {| success := true;
                      txouts := Z.of_nat (length recs);
                      height := BlockIndex.nHeight t;
                      bestblock := BlockIndex.GetBlockHash t;
                      unspents := found;
                      total_amount := total |})).
Proof.
  intros Hi Hp r. subst r. rewrite abort_idle by done. simpl.
  split; [done|]. split; [done|]. split; [done|]. split.
  - intros objs env1. apply start_same_data.
  - intros objs nd env1 recs t Hnd Hcur Htip Hmax Hq.
    eexists _, _. by eapply start_exhaustive.
Qed.

Lemma idle_abort_leaves_no_residue_witness :
  let stale := set_should_abort true Examples.idle in
  let r := scantxoutset CScript Examples.eval_raw Examples.infer_raw "abort" None
             (Examples.quiet_env []) (stale, []) in
  g_scan_in_progress stale = false ∧ g_scan_progress stale = 0 ∧
  r.1 = Ok (VBool false) ∧ r.2.1 = stale.
Proof.
  intros stale r.
  pose proof (idle_abort_leaves_no_residue CScript Examples.eval_raw Examples.infer_raw
                None (Examples.quiet_env []) stale [] eq_refl eq_refl) as H.
  cbv zeta in H. destruct H as (H1 & H2 & _).
  split; [reflexivity|]. split; [reflexivity|]. split; [exact H1|exact H2].
Defined.

(** An abort when nothing runs, then a start over a store that reaches
    the first checkpoint, the flag having been left set by an earlier
    scan: the start is not cancelled. *)
Example start_after_idle_abort_completes :
  let stale := set_should_abort true Examples.idle in
  let w1 := (scantxoutset CScript Examples.eval_raw Examples.infer_raw "abort" None
               (Examples.quiet_env []) (stale, [])).2 in
  match (scantxoutset CScript Examples.eval_raw Examples.infer_raw "start" (Some [])
           (Examples.quiet_env (entry_of <$> Examples.store_of (Z.to_nat 8200))) w1).1 with
  | Ok (VScan res) => success res = true ∧ txouts res = 8200
  | _ => False
  end.
Proof. vm_compute. split; reflexivity. Qed.

End ReservationClaims.

(** ** The snapshot writer *)
Module SnapshotFacts.
Import Snapshot.

Lemma apply_op_untouched p o (d : disk) :
  ¬ touches p o → (apply_op o d).1 !! p = d.1 !! p.
Proof.
  destruct o as [q|q xs|q xs|a b| | | |]; simpl; intros Hp; try done.
  - by rewrite lookup_insert_ne.
  - by rewrite lookup_alter_ne.
  - by rewrite lookup_alter_ne.
  - destruct (d.1 !! a); [|done].
    rewrite lookup_insert_ne by tauto. rewrite lookup_delete_ne by tauto. done.
Qed.

Lemma replay_untouched p l (d : disk) :
  Forall (λ o, ¬ touches p o) l → (replay l d).1 !! p = d.1 !! p.
Proof.
  revert d. induction l as [|o l IH]; intros d Hall; [done|].
  apply Forall_cons in Hall as [Ho Hall].
  change (replay (o :: l) d) with (replay l (apply_op o d)).
  rewrite IH by done. by apply apply_op_untouched.
Qed.

Lemma replay_app l1 l2 (d : disk) : replay (l1 ++ l2) d = replay l2 (replay l1 d).
Proof. unfold replay. by rewrite foldl_app. Qed.

Lemma writer_op_untouched p q o : p ≠ q → writer_op q o → ¬ touches p o.
Proof. destruct o; simpl; intros; try tauto; congruence. Qed.

(** *** Composition of the operations performed *)

Lemma performs_ret P {A} (a : A) : performs P (ret a).
Proof. intros w. exists []. by repeat split. Qed.

Lemma performs_raise P {A} e : performs P (raise e : XM A).
Proof. intros w. exists []. by repeat split. Qed.

Lemma performs_bind P {A B} (m : XM A) (k : A → XM B) :
  performs P m → (∀ a, performs P (k a)) → performs P (bind m k).
Proof.
  intros Hm Hk w. unfold bind.
  destruct (Hm w) as (new1 & Ho1 & Hf1 & HP1).
  destruct (m w) as [[a|e] w1]; simpl in *.
  - destruct (Hk a w1) as (new2 & Ho2 & Hf2 & HP2).
    exists (new2 ++ new1). rewrite Ho2, Hf2, Ho1, Hf1.
    split; [by rewrite app_assoc|]. split; [|by apply Forall_app].
    by rewrite reverse_app, replay_app.
  - by exists new1.
Qed.

Lemma performs_impl (P Q : op → Prop) {A} (m : XM A) :
  (∀ o, P o → Q o) → performs P m → performs Q m.
Proof.
  intros HPQ Hm w. destruct (Hm w) as (new & Ho & Hd & Hall).
  exists new. split; [done|]. split; [done|]. by eapply Forall_impl.
Qed.

Lemma performs_perform (P : op → Prop) o : P o → performs P (perform o).
Proof.
  intros Ho w. exists [o]. simpl. split; [done|]. split.
  - unfold on_disk. simpl. by destruct (apply_op o _).
  - by repeat constructor.
Qed.

Lemma performs_set_stream P p buffer : performs P (set_stream p buffer).
Proof. intros w. exists []. by repeat split. Qed.

(** The destructor of a local object runs on every way out. *)
Lemma performs_with_local P {A} (destructor : XM unit) (body : XM A) :
  performs P body → performs P destructor → performs P (with_local destructor body).
Proof.
  intros Hb Hd w. unfold with_local.
  destruct (Hb w) as (new1 & Ho1 & Hf1 & HP1).
  destruct (body w) as [r w1]; simpl in *.
  destruct (Hd w1) as (new2 & Ho2 & Hf2 & HP2).
  exists (new2 ++ new1). rewrite Ho2, Hf2, Ho1, Hf1.
  split; [by rewrite app_assoc|]. split; [|by apply Forall_app].
  by rewrite reverse_app, replay_app.
Qed.

Lemma performs_write P env afile x :
  (∀ p xs, handle afile = Some p → P (OpWriteOut p xs)) → performs P (write env afile x).
Proof.
  intros HP w. unfold write. destruct (handle afile) as [p|]; [|by exists []].
  destruct (streams w !! p) as [buffer|]; [|by exists []].
  destruct (fwrite env _); [apply performs_set_stream| |by exists []].
  apply performs_bind; [by apply performs_perform, HP|intros _; apply performs_set_stream].
Qed.

Lemma performs_fclose P env afile :
  (∀ p xs, handle afile = Some p → P (OpFclose p xs)) → performs P (fclose env afile).
Proof.
  intros HP w. unfold fclose. destruct (handle afile) as [p|]; [|by exists []].
  destruct (streams w !! p) as [buffer|]; [|by exists []].
  apply performs_bind; [by apply performs_perform, HP|intros _; apply performs_set_stream].
Qed.

Lemma stream_performs env afile p pcursor iter i :
  (∀ q, handle afile = Some q → q = p) →
  performs (writer_op p) (stream env afile pcursor iter i).
Proof.
  intros Hh. revert iter i. induction pcursor as [|e rest IH]; intros iter i.
  - apply performs_ret.
  - cbn [stream]. apply performs_bind.
    { destruct (iter mod 5000 =? 0); [|apply performs_ret].
      destruct (rpc_interruption_point env i); [apply performs_raise|apply performs_ret]. }
    intros _. apply performs_bind; [|intros _; apply IH].
    destruct (GetKey e); [|apply performs_ret].
    destruct (GetValue e); [|apply performs_ret].
    apply performs_bind; [|intros _]; apply performs_write; intros q xs Hq; simpl; auto.
Qed.

Lemma CreateUTXOSnapshot_performs env afile p :
  (∀ q, handle afile = Some q → q = p) →
  performs (writer_op p) (CreateUTXOSnapshot env afile).
Proof.
  intros Hh. unfold CreateUTXOSnapshot.
  apply performs_bind; [by apply performs_perform|intros _].
  apply performs_bind; [by apply performs_perform|intros _].
  destruct (GetUTXOStats env) as [stats| |]; try apply performs_raise.
  apply performs_bind; [by apply performs_perform|intros _].
  apply performs_bind; [by apply performs_perform|intros _].
  destruct (LookupBlockIndex env (hashBlock stats)) as [tip|]; [|apply performs_raise].
  apply performs_bind; [apply performs_write; intros q xs Hq; simpl; auto|intros _].
  apply performs_bind; [by apply stream_performs|intros _].
  apply performs_bind; [apply performs_fclose; intros q xs Hq; simpl; auto|intros _].
  apply performs_ret.
Qed.

(** *** What a run that succeeds has written *)

(** A write that returns has added its object to what was written
    through the stream, which stays open on its file. *)
Lemma write_Ok env p x w u w1 content buffer :
  write env {| handle := Some p |} x w = (Ok u, w1) →
  files w !! p = Some content → streams w !! p = Some buffer →
  ∃ content1 buffer1,
    files w1 !! p = Some content1 ∧ streams w1 !! p = Some buffer1 ∧
    content1 ++ buffer1 = content ++ buffer ++ [x].
Proof.
  unfold write. simpl. intros Hrun Hc Hb. rewrite Hb in Hrun.
  destruct (fwrite env _); [| |done].
  - injection Hrun as <- <-. simpl. exists content, (buffer ++ [x]).
    by rewrite lookup_insert_eq.
  - injection Hrun as <- <-. simpl. exists (content ++ buffer ++ [x]), [].
    rewrite lookup_alter_eq, Hc, lookup_insert_eq. simpl.
    by rewrite app_nil_r.
Qed.

Lemma body_of_cons e rest : body_of (e :: rest) = record_items e ++ body_of rest.
Proof. reflexivity. Qed.

Lemma bind_Ok {W A B} (m : St W A) (k : A → St W B) w u w1 :
  bind m k w = (Ok u, w1) → ∃ a wa, m w = (Ok a, wa) ∧ k a wa = (Ok u, w1).
Proof.
  unfold bind. destruct (m w) as [[a|e] wa]; [|done]. intros Hk. by exists a, wa.
Qed.

Lemma stream_Ok env p pcursor iter i w u w1 content buffer :
  stream env {| handle := Some p |} pcursor iter i w = (Ok u, w1) →
  files w !! p = Some content → streams w !! p = Some buffer →
  ∃ content1 buffer1,
    files w1 !! p = Some content1 ∧ streams w1 !! p = Some buffer1 ∧
    content1 ++ buffer1 = content ++ buffer ++ body_of pcursor.
Proof.
  revert iter i w content buffer.
  induction pcursor as [|e rest IH]; intros iter i w content buffer.
  - simpl. intros [= <- <-] Hc Hb. exists content, buffer. by rewrite app_nil_r.
  - rewrite body_of_cons. unfold record_items. cbn [stream]. intros Hrun Hc Hb.
    apply bind_Ok in Hrun as ([] & wa & Hint & Hrun).
    assert (wa = w) as ->.
    { destruct (iter mod 5000 =? 0); [|by injection Hint].
      destruct (rpc_interruption_point env i); [done|by injection Hint]. }
    apply bind_Ok in Hrun as ([] & wb & Hwr & Hrun).
    destruct (GetKey e) as [key|], (GetValue e) as [coin|];
      try (injection Hwr as <-; simpl; by apply (IH _ _ _ _ _ Hrun)).
    apply bind_Ok in Hwr as ([] & wc & Hw1 & Hw2).
    destruct (write_Ok _ _ _ _ _ _ _ _ Hw1 Hc Hb) as (c1 & b1 & Hc1 & Hb1 & E1).
    destruct (write_Ok _ _ _ _ _ _ _ _ Hw2 Hc1 Hb1) as (c2 & b2 & Hc2 & Hb2 & E2).
    destruct (IH _ _ _ _ _ Hrun Hc2 Hb2) as (c3 & b3 & Hc3 & Hb3 & E3).
    exists c3, b3. split; [done|]. split; [done|].
    rewrite E3, (app_assoc c2), E2, (app_assoc c1), E1. simpl.
    by rewrite <- !app_assoc.
Qed.

(** A writer on a null handle does not succeed. *)
Lemma CreateUTXOSnapshot_null env w res w1 :
  CreateUTXOSnapshot env {| handle := None |} w ≠ (Ok res, w1).
Proof.
  unfold CreateUTXOSnapshot. intros Hrun.
  apply bind_Ok in Hrun as ([] & wa & _ & Hrun).
  apply bind_Ok in Hrun as ([] & wb & _ & Hrun).
  destruct (GetUTXOStats env) as [stats| |]; try done.
  apply bind_Ok in Hrun as ([] & wc & _ & Hrun).
  apply bind_Ok in Hrun as ([] & wd & _ & Hrun).
  destruct (LookupBlockIndex env (hashBlock stats)) as [tip|]; [|done].
  apply bind_Ok in Hrun as ([] & we & Hw & _). done.
Qed.

(** What the close of a stream leaves in its file. *)
Lemma fclose_open env p w content buffer :
  files w !! p = Some content → streams w !! p = Some buffer →
  ∃ w1, fclose env {| handle := Some p |} w = (Ok tt, w1) ∧
        streams w1 !! p = None ∧
        files w1 !! p =
          Some (content ++ match fclose_fails env with
                           | None => buffer
                           | Some n => take n buffer
                           end).
Proof.
  intros Hc Hb. unfold fclose. simpl. rewrite Hb. eexists. split; [reflexivity|].
  simpl. rewrite lookup_delete_eq, lookup_alter_eq, Hc. done.
Qed.

(** A writer that returns has passed the header and the whole body
    through its stream and closed it; the file holds them all when the
    close wrote the buffer out, and a prefix of them otherwise. *)
Lemma CreateUTXOSnapshot_Ok env p w res w1 :
  CreateUTXOSnapshot env {| handle := Some p |} w = (Ok res, w1) →
  files w !! p = Some [] → streams w !! p = Some [] →
  ∃ stats tip content,
    GetUTXOStats env = StatsOk stats ∧
    LookupBlockIndex env (hashBlock stats) = Some tip ∧
    res = {| coins_written := coins_count stats;
             base_hash := BlockIndex.GetBlockHash tip;
             base_height := BlockIndex.nHeight tip |} ∧
    files w1 !! p = Some content ∧
    streams w1 !! p = None ∧
    content `prefix_of`
      (IMetadata {| m_base_blockhash := BlockIndex.GetBlockHash tip;
                    m_coins_count := coins_count stats;
                    m_nchaintx := BlockIndex.nChainTx tip |}
       :: body_of (Cursor env)) ∧
    (fclose_fails env = None →
     content = IMetadata {| m_base_blockhash := BlockIndex.GetBlockHash tip;
                            m_coins_count := coins_count stats;
                            m_nchaintx := BlockIndex.nChainTx tip |}
               :: body_of (Cursor env)).
Proof.
  unfold CreateUTXOSnapshot. intros Hrun Hc Hb.
  apply bind_Ok in Hrun as ([] & wa & [= <-] & Hrun).
  apply bind_Ok in Hrun as ([] & wb & [= <-] & Hrun).
  destruct (GetUTXOStats env) as [stats| |] eqn:Hstats; try done.
  apply bind_Ok in Hrun as ([] & wc & [= <-] & Hrun).
  apply bind_Ok in Hrun as ([] & wd & [= <-] & Hrun).
  destruct (LookupBlockIndex env (hashBlock stats)) as [tip|] eqn:Htip; [|done].
  apply bind_Ok in Hrun as ([] & we & Hw & Hrun).
  apply bind_Ok in Hrun as ([] & wf & Hs & Hrun).
  apply bind_Ok in Hrun as ([] & wg & Hcl & Hrun).
  injection Hrun as <- <-.
  eapply write_Ok in Hw as (c1 & b1 & Hc1 & Hb1 & E1); [|exact Hc|exact Hb].
  destruct (stream_Ok _ _ _ _ _ _ _ _ _ _ Hs Hc1 Hb1) as (c2 & b2 & Hc2 & Hb2 & E2).
  destruct (fclose_open env p wf c2 b2 Hc2 Hb2) as (wg' & Hcl' & Hs3 & Hc3).
  rewrite Hcl' in Hcl. injection Hcl as <-.
  rewrite (app_assoc c1), E1 in E2. simpl in E2.
  exists stats, tip. eexists. split; [done|]. split; [done|]. split; [done|].
  split; [exact Hc3|]. split; [done|]. split.
  - rewrite <- E2. destruct (fclose_fails env) as [n|].
    + apply prefix_app, prefix_take.
    + done.
  - intros ->. by rewrite E2.
Qed.

(** *** A run that nothing disturbs *)

Lemma write_benign env p x w :
  (∀ k, fwrite env k ≠ WriteFailed) → is_Some (streams w !! p) →
  ∃ w1, write env {| handle := Some p |} x w = (Ok tt, w1).
Proof.
  intros Hw [buffer Hb]. unfold write. simpl. rewrite Hb.
  destruct (fwrite env _) eqn:E; [by eexists|by eexists|].
  by apply Hw in E.
Qed.

Lemma stream_benign env p pcursor iter i w content buffer :
  (∀ j, rpc_interruption_point env j = false) → (∀ k, fwrite env k ≠ WriteFailed) →
  files w !! p = Some content → streams w !! p = Some buffer →
  ∃ w1, stream env {| handle := Some p |} pcursor iter i w = (Ok tt, w1).
Proof.
  intros Hi Hw. revert iter i w content buffer.
  induction pcursor as [|e rest IH]; intros iter i w content buffer Hc Hb.
  - by eexists.
  - cbn [stream]. unfold bind at 1. rewrite Hi.
    replace ((if iter mod 5000 =? 0 then ret () else ret ()) w) with (Ok (), w)
      by (by destruct (iter mod 5000 =? 0)).
    unfold bind at 1.
    destruct (GetKey e) as [key|], (GetValue e) as [coin|]; simpl;
      try (by eapply IH).
    unfold bind at 1.
    destruct (write_benign env p (IOutPoint key) w Hw) as [wa Hwa]; [by eexists|].
    rewrite Hwa.
    destruct (write_Ok _ _ _ _ _ _ _ _ Hwa Hc Hb) as (c1 & b1 & Hc1 & Hb1 & _).
    destruct (write_benign env p (ICoin coin) wa Hw) as [wb Hwb]; [by eexists|].
    rewrite Hwb.
    destruct (write_Ok _ _ _ _ _ _ _ _ Hwb Hc1 Hb1) as (c2 & b2 & Hc2 & Hb2 & _).
    by eapply IH.
Qed.

Lemma CreateUTXOSnapshot_benign env p w stats tip content buffer :
  (∀ j, rpc_interruption_point env j = false) → (∀ k, fwrite env k ≠ WriteFailed) →
  GetUTXOStats env = StatsOk stats → LookupBlockIndex env (hashBlock stats) = Some tip →
  files w !! p = Some content → streams w !! p = Some buffer →
  ∃ res w1, CreateUTXOSnapshot env {| handle := Some p |} w = (Ok res, w1).
Proof.
  intros Hi Hw Hstats Htip Hc Hb. unfold CreateUTXOSnapshot.
  unfold bind at 1. simpl. unfold bind at 1. simpl. rewrite Hstats.
  unfold bind at 1. simpl. unfold bind at 1. simpl. rewrite Htip.
  unfold bind at 1.
  match goal with
  | |- context [write env _ ?x ?w0] =>
      destruct (write_benign env p x w0 Hw) as [wa Hwa]; [by eexists|];
      rewrite Hwa;
      destruct (write_Ok env p x w0 tt wa content buffer Hwa Hc Hb)
        as (c1 & b1 & Hc1 & Hb1 & _)
  end.
  unfold bind at 1.
  destruct (stream_benign env p (Cursor env) 0 0 wa c1 b1 Hi Hw Hc1 Hb1) as [wb Hwb].
  rewrite Hwb.
  destruct (stream_Ok _ _ _ _ _ _ _ _ _ _ Hwb Hc1 Hb1) as (c2 & b2 & Hc2 & Hb2 & _).
  destruct (fclose_open env p wb c2 b2 Hc2 Hb2) as (wc & Hwc & _).
  unfold bind at 1. rewrite Hwc. unfold bind, ret. by eexists _, _.
Qed.

Lemma records_written_body m pcursor :
  records_written (IMetadata m :: body_of pcursor) = decoded_count pcursor.
Proof.
  unfold records_written, decoded_count. f_equal.
  rewrite filter_cons_False by (simpl; congruence).
  induction pcursor as [|e rest IH]; [done|].
  rewrite body_of_cons, filter_app, length_app, IH, (filter_cons decodable).
  unfold record_items. destruct (decide (decodable e)) as [Hd|Hd].
  - destruct Hd as [[key ->] [coin ->]]. reflexivity.
  - destruct (GetKey e) as [key|] eqn:Hk, (GetValue e) as [coin|] eqn:Hv; try done.
    exfalso. apply Hd. unfold decodable. rewrite Hk, Hv. split; eauto.
Qed.

Lemma body_of_skip c1 e c2 :
  ¬ decodable e → body_of (c1 ++ e :: c2) = body_of c1 ++ body_of c2.
Proof.
  intros Hd. unfold body_of. rewrite bind_app, bind_cons.
  assert (record_items e = []) as ->; [|done].
  unfold record_items, decodable in *.
  destruct (GetKey e), (GetValue e); try done. exfalso. apply Hd. split; eauto.
Qed.

(** A record that does not decode is passed over: no write, no error. *)
Lemma stream_skip env afile e rest iter i :
  ¬ decodable e →
  stream env afile (e :: rest) iter i =
    bind (if iter mod 5000 =? 0
          then (if rpc_interruption_point env i then raise InterruptionError else ret tt)
          else ret tt)
         (λ _, stream env afile rest (wrap_uint32 (iter + 1)) (S i)).
Proof.
  intros Hd. cbn [stream]. unfold decodable in Hd.
  destruct (GetKey e) as [key|], (GetValue e) as [coin|];
    try (exfalso; apply Hd; split; eauto; fail).
  all: reflexivity.
Qed.

Section dumptxoutset.
Variable AbsPathJoin : string → string → string.
Variable datadir : string.

Local Abbreviation final_path := (final_path AbsPathJoin datadir).
Local Abbreviation temp_path := (temp_path AbsPathJoin datadir).
Local Abbreviation dumptxoutset := (dumptxoutset AbsPathJoin datadir).

Local Abbreviation export_op := (export_op AbsPathJoin datadir).

Lemma export_op_untouched arg o :
  final_path arg ≠ temp_path arg → export_op arg o → ¬ touches (final_path arg) o.
Proof.
  intros Hne [Ho| ->].
  - by eapply writer_op_untouched.
  - simpl. congruence.
Qed.

Lemma dumptxoutset_exists arg env w :
  is_Some (files w !! final_path arg) →
  dumptxoutset arg env w =
    (Raise (JSONRPCError RPC_INVALID_PARAMETER
              (final_path arg +:+ " already exists. If you are sure this is what you want, "
                              +:+ "move it out of the way first")), w).
Proof.
  intros Hex. unfold dumptxoutset, Snapshot.dumptxoutset, bind, fs_exists. simpl.
  by rewrite bool_decide_eq_true_2.
Qed.

(** An export to a free path: the writer runs on the handle that [fopen]
    gave, the rename follows when the writer returns, and the destructor
    of the handle runs last. *)
Lemma dumptxoutset_free arg env w :
  files w !! final_path arg = None →
  dumptxoutset arg env w =
    let run afile :=
      with_local (fclose env afile)
        (bind (CreateUTXOSnapshot env afile)
           (λ result, bind (rename (temp_path arg) (final_path arg))
                        (λ _, ret {| snapshot := result; path := final_path arg |}))) in
    if fopen_fails env then run {| handle := None |} w
    else run {| handle := Some (temp_path arg) |} (opened (temp_path arg) w).
Proof.
  intros Hnone.
  unfold dumptxoutset, Snapshot.dumptxoutset, bind at 1, fs_exists. simpl.
  rewrite bool_decide_eq_false_2 by (rewrite Hnone; by intros [? ?]).
  unfold bind at 1, fopen_wb.
  destruct (fopen_fails env); reflexivity.
Qed.

(** The writer, the rename and the destructor, case by case. *)
Lemma export_run arg env afile w :
  with_local (fclose env afile)
    (bind (CreateUTXOSnapshot env afile)
       (λ result, bind (rename (temp_path arg) (final_path arg))
                    (λ _, ret {| snapshot := result; path := final_path arg |}))) w =
  match CreateUTXOSnapshot env afile w with
  | (Raise e, w1) => (Raise e, (fclose env afile w1).2)
  | (Ok result, w1) =>
      match files w1 !! temp_path arg with
      | None => (Raise FilesystemError, (fclose env afile w1).2)
      | Some _ =>
          (Ok {| snapshot := result; path := final_path arg |},
           (fclose env afile
              (perform (OpRename (temp_path arg) (final_path arg)) w1).2).2)
      end
  end.
Proof.
  unfold with_local, bind, rename.
  destruct (CreateUTXOSnapshot env afile w) as [[res|e] w1]; [|done].
  destruct (files w1 !! temp_path arg); done.
Qed.

(** Every export: what it performed and what it left. *)
Lemma dumptxoutset_spec arg env w :
  final_path arg ≠ temp_path arg →
  let r := dumptxoutset arg env w in
  ∃ new, ops r.2 = new ++ ops w ∧
         on_disk r.2 = replay (reverse new) (on_disk w) ∧
         match r.1 with
         | Raise _ => Forall (export_op arg) new
         | Ok res =>
             files w !! final_path arg = None ∧
             ∃ init stats tip content,
               new = OpRename (temp_path arg) (final_path arg) :: init ∧
               Forall (export_op arg) init ∧
               GetUTXOStats env = StatsOk stats ∧
               LookupBlockIndex env (hashBlock stats) = Some tip ∧
               res = {| snapshot := {| coins_written := coins_count stats;
                                       base_hash := BlockIndex.GetBlockHash tip;
                                       base_height := BlockIndex.nHeight tip |};
                        path := final_path arg |} ∧
               files r.2 !! final_path arg = Some content ∧
               content `prefix_of`
                 (IMetadata {| m_base_blockhash := BlockIndex.GetBlockHash tip;
                               m_coins_count := coins_count stats;
                               m_nchaintx := BlockIndex.nChainTx tip |}
                  :: body_of (Cursor env)) ∧
               (fclose_fails env = None →
                content = IMetadata {| m_base_blockhash := BlockIndex.GetBlockHash tip;
                                       m_coins_count := coins_count stats;
                                       m_nchaintx := BlockIndex.nChainTx tip |}
                          :: body_of (Cursor env)) ∧
               files r.2 !! temp_path arg = None
         end.
Proof.
  intros Hne r. subst r.
  destruct (decide (is_Some (files w !! final_path arg))) as [Hex|Hfree].
  { rewrite dumptxoutset_exists by done. exists []. simpl.
    split; [done|]. split; [done|]. constructor. }
  assert (Hnone : files w !! final_path arg = None).
  { destruct (files w !! final_path arg) eqn:E; [|done]. exfalso. apply Hfree. eauto. }
  rewrite dumptxoutset_free by done. cbv beta zeta. rewrite !export_run.
  destruct (fopen_fails env) eqn:Hfo.
  - (* fopen failed: the writer runs on a null handle *)
    destruct (CreateUTXOSnapshot_performs env {| handle := None |} (temp_path arg)
                ltac:(done) w) as (new & Ho & Hf & HP).
    destruct (CreateUTXOSnapshot env {| handle := None |} w) as [[res|e] w1] eqn:Hrun.
    { by apply CreateUTXOSnapshot_null in Hrun. }
    change (fclose env {| handle := None |} w1) with (Ok (), w1).
    exists new. split; [exact Ho|]. split; [exact Hf|].
    eapply Forall_impl; [exact HP|]. intros o Ho'. by left.
  - set (w0 := opened (temp_path arg) w).
    set (afile := {| handle := Some (temp_path arg) |}).
    assert (Hh : ∀ q, handle afile = Some q → q = temp_path arg) by (by intros q [= <-]).
    assert (Hd0 : on_disk w0 = apply_op (OpFopen (temp_path arg)) (on_disk w)) by done.
    destruct (CreateUTXOSnapshot_performs env afile (temp_path arg) Hh w0)
      as (new & Ho & Hf & HP).
    assert (HP' : Forall (export_op arg) (new ++ [OpFopen (temp_path arg)])).
    { apply Forall_app. split.
      - eapply Forall_impl; [exact HP|]. intros o Ho'. by left.
      - apply Forall_singleton. by right. }
    destruct (CreateUTXOSnapshot env afile w0) as [[res|e] w1] eqn:Hrun; simpl in Ho, Hf.
    + apply CreateUTXOSnapshot_Ok in Hrun
        as (stats & tip & content & Hstats & Htip & -> & Hc & Hs & Hpre & Hfull);
        [|subst w0; apply lookup_insert_eq..].
      rewrite Hc. unfold fclose. simpl. rewrite Hs. simpl.
      exists (OpRename (temp_path arg) (final_path arg) :: new ++ [OpFopen (temp_path arg)]).
      split; [simpl; rewrite Ho; subst w0; simpl; by rewrite <- app_assoc|]. split.
      { rewrite reverse_cons, reverse_app, !replay_app.
        change (replay (reverse [OpFopen (temp_path arg)]) (on_disk w)) with (on_disk w0).
        rewrite <- Hf. unfold on_disk. simpl. by rewrite Hc. }
      split; [done|]. exists (new ++ [OpFopen (temp_path arg)]), stats, tip, content.
      split; [done|]. split; [done|]. split; [done|]. split; [done|]. split; [done|].
      rewrite Hc. simpl.
      split; [by rewrite lookup_insert_eq|]. split; [done|]. split; [done|].
      rewrite lookup_insert_ne by done. by rewrite lookup_delete_eq.
    + destruct (performs_fclose (writer_op (temp_path arg)) env afile
                  ltac:(intros q xs [= <-]; done) w1) as (newc & Hoc & Hfc & HPc).
      simpl. exists (newc ++ new ++ [OpFopen (temp_path arg)]).
      split; [rewrite Hoc, Ho; subst w0; simpl; by rewrite <- !app_assoc|]. split.
      * rewrite Hfc, Hf, Hd0. rewrite !reverse_app, !replay_app. done.
      * apply Forall_app. split; [|done].
        eapply Forall_impl; [exact HPc|]. intros o Ho'. by left.
Qed.

(** An export that nothing disturbs succeeds. *)
Lemma dumptxoutset_benign arg env w stats tip :
  final_path arg ≠ temp_path arg →
  files w !! final_path arg = None →
  benign env →
  GetUTXOStats env = StatsOk stats → LookupBlockIndex env (hashBlock stats) = Some tip →
  ∃ res w1, dumptxoutset arg env w = (Ok res, w1).
Proof.
  intros Hne Hnone (Hfo & Hi & Hw & Hcl) Hstats Htip.
  rewrite dumptxoutset_free by done. rewrite Hfo. cbv beta zeta. rewrite export_run.
  set (w0 := opened (temp_path arg) w).
  destruct (CreateUTXOSnapshot_benign env (temp_path arg) w0 stats tip [] []
              Hi Hw Hstats Htip) as (res & w1 & Hrun);
    [subst w0; apply lookup_insert_eq..|].
  rewrite Hrun.
  apply CreateUTXOSnapshot_Ok in Hrun as (? & ? & content & _ & _ & _ & Hc & _);
    [|subst w0; apply lookup_insert_eq..].
  rewrite Hc. by eexists _, _.
Qed.
End dumptxoutset.

End SnapshotFacts.

(** ** The snapshot export: publication and counts *)
Module SnapshotClaims.
Import Snapshot SnapshotFacts.

Lemma decoded_count_all pcursor :
  Forall decodable pcursor → decoded_count pcursor = Z.of_nat (length pcursor).
Proof.
  unfold decoded_count. intros Hall. f_equal.
  induction Hall as [|e rest He Hall IH]; [done|].
  rewrite (filter_cons_True decodable) by done. rewrite !length_cons.
  f_equal. exact IH.
Qed.

(** C8.  An export whose final path exists throws the "already exists"
    error and leaves the world as it found it: the files are unchanged (no
    temporary file is opened) and no operation is added to those performed
    before, so that none of flush, stats, cursor and block index lookup of
    the coordination window takes place. *)
Theorem existing_path_rejected (AbsPathJoin : string → string → string)
    (datadir arg : string) (env : ExportEnv) (w : xworld) :
  is_Some (files w !! final_path AbsPathJoin datadir arg) →
  let r := dumptxoutset AbsPathJoin datadir arg env w in
  r.1 = Raise (JSONRPCError RPC_INVALID_PARAMETER
                 (final_path AbsPathJoin datadir arg
                  +:+ " already exists. If you are sure this is what you want, "
                  +:+ "move it out of the way first")) ∧
  files r.2 = files w ∧
  ops r.2 = ops w.
Proof.
  intros Hex r. subst r.
  unfold dumptxoutset, bind, fs_exists. simpl.
  rewrite bool_decide_eq_true_2 by exact Hex.
  repeat split.
Qed.

Lemma existing_path_rejected_witness :
  let r := dumptxoutset Examples.abs_path_join "/data" "utxo.dat"
             (Examples.export_env (entry_of <$> Examples.store3) 3) Examples.one_file in
  is_Some (files Examples.one_file !! final_path Examples.abs_path_join "/data" "utxo.dat") ∧
  files r.2 = files Examples.one_file ∧ ops r.2 = [].
Proof.
  intros r.
  assert (H : is_Some (files Examples.one_file
                         !! final_path Examples.abs_path_join "/data" "utxo.dat")).
  { exists []. vm_compute. reflexivity. }
  split; [exact H|].
  exact (proj2 (existing_path_rejected Examples.abs_path_join "/data" "utxo.dat"
                  (Examples.export_env (entry_of <$> Examples.store3) 3)
                  Examples.one_file H)).
Defined.

(** C3, at an input where the code breaks it.  An export of three coins
    to a free path: the stream has written the header and the first
    record out and holds the two other records in its buffer when the
    writer closes it, and the close fails before it has written any of
    them.  The failure of the close is not looked at (line 3393) and the
    rename is unconditional (line 3334): the export succeeds and reports
    3 coins written, the temporary path is gone, and the final path holds
    a partial file, the header and 1 record, although the record stream
    did not complete. *)
Example failed_close_publishes_partial_file :
  let cursor := entry_of <$> Examples.store3 in
  let r := dumptxoutset Examples.abs_path_join "/data" "utxo.dat"
             (Examples.failing_close_env cursor 3 3) Examples.no_files in
  r.1 = Ok {| snapshot := {| coins_written := 3;
                             base_hash := BlockIndex.GetBlockHash Examples.tip0;
                             base_height := 100 |};
              path := "/data/utxo.dat" |} ∧
  head (ops r.2) = Some (OpRename "/data/utxo.dat.incomplete" "/data/utxo.dat") ∧
  files r.2 !! "/data/utxo.dat.incomplete" = None ∧
  files r.2 !! "/data/utxo.dat"
    = Some [ IMetadata {| m_base_blockhash := BlockIndex.GetBlockHash Examples.tip0;
                          m_coins_count := 3; m_nchaintx := 1234 |};
             IOutPoint (Examples.outpoint_at 256 0);
             ICoin (Examples.coin_of 10 Examples.script_a 5) ] ∧
  records_written <$> files r.2 !! "/data/utxo.dat" = Some 1 ∧
  decoded_count cursor = 3.
Proof. vm_compute. repeat split. Qed.

(** X16.  What does hold of the publication.  When the temporary path
    differs from the final path, an export performs a sequence [steps] of
    operations such that: every open, write and close of a stream is on
    the temporary path; after every proper prefix of [steps] the file at
    the final path is what it was before the export; when the export
    fails, by any exception at any point, this also holds at the end and
    no operation touched the final path; when it succeeds, the final path
    was free, the last operation is the rename of the temporary path to
    the final path, the temporary path is gone, and the file at the final
    path is a prefix of the header followed by the records of the whole
    cursor: the whole of it when the close wrote the buffer out. *)
Theorem final_path_untouched_until_rename (AbsPathJoin : string → string → string)
    (datadir arg : string) (env : ExportEnv) (w : xworld) :
  final_path AbsPathJoin datadir arg ≠ temp_path AbsPathJoin datadir arg →
  let final := final_path AbsPathJoin datadir arg in
  let temp := temp_path AbsPathJoin datadir arg in
  let r := dumptxoutset AbsPathJoin datadir arg env w in
  ∃ steps,
    ops r.2 = reverse steps ++ ops w ∧
    on_disk r.2 = replay steps (on_disk w) ∧
    (∀ q xs, OpFopen q ∈ steps ∨ OpWriteOut q xs ∈ steps ∨ OpFclose q xs ∈ steps →
             q = temp) ∧
    (∀ k, (k < length steps)%nat →
          (replay (take k steps) (on_disk w)).1 !! final = files w !! final) ∧
    (∀ e, r.1 = Raise e →
          files r.2 !! final = files w !! final ∧
          Forall (λ o, ¬ touches final o) steps) ∧
    (∀ res, r.1 = Ok res →
          files w !! final = None ∧
          last steps = Some (OpRename temp final) ∧
          files r.2 !! temp = None ∧
          ∃ stats tip content,
            GetUTXOStats env = StatsOk stats ∧
            LookupBlockIndex env (hashBlock stats) = Some tip ∧
            files r.2 !! final = Some content ∧
            content `prefix_of`
              (IMetadata {| m_base_blockhash := BlockIndex.GetBlockHash tip;
                            m_coins_count := coins_count stats;
                            m_nchaintx := BlockIndex.nChainTx tip |}
               :: body_of (Cursor env)) ∧
            (fclose_fails env = None →
             content = IMetadata {| m_base_blockhash := BlockIndex.GetBlockHash tip;
                                    m_coins_count := coins_count stats;
                                    m_nchaintx := BlockIndex.nChainTx tip |}
                       :: body_of (Cursor env))).
Proof.
  intros Hne final temp r.
  destruct (dumptxoutset_spec AbsPathJoin datadir arg env w Hne) as (new & Ho & Hf & Hcase).
  fold r in Ho, Hf, Hcase. fold final in Hcase. fold temp in Hcase.
  assert (Hwrite : ∀ l, Forall (export_op AbsPathJoin datadir arg) l →
                        ∀ q xs, OpFopen q ∈ l ∨ OpWriteOut q xs ∈ l ∨ OpFclose q xs ∈ l →
                                q = temp).
  { intros l Hall q xs Hin. rewrite Forall_forall in Hall.
    destruct Hin as [Hin|[Hin|Hin]]; destruct (Hall _ Hin) as [Hw|Hw];
      try exact Hw; try done.
    by injection Hw. }
  assert (Hsafe : ∀ l, Forall (export_op AbsPathJoin datadir arg) l →
                       Forall (λ o, ¬ touches final o) l).
  { intros l Hall. eapply Forall_impl; [exact Hall|].
    intros o. by apply export_op_untouched. }
  exists (reverse new). rewrite reverse_involutive.
  split; [exact Ho|]. split; [exact Hf|].
  destruct r.1 as [res|e] eqn:Hres.
  - destruct Hcase as (Hnone & init & stats & tip & content & -> & Hinit & Hstats & Htip
                       & _ & Hc & Hpre & Hfull & Ht).
    rewrite reverse_cons. split; [|split; [|split]].
    + intros q xs Hin. apply (Hwrite _ Hinit q xs).
      rewrite !elem_of_app, !list_elem_of_singleton, !elem_of_reverse in Hin.
      destruct Hin as [[Hin|Hin]|[[Hin|Hin]|[Hin|Hin]]]; try done; tauto.
    + intros k Hk. rewrite length_app, length_reverse in Hk. simpl in Hk.
      rewrite take_app_le by (rewrite length_reverse; lia).
      apply (replay_untouched final), Forall_take, Forall_reverse. by apply Hsafe.
    + done.
    + intros res0 _. split; [done|]. split; [by rewrite last_snoc|]. split; [done|].
      by exists stats, tip, content.
  - split; [|split; [|split]].
    + intros q xs Hin. apply (Hwrite _ Hcase q xs).
      by rewrite !elem_of_reverse in Hin.
    + intros k _. apply (replay_untouched final), Forall_take, Forall_reverse.
      by apply Hsafe.
    + intros e0 _. split.
      * change (files r.2) with (on_disk r.2).1. rewrite Hf.
        apply (replay_untouched final), Forall_reverse. by apply Hsafe.
      * apply Forall_reverse. by apply Hsafe.
    + done.
Qed.

Lemma final_path_untouched_until_rename_witness :
  let final := final_path Examples.abs_path_join "/data" "utxo.dat" in
  let temp := temp_path Examples.abs_path_join "/data" "utxo.dat" in
  let r := dumptxoutset Examples.abs_path_join "/data" "utxo.dat"
             (Examples.interrupted_env (entry_of <$> Examples.store3) 3 0)
             Examples.no_files in
  final ≠ temp ∧
  ∃ steps, ops r.2 = reverse steps ++ [] ∧
           (∀ k, (k < length steps)%nat →
                 (replay (take k steps) (∅, 0%nat)).1 !! final
                 = (∅ : gmap string file) !! final) ∧
           (∀ e, r.1 = Raise e → files r.2 !! final = (∅ : gmap string file) !! final ∧
                 Forall (λ o, ¬ touches final o) steps).
Proof.
  intros final temp r.
  assert (Hne : final ≠ temp).
  { apply (bool_decide_unpack _). vm_compute. exact I. }
  split; [exact Hne|].
  destruct (final_path_untouched_until_rename Examples.abs_path_join "/data" "utxo.dat"
              (Examples.interrupted_env (entry_of <$> Examples.store3) 3 0)
              Examples.no_files Hne) as (steps & H1 & _ & _ & H4 & H5 & _).
  exists steps. split; [exact H1|]. split; [exact H4|exact H5].
Defined.

(** An export interrupted at its first record: the temporary file holds
    the header only and the final path does not exist. *)
Example interrupted_export_leaves_final_path_absent :
  let r := dumptxoutset Examples.abs_path_join "/data" "utxo.dat"
             (Examples.interrupted_env (entry_of <$> Examples.store3) 3 0)
             Examples.no_files in
  r.1 = Raise InterruptionError ∧
  files r.2 !! "/data/utxo.dat" = None ∧
  length <$> files r.2 !! "/data/utxo.dat.incomplete" = Some 1%nat.
Proof. vm_compute. repeat split. Qed.

(** C2, as the code has it.  An export that succeeds leaves a file at the
    final path; when the close of its stream wrote the buffer out, the
    count of the header of that file is the count the stats call
    returned, and the number of records of its body is the number of
    records of the cursor that decode.  The two agree when every record
    of the cursor decodes and the stats call counted the records of the
    cursor.  Nothing compares them: whatever the count of the stats call,
    an export that nothing disturbs succeeds. *)
Theorem snapshot_counts (AbsPathJoin : string → string → string)
    (datadir arg : string) (env : ExportEnv) (w : xworld) :
  final_path AbsPathJoin datadir arg ≠ temp_path AbsPathJoin datadir arg →
  let r := dumptxoutset AbsPathJoin datadir arg env w in
  (∀ res, r.1 = Ok res →
     ∃ stats content,
       GetUTXOStats env = StatsOk stats ∧
       files r.2 !! final_path AbsPathJoin datadir arg = Some content ∧
       (fclose_fails env = None →
        header_count content = Some (coins_count stats) ∧
        records_written content = decoded_count (Cursor env) ∧
        (Forall decodable (Cursor env) →
         coins_count stats = Z.of_nat (length (Cursor env)) →
         records_written content = coins_count stats))) ∧
  (∀ stats tip,
     files w !! final_path AbsPathJoin datadir arg = None → benign env →
     GetUTXOStats env = StatsOk stats →
     LookupBlockIndex env (hashBlock stats) = Some tip →
     ∃ res, r.1 = Ok res).
Proof.
  intros Hne r. split.
  - intros res Hres.
    destruct (dumptxoutset_spec AbsPathJoin datadir arg env w Hne) as (new & _ & _ & Hcase).
    fold r in Hcase. rewrite Hres in Hcase.
    destruct Hcase as (_ & init & stats & tip & content & _ & _ & Hstats & _ & _ & Hc
                       & _ & Hfull & _).
    exists stats, content. split; [done|]. split; [exact Hc|].
    intros Hcl. rewrite (Hfull Hcl). split; [done|].
    rewrite records_written_body. split; [done|].
    intros Hall Hcount. by rewrite decoded_count_all.
  - intros stats tip Hnone Hb Hstats Htip.
    destruct (dumptxoutset_benign AbsPathJoin datadir arg env w stats tip
                Hne Hnone Hb Hstats Htip) as (res & w1 & Hrun).
    exists res. subst r. by rewrite Hrun.
Qed.

Lemma snapshot_counts_witness :
  final_path Examples.abs_path_join "/data" "utxo.dat"
    ≠ temp_path Examples.abs_path_join "/data" "utxo.dat" ∧
  ∃ res, (dumptxoutset Examples.abs_path_join "/data" "utxo.dat"
            (Examples.export_env (entry_of <$> Examples.store3) 3) Examples.no_files).1
         = Ok res.
Proof.
  assert (Hne : final_path Examples.abs_path_join "/data" "utxo.dat"
                ≠ temp_path Examples.abs_path_join "/data" "utxo.dat").
  { apply (bool_decide_unpack _). vm_compute. exact I. }
  split; [exact Hne|].
  refine (proj2 (snapshot_counts Examples.abs_path_join "/data" "utxo.dat"
                   (Examples.export_env (entry_of <$> Examples.store3) 3)
                   Examples.no_files Hne)
            _ Examples.tip0 eq_refl _ eq_refl eq_refl).
  split; [reflexivity|]. split; [intros; reflexivity|]. split; [intros; discriminate|].
  reflexivity.
Defined.

(** C2 as the specification states it fails.  The stats call counted
    five coins and the cursor holds three: the export succeeds with a
    header count of 5 over a body of 3 records.  The stats call counted
    three coins and the second record of the cursor does not decode: the
    export succeeds with a header count of 3 over a body of 2 records.
    In both every write reached the file and the close succeeded. *)
Lemma snapshot_count_mismatch_undetected :
  let r := dumptxoutset Examples.abs_path_join "/data" "utxo.dat"
             (Examples.export_env (entry_of <$> Examples.store3) 5) Examples.no_files in
  let r1 := dumptxoutset Examples.abs_path_join "/data" "utxo.dat"
              (Examples.export_env Examples.corrupt_cursor 3) Examples.no_files in
  (r.1 = Ok {| snapshot := {| coins_written := 5;
                              base_hash := BlockIndex.GetBlockHash Examples.tip0;
                              base_height := 100 |};
               path := "/data/utxo.dat" |} ∧
   header_count <$> files r.2 !! "/data/utxo.dat" = Some (Some 5) ∧
   records_written <$> files r.2 !! "/data/utxo.dat" = Some 3) ∧
  (r1.1 = Ok {| snapshot := {| coins_written := 3;
                               base_hash := BlockIndex.GetBlockHash Examples.tip0;
                               base_height := 100 |};
                path := "/data/utxo.dat" |} ∧
   header_count <$> files r1.2 !! "/data/utxo.dat" = Some (Some 3) ∧
   records_written <$> files r1.2 !! "/data/utxo.dat" = Some 2).
Proof. vm_compute. repeat split. Qed.

(** C10.  In the streaming loop a record whose key or value does not
    decode is passed over: the loop goes on with the next record, having
    written nothing and raised nothing.  What an export that succeeds has
    passed through its stream is therefore the header and the records
    that decode, in cursor order: the file it publishes is a prefix of
    them, and the whole of them when the close wrote the buffer out; and
    the [coins_written] it reports is the count of the stats call,
    whatever the cursor held and whatever was written. *)
Theorem undecodable_record_skipped (AbsPathJoin : string → string → string)
    (datadir arg : string) (env : ExportEnv) (w : xworld) :
  final_path AbsPathJoin datadir arg ≠ temp_path AbsPathJoin datadir arg →
  let r := dumptxoutset AbsPathJoin datadir arg env w in
  (∀ afile e rest iter i, ¬ decodable e →
     stream env afile (e :: rest) iter i =
       bind (if iter mod 5000 =? 0
             then (if rpc_interruption_point env i
                   then raise InterruptionError else ret tt)
             else ret tt)
            (λ _, stream env afile rest (wrap_uint32 (iter + 1)) (S i))) ∧
  (∀ c1 e c2, ¬ decodable e → body_of (c1 ++ e :: c2) = body_of c1 ++ body_of c2) ∧
  (∀ res, r.1 = Ok res →
     ∃ stats m content,
       GetUTXOStats env = StatsOk stats ∧
       coins_written (snapshot res) = coins_count stats ∧
       files r.2 !! final_path AbsPathJoin datadir arg = Some content ∧
       content `prefix_of` (IMetadata m :: body_of (Cursor env)) ∧
       (fclose_fails env = None → content = IMetadata m :: body_of (Cursor env)) ∧
       records_written (IMetadata m :: body_of (Cursor env)) = decoded_count (Cursor env)) ∧
  (∀ stats tip,
     files w !! final_path AbsPathJoin datadir arg = None → benign env →
     GetUTXOStats env = StatsOk stats →
     LookupBlockIndex env (hashBlock stats) = Some tip →
     ∃ res, r.1 = Ok res ∧ coins_written (snapshot res) = coins_count stats).
Proof.
  intros Hne r. split; [|split; [|split]].
  - intros afile e rest iter i Hd. by apply stream_skip.
  - intros c1 e c2 Hd. by apply body_of_skip.
  - intros res Hres.
    destruct (dumptxoutset_spec AbsPathJoin datadir arg env w Hne) as (new & _ & _ & Hcase).
    fold r in Hcase. rewrite Hres in Hcase.
    destruct Hcase as (_ & init & stats & tip & content & _ & _ & Hstats & _ & -> & Hc
                       & Hpre & Hfull & _).
    eexists stats, _, content. split; [done|]. split; [done|]. split; [exact Hc|].
    split; [exact Hpre|]. split; [exact Hfull|].
    apply records_written_body.
  - intros stats tip Hnone Hb Hstats Htip.
    destruct (dumptxoutset_benign AbsPathJoin datadir arg env w stats tip
                Hne Hnone Hb Hstats Htip) as (res & w1 & Hrun).
    exists res. subst r. rewrite Hrun. split; [done|].
    destruct (dumptxoutset_spec AbsPathJoin datadir arg env w Hne) as (new & _ & _ & Hcase).
    rewrite Hrun in Hcase. simpl in Hcase.
    destruct Hcase as (_ & init & stats' & tip' & content & _ & _ & Hstats' & _ & -> & _).
    simpl. congruence.
Qed.

Lemma undecodable_record_skipped_witness :
  final_path Examples.abs_path_join "/data" "utxo.dat"
    ≠ temp_path Examples.abs_path_join "/data" "utxo.dat" ∧
  ∃ res, (dumptxoutset Examples.abs_path_join "/data" "utxo.dat"
            (Examples.export_env Examples.corrupt_cursor 3) Examples.no_files).1 = Ok res ∧
         coins_written (snapshot res) = 3.
Proof.
  assert (Hne : final_path Examples.abs_path_join "/data" "utxo.dat"
                ≠ temp_path Examples.abs_path_join "/data" "utxo.dat").
  { apply (bool_decide_unpack _). vm_compute. exact I. }
  split; [exact Hne|].
  refine (proj2 (proj2 (proj2
            (undecodable_record_skipped Examples.abs_path_join "/data" "utxo.dat"
               (Examples.export_env Examples.corrupt_cursor 3) Examples.no_files Hne)))
            _ Examples.tip0 eq_refl _ eq_refl eq_refl).
  split; [reflexivity|]. split; [intros; reflexivity|]. split; [intros; discriminate|].
  reflexivity.
Defined.

(** The file of that export: the header, then the first and the third
    record. *)
Example export_skips_corrupt_record :
  files (dumptxoutset Examples.abs_path_join "/data" "utxo.dat"
           (Examples.export_env Examples.corrupt_cursor 3) Examples.no_files).2
    !! "/data/utxo.dat"
  = Some [ IMetadata {| m_base_blockhash := BlockIndex.GetBlockHash Examples.tip0;
                        m_coins_count := 3; m_nchaintx := 1234 |};
           IOutPoint (Examples.outpoint_at 256 0);
           ICoin (Examples.coin_of 10 Examples.script_a 5);
           IOutPoint (Examples.outpoint_at 65535 0);
           ICoin (Examples.coin_of 30 Examples.script_a 7) ].
Proof. vm_compute. reflexivity. Qed.

End SnapshotClaims.

(** ** The actions at the edges: a running scan, bad requests *)
Module ActionEdges.
Import Scan ScanTxOutSet ScanFacts ReserverFacts Reserver.

Section actions.
Variable scanobject : Type.
Variable EvalDescriptorStringOrObject : scanobject → result (list CScript).
Variable InferDescriptor : scanobject → CScript → string.

Local Abbreviation scantxoutset :=
  (scantxoutset scanobject EvalDescriptorStringOrObject InferDescriptor).
Local Abbreviation expand_scanobjects :=
  (expand_scanobjects scanobject EvalDescriptorStringOrObject InferDescriptor).

(** X1.  A [status] while a scan holds the reservation reports the
    progress value stored last; it changes none of the three atomics, and
    its only accesses are the exchange and the load of the progress. *)
Theorem status_during_scan objs env g tr :
  g_scan_in_progress g = true →
  scantxoutset "status" objs env (g, tr) =
    (Ok (VProgress (g_scan_progress g)),
     (g, EvLoadProgress (g_scan_progress g) :: EvExchangeInProgress true :: tr)).
Proof.
  intros Hi. unfold scantxoutset, ScanTxOutSet.scantxoutset. simpl.
  by rewrite scoped_busy.
Qed.

(** X2.  An [abort] while a scan holds the reservation returns [true]
    and stores [true] to the abort flag; the reservation and the progress
    value stay as they are. *)
Theorem abort_during_scan objs env g tr :
  g_scan_in_progress g = true →
  scantxoutset "abort" objs env (g, tr) =
    (Ok (VBool true),
     (set_should_abort true g, EvStoreAbort true :: EvExchangeInProgress true :: tr)).
Proof.
  intros Hi. unfold scantxoutset, ScanTxOutSet.scantxoutset. simpl.
  by rewrite scoped_busy.
Qed.

(** X3.  An action other than the three known ones throws "Invalid
    command" without any access to the atomics: no reservation is
    attempted. *)
Theorem unknown_action_rejected action objs env w :
  action ≠ "status" → action ≠ "abort" → action ≠ "start" →
  scantxoutset action objs env w =
    (Raise (JSONRPCError RPC_INVALID_PARAMETER "Invalid command"), w).
Proof.
  intros Hs Ha Ht. unfold scantxoutset, ScanTxOutSet.scantxoutset.
  apply String.eqb_neq in Hs, Ha, Ht. by rewrite Hs, Ha, Ht.
Qed.

(** X4.  A handler that finds the in-progress flag clear while the
    progress value is not zero (the state between the two stores of
    another destructor) fails its internal check after the exchange: it
    throws, owns nothing, and leaves the flag set.  A [start] that follows
    is refused as if a scan were running. *)
Theorem nonzero_progress_blocks_reservation action objs env g tr :
  action = "status" ∨ action = "abort" ∨ action = "start" →
  g_scan_in_progress g = false → g_scan_progress g ≠ 0 →
  let r := scantxoutset action objs env (g, tr) in
  r = (Raise NonFatalCheckError,
       (set_in_progress true g,
        EvLoadProgress (g_scan_progress g) :: EvExchangeInProgress false :: tr)) ∧
  (scantxoutset "start" objs env r.2).1 =
    Raise (JSONRPCError RPC_INVALID_PARAMETER
             "Scan already in progress, use action 'abort' or 'status'").
Proof.
  intros Ha Hi Hp r.
  assert (r = (Raise NonFatalCheckError,
               (set_in_progress true g,
                EvLoadProgress (g_scan_progress g) :: EvExchangeInProgress false :: tr)))
    as Hr.
  { subst r. unfold scantxoutset, ScanTxOutSet.scantxoutset.
    apply Z.eqb_neq in Hp.
    destruct Ha as [-> | [-> | ->]]; simpl;
      unfold scoped, reserve, bind, CHECK_NONFATAL, exchange_in_progress,
        load_progress, ret, raise, fresh, destroy; simpl;
      rewrite Hi; simpl; by rewrite Hp. }
  split; [done|]. rewrite Hr.
  change (Raise NonFatalCheckError, ?w).2 with w.
  by rewrite HandlerFacts.start_busy.
Qed.

(** X5.  A [start] without scan objects takes the reservation, throws
    the "scanobjects argument is required" error and gives the
    reservation back: the three atomics end as they were, and the abort
    flag is never stored to. *)
Theorem start_without_scanobjects env g tr :
  g_scan_in_progress g = false → g_scan_progress g = 0 →
  scantxoutset "start" None env (g, tr) =
    (Raise (JSONRPCError RPC_MISC_ERROR
              "scanobjects argument is required for the start action"),
     (g, EvStoreProgress 0 :: EvStoreInProgress false
         :: EvLoadProgress 0 :: EvExchangeInProgress false :: tr)).
Proof.
  intros Hi Hp. unfold scantxoutset, ScanTxOutSet.scantxoutset. simpl.
  rewrite scoped_idle by done. simpl. by rewrite HandlerFacts.idle_released.
Qed.

Lemma expand_scanobjects_first_error pre obj post e nd :
  Forall (λ o, ∃ scripts, EvalDescriptorStringOrObject o = Ok scripts) pre →
  EvalDescriptorStringOrObject obj = Raise e →
  expand_scanobjects (pre ++ obj :: post) nd = Raise e.
Proof.
  intros Hpre Hobj. revert nd.
  induction Hpre as [|o pre [scripts Ho] _ IH]; intros nd; simpl.
  - by rewrite Hobj.
  - rewrite Ho. apply IH.
Qed.

(** X6.  A [start] one of whose descriptors is malformed throws the
    error of the first such descriptor before the abort flag is cleared
    and before the cursor is read; the reservation is given back and the
    three atomics end as they were. *)
Theorem start_bad_descriptor pre obj post e env g tr :
  g_scan_in_progress g = false → g_scan_progress g = 0 →
  Forall (λ o, ∃ scripts, EvalDescriptorStringOrObject o = Ok scripts) pre →
  EvalDescriptorStringOrObject obj = Raise e →
  scantxoutset "start" (Some (pre ++ obj :: post)) env (g, tr) =
    (Raise e,
     (g, EvStoreProgress 0 :: EvStoreInProgress false
         :: EvLoadProgress 0 :: EvExchangeInProgress false :: tr)).
Proof.
  intros Hi Hp Hpre Hobj. unfold scantxoutset, ScanTxOutSet.scantxoutset. simpl.
  rewrite scoped_idle by done. simpl.
  unfold start_body, bind, lift.
  rewrite (expand_scanobjects_first_error pre obj post e) by done.
  simpl. by rewrite HandlerFacts.idle_released.
Qed.

End actions.
Lemma status_during_scan_witness :
  g_scan_in_progress Samples.scanning = true ∧
  ScanTxOutSet.scantxoutset CScript Examples.eval_raw Examples.infer_raw "status" None
    (Examples.quiet_env []) (Samples.scanning, []) =
  (Ok (VProgress 37),
   (Samples.scanning, [EvLoadProgress 37; EvExchangeInProgress true])).
Proof.
  split; [reflexivity|].
  exact (status_during_scan CScript Examples.eval_raw Examples.infer_raw None
           (Examples.quiet_env []) Samples.scanning [] eq_refl).
Defined.

Lemma abort_during_scan_witness :
  g_scan_in_progress Samples.scanning = true ∧
  ScanTxOutSet.scantxoutset CScript Examples.eval_raw Examples.infer_raw "abort" None
    (Examples.quiet_env []) (Samples.scanning, []) =
  (Ok (VBool true),
   (set_should_abort true Samples.scanning,
    [EvStoreAbort true; EvExchangeInProgress true])).
Proof.
  split; [reflexivity|].
  exact (abort_during_scan CScript Examples.eval_raw Examples.infer_raw None
           (Examples.quiet_env []) Samples.scanning [] eq_refl).
Defined.

Lemma unknown_action_rejected_witness :
  ScanTxOutSet.scantxoutset CScript Examples.eval_raw Examples.infer_raw "stop" None
    (Examples.quiet_env []) (Samples.scanning, []) =
  (Raise (JSONRPCError RPC_INVALID_PARAMETER "Invalid command"), (Samples.scanning, [])).
Proof.
  apply (unknown_action_rejected CScript Examples.eval_raw Examples.infer_raw "stop" None
           (Examples.quiet_env []) (Samples.scanning, [])); discriminate.
Defined.

Lemma nonzero_progress_blocks_reservation_witness :
  let r := ScanTxOutSet.scantxoutset CScript Examples.eval_raw Examples.infer_raw "status"
             None (Examples.quiet_env []) (Samples.releasing, []) in
  g_scan_in_progress Samples.releasing = false ∧ g_scan_progress Samples.releasing ≠ 0 ∧
  r.1 = Raise NonFatalCheckError ∧ g_scan_in_progress r.2.1 = true.
Proof.
  intros r.
  assert (Hp : g_scan_progress Samples.releasing ≠ 0) by discriminate.
  split; [reflexivity|]. split; [exact Hp|].
  pose proof (nonzero_progress_blocks_reservation CScript Examples.eval_raw
                Examples.infer_raw "status" None (Examples.quiet_env [])
                Samples.releasing [] (or_introl eq_refl) eq_refl Hp) as H.
  cbv zeta in H. destruct H as [H _]. fold r in H. rewrite H. split; reflexivity.
Defined.

Lemma start_without_scanobjects_witness :
  g_scan_in_progress Examples.idle = false ∧ g_scan_progress Examples.idle = 0 ∧
  ScanTxOutSet.scantxoutset CScript Examples.eval_raw Examples.infer_raw "start" None
    (Examples.quiet_env []) (Examples.idle, []) =
  (Raise (JSONRPCError RPC_MISC_ERROR
            "scanobjects argument is required for the start action"),
   (Examples.idle, [EvStoreProgress 0; EvStoreInProgress false;
                    EvLoadProgress 0; EvExchangeInProgress false])).
Proof.
  split; [reflexivity|]. split; [reflexivity|].
  exact (start_without_scanobjects CScript Examples.eval_raw Examples.infer_raw
           (Examples.quiet_env []) Examples.idle [] eq_refl eq_refl).
Defined.

Lemma start_bad_descriptor_witness :
  (ScanTxOutSet.scantxoutset CScript Samples.eval_checked Examples.infer_raw "start"
     (Some ([Examples.script_a] ++ [] :: [Examples.script_b]))
     (Examples.quiet_env (entry_of <$> Examples.store3)) (Examples.idle, [])) =
  (Raise (JSONRPCError RPC_INVALID_ADDRESS_OR_KEY "empty descriptor"),
   (Examples.idle, [EvStoreProgress 0; EvStoreInProgress false;
                    EvLoadProgress 0; EvExchangeInProgress false])).
Proof.
  apply (start_bad_descriptor CScript Samples.eval_checked Examples.infer_raw
           [Examples.script_a] [] [Examples.script_b]).
  - reflexivity.
  - reflexivity.
  - apply Forall_singleton. exists [Examples.script_a]. reflexivity.
  - reflexivity.
Defined.

End ActionEdges.

(** ** What a scan reports *)
Module ScanResults.
Import Scan ScanTxOutSet ScanFacts ReserverFacts Reserver.

Lemma emplace_lookup `{Countable K} {V} (k k' : K) (v v' : V) (m : gmap K V) :
  emplace k v m !! k' = Some v' → m !! k' = Some v' ∨ (m !! k' = None ∧ k' = k ∧ v' = v).
Proof.
  unfold emplace. destruct (m !! k) as [old|] eqn:Hk; [by left|].
  destruct (decide (k' = k)) as [->|Hne].
  - rewrite lookup_insert_eq. intros [= <-]. by right.
  - rewrite lookup_insert_ne by done. by left.
Qed.

Lemma emplace_size `{Countable K} {V} (k : K) (v : V) (m : gmap K V) :
  (size (emplace k v m) ≤ S (size m))%nat.
Proof.
  unfold emplace. destruct (m !! k) as [old|] eqn:Hk; [lia|].
  rewrite map_size_insert_None by done. lia.
Qed.

Section scan.
Variable interruption_point : Z → bool.
Variable abort_request : Z → bool.
Variable needles : gset CScript.

Local Abbreviation loop_body := (loop_body interruption_point abort_request needles).
Local Abbreviation scan_loop := (scan_loop interruption_point abort_request needles).

Lemma add_match_lookup m kc key coin :
  add_match needles m kc !! key = Some coin →
  m !! key = Some coin ∨
  (m !! key = None ∧ kc = (key, coin) ∧ scriptPubKey (out coin) ∈ needles).
Proof.
  unfold add_match. destruct kc as [k c]. simpl.
  destruct (decide (scriptPubKey (out c) ∈ needles)) as [Hin|Hout]; [|by left].
  intros Hl. apply emplace_lookup in Hl as [Hl|(Hn & -> & ->)]; [by left|by right].
Qed.

Lemma add_match_size m kc : (size (add_match needles m kc) ≤ S (size m))%nat.
Proof.
  unfold add_match. destruct (decide _); [apply emplace_size|lia].
Qed.

(** One iteration whatever the record and the environment: [count]
    grows by at most one, the result map by at most the record, and only
    when the iteration goes on. *)
Lemma loop_body_sound e st :
  0 ≤ count st < INT64_MAX →
  let st1 := state_of (loop_body e st) in
  count st ≤ count st1 ≤ count st + 1 ∧
  Z.of_nat (size (out_results st1)) - Z.of_nat (size (out_results st))
    ≤ count st1 - count st ∧
  (∀ key coin, out_results st1 !! key = Some coin →
     out_results st !! key = Some coin ∨
     (GetKey e = Some key ∧ GetValue e = Some coin ∧
      scriptPubKey (out coin) ∈ needles)).
Proof.
  intros Hc st1. subst st1.
  destruct (decide (decodable e)) as [Hd|Hd].
  - apply decodable_entry_of in Hd as [kc ->].
    destruct (loop_body (entry_of kc) st) as [s1|b s1|s1] eqn:Hb; simpl.
    + apply (loop_body_continue _ _ _ _ _ _ Hc) in Hb as (Hc1 & Hr1 & _).
      rewrite Hc1, Hr1. split; [lia|]. split.
      * pose proof (add_match_size (out_results st) kc). lia.
      * intros key coin Hl. apply add_match_lookup in Hl as [Hl|(_ & -> & Hin)];
          [by left|by right].
    + apply (loop_body_return _ _ _ _ _ _ _ Hc) in Hb as (_ & Hc1 & _ & _ & _ & Hr1 & _).
      rewrite Hc1, Hr1. split; [lia|]. split; [lia|]. intros key coin Hl. by left.
    + apply (loop_body_throw _ _ _ _ _ _ Hc) in Hb as (Hc1 & _ & _ & Hr1 & _).
      rewrite Hc1, Hr1. split; [lia|]. split; [lia|]. intros key coin Hl. by left.
  - rewrite loop_body_corrupt by done. simpl.
    split; [lia|]. split; [lia|]. intros key coin Hl. by left.
Qed.

Lemma scan_loop_sound cursor st :
  0 ≤ count st → count st + Z.of_nat (length cursor) ≤ INT64_MAX →
  let r := scan_loop cursor st in
  count st ≤ count r.2 ≤ count st + Z.of_nat (length cursor) ∧
  Z.of_nat (size (out_results r.2)) - Z.of_nat (size (out_results st))
    ≤ count r.2 - count st ∧
  (∀ key coin, out_results r.2 !! key = Some coin →
     out_results st !! key = Some coin ∨
     (∃ e, e ∈ cursor ∧ GetKey e = Some key ∧ GetValue e = Some coin ∧
           scriptPubKey (out coin) ∈ needles)).
Proof.
  revert st. induction cursor as [|e rest IH]; intros st H0 Hmax r; subst r.
  - simpl. split; [lia|]. split; [lia|]. intros key coin Hl. by left.
  - simpl length in Hmax. rewrite Nat2Z.inj_succ in Hmax.
    assert (0 ≤ count st < INT64_MAX) as Hc by lia.
    pose proof (loop_body_sound e st Hc) as (Hc1 & Hs1 & Hl1).
    simpl. destruct (loop_body e st) as [s1|b s1|s1] eqn:Hb; simpl in *.
    + destruct (IH s1) as (Hc2 & Hs2 & Hl2); [lia|lia|].
      split; [lia|]. split; [lia|].
      intros key coin Hl. apply Hl2 in Hl as [Hl|(e' & Hin & Hk & Hv & Hn)].
      * apply Hl1 in Hl as [Hl|(Hk & Hv & Hn)]; [by left|].
        right. exists e. split; [left|done].
      * right. exists e'. split; [by right|done].
    + split; [lia|]. split; [lia|].
      intros key coin Hl. apply Hl1 in Hl as [Hl|(Hk & Hv & Hn)]; [by left|].
      right. exists e. split; [left|done].
    + split; [lia|]. split; [lia|].
      intros key coin Hl. apply Hl1 in Hl as [Hl|(Hk & Hv & Hn)]; [by left|].
      right. exists e. split; [left|done].
Qed.

Lemma scan_reports_only_matches_aux g tr cursor :
  Z.of_nat (length cursor) ≤ INT64_MAX →
  let r := FindScriptPubKey interruption_point abort_request needles g tr cursor ∅ in
  (∀ key coin, out_results r.2 !! key = Some coin →
     ∃ e, e ∈ cursor ∧ GetKey e = Some key ∧ GetValue e = Some coin ∧
          scriptPubKey (out coin) ∈ needles) ∧
  Z.of_nat (size (out_results r.2)) ≤ count r.2 ≤ Z.of_nat (length cursor).
Proof.
  intros Hmax r. subst r. rewrite FindScriptPubKey_unfold.
  destruct (scan_loop_sound cursor
              {| shared := set_progress 0 g; events := EvStoreProgress 0 :: tr;
                 count := 0; out_results := ∅ |}) as (Hc & Hs & Hl);
    [simpl; lia|simpl; lia|].
  simpl in Hc, Hs, Hl. rewrite map_size_empty in Hs. split; [|lia].
  intros key coin Hk. apply Hl in Hk as [Hk|Hk]; [|done].
  by rewrite lookup_empty in Hk.
Qed.

(** X7.  Whatever the records, the callback and the abort requests, a
    scan started on an empty result map returns only coins that the
    cursor has produced and whose script is a needle; it counts no more
    records than the cursor has, and no fewer than it has matches. *)
Theorem scan_reports_only_matches g tr cursor :
  Z.of_nat (length cursor) ≤ INT64_MAX →
  let r := FindScriptPubKey interruption_point abort_request needles g tr cursor ∅ in
  (∀ key coin, out_results r.2 !! key = Some coin →
     ∃ e, e ∈ cursor ∧ GetKey e = Some key ∧ GetValue e = Some coin ∧
          scriptPubKey (out coin) ∈ needles) ∧
  Z.of_nat (size (out_results r.2)) ≤ count r.2 ≤ Z.of_nat (length cursor).
Proof.
  intros Hmax r. subst r. rewrite FindScriptPubKey_unfold.
  destruct (scan_loop_sound cursor
              {| shared := set_progress 0 g; events := EvStoreProgress 0 :: tr;
                 count := 0; out_results := ∅ |}) as (Hc & Hs & Hl);
    [simpl; lia|simpl; lia|].
  simpl in Hc, Hs, Hl. rewrite map_size_empty in Hs. split; [|lia].
  intros key coin Hk. apply Hl in Hk as [Hk|Hk]; [|done].
  by rewrite lookup_empty in Hk.
Qed.
End scan.

Lemma scan_reports_only_matches_witness :
  let cursor := entry_of <$> Examples.store3 in
  let r := FindScriptPubKey Examples.never Examples.always {[ Examples.script_b ]}
             Examples.idle [] cursor ∅ in
  Z.of_nat (length cursor) ≤ INT64_MAX ∧
  Z.of_nat (size (out_results r.2)) ≤ count r.2 ≤ Z.of_nat (length cursor).
Proof.
  intros cursor r.
  assert (Hlen : Z.of_nat (length cursor) ≤ INT64_MAX) by (vm_compute; discriminate).
  split; [exact Hlen|].
  exact (proj2 (scan_reports_only_matches Examples.never Examples.always
                  {[ Examples.script_b ]} Examples.idle [] cursor Hlen)).
Defined.

End ScanResults.

(** ** The order of the reported unspents and their total *)
Module ReportFacts.
Import Scan ScanTxOutSet ScanFacts ReserverFacts Reserver.

Lemma byte_val_inj x y : byte_val x = byte_val y → x = y.
Proof.
  unfold byte_val. intros Hxy. apply N2Z.inj in Hxy.
  apply (f_equal Byte.of_N) in Hxy. rewrite !Byte.of_to_N in Hxy. congruence.
Qed.

Lemma bytes_compare_eq a b : bytes_compare a b = Eq → a = b.
Proof.
  revert b. induction a as [|x a IH]; intros [|y b]; simpl; try done.
  destruct (Z.compare_spec (byte_val x) (byte_val y)) as [Hxy|Hxy|Hxy]; try done.
  intros Hab. f_equal; [by apply byte_val_inj|by apply IH].
Qed.

Lemma bytes_compare_antisym a b : bytes_compare b a = CompOpp (bytes_compare a b).
Proof.
  revert b. induction a as [|x a IH]; intros [|y b]; simpl; try done.
  rewrite (Z.compare_antisym (byte_val x) (byte_val y)).
  destruct (byte_val x ?= byte_val y); simpl; auto.
Qed.

Lemma bytes_compare_trans c a b d :
  bytes_compare a b = c → bytes_compare b d = c → bytes_compare a d = c.
Proof.
  revert b d. induction a as [|x a IH]; intros [|y b] [|z d]; simpl;
    try congruence.
  destruct (Z.compare_spec (byte_val x) (byte_val y)),
           (Z.compare_spec (byte_val y) (byte_val z)),
           (Z.compare_spec (byte_val x) (byte_val z));
    try lia; try congruence.
  apply IH.
Qed.

Lemma bytes_compare_eq_l a b d :
  bytes_compare a b = Eq → bytes_compare a d = bytes_compare b d.
Proof. intros Hab. by rewrite (bytes_compare_eq a b Hab). Qed.

Lemma outpoint_eq a b : hash a = hash b → n a = n b → a = b.
Proof. destruct a, b. simpl. by intros -> ->. Qed.

(** [outpoint_lt] is a strict total order. *)
Lemma outpoint_lt_trans a b c :
  outpoint_lt a b = true → outpoint_lt b c = true → outpoint_lt a c = true.
Proof.
  unfold outpoint_lt.
  destruct (bytes_compare (hash a) (hash b)) eqn:Hab; try done;
    destruct (bytes_compare (hash b) (hash c)) eqn:Hbc; try done; intros H1 H2.
  - rewrite (bytes_compare_trans Eq _ _ _ Hab Hbc). lia.
  - by rewrite (bytes_compare_eq_l _ _ _ Hab), Hbc.
  - apply bytes_compare_eq in Hbc. by rewrite <- Hbc, Hab.
  - by rewrite (bytes_compare_trans Lt _ _ _ Hab Hbc).
Qed.

Lemma outpoint_lt_total a b :
  outpoint_lt a b = true ∨ a = b ∨ outpoint_lt b a = true.
Proof.
  unfold outpoint_lt. rewrite (bytes_compare_antisym (hash a) (hash b)).
  destruct (bytes_compare (hash a) (hash b)) eqn:Hab; simpl.
  - apply bytes_compare_eq in Hab.
    destruct (Z.lt_trichotomy (n a) (n b)) as [Hn | [Hn | Hn]].
    + left. lia.
    + right. left. by apply outpoint_eq.
    + right. right. lia.
  - by left.
  - by right; right.
Qed.

Lemma outpoint_lt_asym a b : outpoint_lt a b = true → outpoint_lt b a = false.
Proof.
  intros Hab. destruct (outpoint_lt b a) eqn:Hba; [|done].
  pose proof (outpoint_lt_trans _ _ _ Hab Hba) as Haa.
  by rewrite outpoint_lt_irrefl in Haa.
Qed.

#[local] Instance entry_le_total : Total entry_le.
Proof.
  intros x y. unfold entry_le.
  destruct (outpoint_lt_total x.1 y.1) as [H | [H | H]].
  - left. by apply outpoint_lt_asym.
  - left. rewrite H. apply outpoint_lt_irrefl.
  - right. by apply outpoint_lt_asym.
Qed.

#[local] Instance entry_le_trans : Transitive entry_le.
Proof.
  intros x y z. unfold entry_le. intros Hxy Hyz.
  destruct (outpoint_lt z.1 x.1) eqn:Hzx; [|done].
  destruct (outpoint_lt_total x.1 y.1) as [H | [H | H]].
  - pose proof (outpoint_lt_trans _ _ _ Hzx H). congruence.
  - rewrite H in Hzx. congruence.
  - congruence.
Qed.

Lemma entry_le_strict (l : list (COutPoint * Coin)) :
  StronglySorted entry_le l → NoDup l.*1 →
  StronglySorted (λ x y, outpoint_lt x.1 y.1 = true) l.
Proof.
  induction 1 as [|x l Hs IH Hall]; intros Hnd; [constructor|].
  rewrite fmap_cons in Hnd. apply NoDup_cons in Hnd as [Hx Hnd].
  constructor; [by apply IH|].
  rewrite Forall_forall in Hall |- *. intros y Hy.
  specialize (Hall y Hy). unfold entry_le in Hall.
  destruct (outpoint_lt_total x.1 y.1) as [H | [H | H]]; [done| |congruence].
  exfalso. apply Hx. rewrite H. apply list_elem_of_fmap. by exists y.
Qed.

(** Iteration over the result map visits each entry once, in strictly
    increasing key order. *)
Lemma in_key_order_spec (m : gmap COutPoint Coin) :
  in_key_order m ≡ₚ map_to_list m ∧
  StronglySorted (λ x y, outpoint_lt x.1 y.1 = true) (in_key_order m).
Proof.
  unfold in_key_order.
  pose proof (merge_sort_Permutation entry_le (map_to_list m)) as Hperm.
  split; [done|].
  apply entry_le_strict; [apply (StronglySorted_merge_sort entry_le)|].
  rewrite Hperm. apply NoDup_fst_map_to_list.
Qed.

Lemma sum_values_app its1 its2 :
  sum_values (its1 ++ its2) =
    fold_left (λ total_in it, wrap_int64 (total_in + nValue (out it.2))) its2
      (sum_values its1).
Proof. unfold sum_values. by rewrite fold_left_app. Qed.

(** Without overflow the running total is the sum. *)
Lemma fold_values_exact its acc :
  Forall (λ it : COutPoint * Coin, 0 ≤ nValue (out it.2)) its →
  0 ≤ acc →
  acc + foldr Z.add 0 ((λ it : COutPoint * Coin, nValue (out it.2)) <$> its) ≤ INT64_MAX →
  fold_left (λ total_in it, wrap_int64 (total_in + nValue (out it.2))) its acc =
    acc + foldr Z.add 0 ((λ it : COutPoint * Coin, nValue (out it.2)) <$> its).
Proof.
  intros Hall. revert acc. induction Hall as [|it its Hit Hall IH]; intros acc Hacc Hsum.
  - simpl. lia.
  - rewrite fmap_cons in Hsum |- *. cbn [foldr fold_left] in Hsum |- *.
    assert (0 ≤ foldr Z.add 0 ((λ it : COutPoint * Coin, nValue (out it.2)) <$> its)) as Hpos.
    { clear -Hall. induction Hall as [|? ? ? ? IH']; [done|].
      rewrite fmap_cons. cbn [foldr]. lia. }
    rewrite wrap_int64_small by (unfold INT64_MAX in *; lia).
    rewrite IH by lia. lia.
Qed.

Section report.
Variable scanobject : Type.
Variable EvalDescriptorStringOrObject : scanobject → result (list CScript).
Variable InferDescriptor : scanobject → CScript → string.

Local Abbreviation scantxoutset :=
  (scantxoutset scanobject EvalDescriptorStringOrObject InferDescriptor).
Local Abbreviation expand_scanobjects :=
  (expand_scanobjects scanobject EvalDescriptorStringOrObject InferDescriptor).

(** A start that returns a scan result has reserved, expanded its
    descriptors and run the scan to a return. *)
Lemma start_result_inv objs env g tr r :
  g_scan_in_progress g = false → g_scan_progress g = 0 →
  (scantxoutset "start" objs env (g, tr)).1 = Ok (VScan r) →
  ∃ os nd cursor t res st,
    objs = Some os ∧
    expand_scanobjects os (∅, ∅) = Ok nd ∧
    pcursor env = Some cursor ∧ tip env = Some t ∧
    FindScriptPubKey (rpc_interruption_point env) (abort_request env) nd.1
      (set_should_abort false (set_in_progress true g))
      (EvStoreAbort false :: EvLoadProgress 0 :: EvExchangeInProgress false :: tr)
      cursor ∅ = (Returned res, st) ∧
    r = {| success := res;
           txouts := count st;
           height := BlockIndex.nHeight t;
           bestblock := BlockIndex.GetBlockHash t;
           unspents := make_unspent nd.2 <$> in_key_order (out_results st);
           total_amount := sum_values (in_key_order (out_results st)) |}.
Proof.
  intros Hi Hp. unfold scantxoutset, ScanTxOutSet.scantxoutset. simpl.
  rewrite scoped_idle by done. simpl.
  unfold start_body, bind, lift.
  destruct objs as [os|]; [|done]. simpl.
  destruct (expand_scanobjects os (∅, ∅)) as [nd|err] eqn:Hnd; [|done]. simpl.
  destruct (pcursor env) as [cursor|] eqn:Hcur; simpl; [|done].
  destruct (tip env) as [t|] eqn:Htip; simpl; [|done].
  unfold run_scan. simpl.
  destruct (FindScriptPubKey _ _ _ _ _ _ _) as [[res|] st] eqn:Hrun; simpl; [|done].
  intros [= <-]. by exists os, nd, cursor, t, res, st.
Qed.

(** X8.  The unspents of a scan result are the coins that the scan of
    that [start] has collected, each once and none else, in strictly
    increasing key order: they are the image of the one list [its] that
    holds exactly the entries of the result map of the scan and is
    strictly increasing by outpoint.  Each of them is a coin that the
    cursor has produced and whose script is one of the needles expanded
    from the scan objects, and there are at most [txouts] of them. *)
Theorem unspents_in_key_order objs env g tr r :
  g_scan_in_progress g = false → g_scan_progress g = 0 →
  (∀ cursor, pcursor env = Some cursor → Z.of_nat (length cursor) ≤ INT64_MAX) →
  (scantxoutset "start" objs env (g, tr)).1 = Ok (VScan r) →
  ∃ os nd cursor res st its,
    objs = Some os ∧
    expand_scanobjects os (∅, ∅) = Ok nd ∧
    pcursor env = Some cursor ∧
    FindScriptPubKey (rpc_interruption_point env) (abort_request env) nd.1
      (set_should_abort false (set_in_progress true g))
      (EvStoreAbort false :: EvLoadProgress 0 :: EvExchangeInProgress false :: tr)
      cursor ∅ = (Returned res, st) ∧
    unspents r = make_unspent nd.2 <$> its ∧
    (∀ key coin, (key, coin) ∈ its ↔ out_results st !! key = Some coin) ∧
    StronglySorted (λ x y, outpoint_lt x.1 y.1 = true) its ∧
    NoDup its.*1 ∧
    (∀ key coin, (key, coin) ∈ its →
       ∃ e, e ∈ cursor ∧ GetKey e = Some key ∧ GetValue e = Some coin ∧
            scriptPubKey (out coin) ∈ nd.1) ∧
    length (unspents r) = size (out_results st) ∧
    Z.of_nat (length (unspents r)) ≤ txouts r.
Proof.
  intros Hi Hp Hlen Hr.
  apply start_result_inv in Hr as (os & nd & cursor & t & res & st & -> & Hnd & Hcur
                                   & Htip & Hrun & ->); [|done..].
  destruct (in_key_order_spec (out_results st)) as [Hperm Hsorted].
  pose proof (ScanResults.scan_reports_only_matches_aux (rpc_interruption_point env)
                (abort_request env) nd.1
                (set_should_abort false (set_in_progress true g))
                (EvStoreAbort false :: EvLoadProgress 0 :: EvExchangeInProgress false :: tr)
                cursor (Hlen _ Hcur)) as [Hsound Hsz].
  rewrite Hrun in Hsound, Hsz. simpl in Hsound, Hsz.
  assert (Hin : ∀ key coin, (key, coin) ∈ in_key_order (out_results st)
                            ↔ out_results st !! key = Some coin).
  { intros key coin. rewrite Hperm. apply elem_of_map_to_list. }
  exists os, nd, cursor, res, st, (in_key_order (out_results st)). simpl.
  split; [done|]. split; [done|]. split; [done|]. split; [done|].
  split; [done|]. split; [exact Hin|]. split; [done|]. split; [|split; [|split]].
  - rewrite Hperm. apply NoDup_fst_map_to_list.
  - intros key coin Hk. apply Hsound. by apply Hin.
  - by rewrite length_fmap, Hperm, length_map_to_list.
  - rewrite length_fmap, Hperm, length_map_to_list. lia.
Qed.

(** X9.  The total of a scan result is the running 64-bit sum of the
    amounts of the reported unspents, in their order; when the amounts are
    not negative and their sum fits, it is their sum. *)
Theorem total_amount_is_sum objs env g tr r :
  g_scan_in_progress g = false → g_scan_progress g = 0 →
  (scantxoutset "start" objs env (g, tr)).1 = Ok (VScan r) →
  total_amount r =
    fold_left (λ total_in v, wrap_int64 (total_in + v)) (u_amount <$> unspents r) 0 ∧
  (Forall (λ v, 0 ≤ v) (u_amount <$> unspents r) →
   foldr Z.add 0 (u_amount <$> unspents r) ≤ INT64_MAX →
   total_amount r = foldr Z.add 0 (u_amount <$> unspents r)).
Proof.
  intros Hi Hp Hr.
  apply start_result_inv in Hr as (os & nd & cursor & t & res & st & -> & Hnd & Hcur
                                   & Htip & Hrun & ->); [|done..].
  simpl. rewrite <- list_fmap_compose.
  split.
  - unfold sum_values. generalize 0.
    induction (in_key_order (out_results st)) as [|it its IH]; intros acc; [done|].
    simpl. apply IH.
  - intros Hpos Hsum. unfold sum_values.
    rewrite fold_values_exact; [done| |done|done].
    by rewrite Forall_fmap in Hpos.
Qed.
End report.

Lemma unspents_in_key_order_witness :
  ∃ r,
    (ScanTxOutSet.scantxoutset CScript Examples.eval_raw Examples.infer_raw "start"
       (Some [Examples.script_a])
       (Examples.quiet_env (entry_of <$> Examples.store3)) (Examples.idle, [])).1
      = Ok (VScan r) ∧
    length (unspents r) = 2%nat ∧
    ∃ st its descriptors,
      unspents r = make_unspent descriptors <$> its ∧
      (∀ key coin, (key, coin) ∈ its ↔ out_results st !! key = Some coin) ∧
      StronglySorted (λ x y, outpoint_lt x.1 y.1 = true) its.
Proof.
  eexists. split; [vm_compute; reflexivity|]. split; [reflexivity|].
  lazymatch goal with |- context [unspents ?r] =>
  destruct (unspents_in_key_order CScript Examples.eval_raw Examples.infer_raw
              (Some [Examples.script_a])
              (Examples.quiet_env (entry_of <$> Examples.store3)) Examples.idle [] r
              eq_refl eq_refl)
    as (os & nd & cursor & res & st & its & _ & Hnd & _ & _ & H1 & H2 & H3 & _)
  end.
  - intros cursor [= <-]. vm_compute. discriminate.
  - vm_compute. reflexivity.
  - exists st, its, nd.2. split; [exact H1|]. split; [exact H2|exact H3].
Defined.

Lemma total_amount_is_sum_witness :
  ∃ r,
    (ScanTxOutSet.scantxoutset CScript Examples.eval_raw Examples.infer_raw "start"
       (Some [Examples.script_a])
       (Examples.quiet_env (entry_of <$> Examples.store3)) (Examples.idle, [])).1
      = Ok (VScan r) ∧
    total_amount r = 40 ∧
    total_amount r = foldr Z.add 0 (u_amount <$> unspents r).
Proof.
  eexists. split; [vm_compute; reflexivity|]. split; [reflexivity|].
  lazymatch goal with |- total_amount ?r = _ =>
  refine (proj2 (total_amount_is_sum CScript Examples.eval_raw Examples.infer_raw
                   (Some [Examples.script_a])
                   (Examples.quiet_env (entry_of <$> Examples.store3)) Examples.idle [] r
                   eq_refl eq_refl _) _ _)
  end.
  - vm_compute. reflexivity.
  - repeat constructor; vm_compute; discriminate.
  - vm_compute. discriminate.
Defined.

End ReportFacts.

(** ** The needles and their descriptors *)
Module NeedleFacts.
Import ScanTxOutSet.

Section needles.
Variable scanobject : Type.
Variable EvalDescriptorStringOrObject : scanobject → result (list CScript).
Variable InferDescriptor : scanobject → CScript → string.

Local Abbreviation add_scripts := (add_scripts scanobject InferDescriptor).
Local Abbreviation expand_scanobjects :=
  (expand_scanobjects scanobject EvalDescriptorStringOrObject InferDescriptor).

Lemma add_scripts_needles obj scripts nd s :
  s ∈ (add_scripts obj scripts nd).1 ↔ s ∈ scripts ∨ s ∈ nd.1.
Proof.
  revert nd. induction scripts as [|x scripts IH]; intros nd; simpl.
  - rewrite elem_of_nil. tauto.
  - rewrite IH. simpl. rewrite elem_of_union, elem_of_singleton, elem_of_cons. tauto.
Qed.

Lemma add_scripts_descriptors obj scripts nd s :
  (add_scripts obj scripts nd).2 !! s =
    match nd.2 !! s with
    | Some d => Some d
    | None => if decide (s ∈ scripts) then Some (InferDescriptor obj s) else None
    end.
Proof.
  revert nd. induction scripts as [|x scripts IH]; intros nd.
  - cbn [ScanTxOutSet.add_scripts]. destruct (nd.2 !! s); [done|].
    destruct (decide (s ∈ [])) as [Hin|Hout]; [|done]. by apply elem_of_nil in Hin.
  - cbn [ScanTxOutSet.add_scripts]. rewrite IH. cbn [fst snd]. unfold emplace.
    destruct (decide (s = x)) as [->|Hne].
    + destruct (nd.2 !! x) as [d|] eqn:Hx; [by rewrite Hx|].
      rewrite lookup_insert_eq. rewrite decide_True by left. done.
    + assert ((match nd.2 !! x with Some _ => nd.2 | None => <[x:=InferDescriptor obj x]> nd.2 end)
                !! s = nd.2 !! s) as ->.
      { destruct (nd.2 !! x); [done|]. by rewrite lookup_insert_ne. }
      destruct (nd.2 !! s); [done|].
      destruct (decide (s ∈ scripts)) as [Hin|Hout].
      * by rewrite decide_True by by right.
      * rewrite decide_False; [done|]. rewrite elem_of_cons. tauto.
Qed.

(** The expansion from any starting pair: the needles gain the scripts of
    every object, and a script without a descriptor gets the one inferred
    under the first object that expands to it. *)
Lemma expand_scanobjects_spec objs nd nd' :
  expand_scanobjects objs nd = Ok nd' →
  (∀ s, s ∈ nd'.1 ↔
        s ∈ nd.1 ∨ ∃ obj scripts, obj ∈ objs ∧
                     EvalDescriptorStringOrObject obj = Ok scripts ∧ s ∈ scripts) ∧
  (∀ s d, nd'.2 !! s = Some d ↔
          nd.2 !! s = Some d ∨
          (nd.2 !! s = None ∧
           ∃ pre obj post scripts,
             objs = pre ++ obj :: post ∧
             EvalDescriptorStringOrObject obj = Ok scripts ∧ s ∈ scripts ∧
             d = InferDescriptor obj s ∧
             Forall (λ o, ∀ sc, EvalDescriptorStringOrObject o = Ok sc → s ∉ sc) pre)).
Proof.
  revert nd. induction objs as [|obj objs IH]; intros nd; simpl.
  - intros [= <-]. split.
    + intros s. split; [by left|]. intros [H|(o & sc & Ho & _)]; [done|].
      by apply elem_of_nil in Ho.
    + intros s d. split; [by left|]. intros [H|(_ & pre & o & post & sc & Ho & _)]; [done|].
      by destruct pre.
  - destruct (EvalDescriptorStringOrObject obj) as [scripts|err] eqn:Hobj; [|done].
    intros Hrest. apply IH in Hrest as [Hn Hd]. split.
    + intros s. rewrite Hn, add_scripts_needles. split.
      * intros [[Hs|Hs]|(o & sc & Ho & He & Hs)].
        -- right. exists obj, scripts. split; [left|done].
        -- by left.
        -- right. exists o, sc. split; [by right|done].
      * intros [Hs|(o & sc & Ho & He & Hs)]; [by left; right|].
        apply elem_of_cons in Ho as [->|Ho].
        -- left. left. congruence.
        -- right. by exists o, sc.
    + intros s d. rewrite Hd, add_scripts_descriptors. split.
      * intros [Hs|[Hs (pre & o & post & sc & -> & He & Hin & -> & Hpre)]].
        -- destruct (nd.2 !! s) as [d0|] eqn:Hs0; [by left|].
           destruct (decide (s ∈ scripts)) as [Hin|Hout]; [|done].
           right. split; [done|]. injection Hs as <-.
           exists [], obj, objs, scripts. by repeat split.
        -- destruct (nd.2 !! s) as [d0|] eqn:Hs0; [done|].
           destruct (decide (s ∈ scripts)) as [Hin0|Hout]; [done|].
           right. split; [done|].
           exists (obj :: pre), o, post, sc. repeat split; try done.
           constructor; [|done]. intros sc0 Hsc0. congruence.
      * intros [Hs|[Hs (pre & o & post & sc & Hobjs & He & Hin & -> & Hpre)]].
        -- left. by rewrite Hs.
        -- rewrite Hs. destruct pre as [|o0 pre]; simpl in Hobjs.
           ++ injection Hobjs as -> ->. left.
              assert (sc = scripts) as -> by congruence.
              by rewrite decide_True.
           ++ injection Hobjs as -> ->.
              apply Forall_cons in Hpre as [Ho0 Hpre].
              rewrite decide_False by by apply Ho0.
              right. split; [done|]. by exists pre, o, post, sc.
Qed.

(** X10.  When every descriptor expands, the needles are exactly the
    scripts of the expansions, every needle has a descriptor string, and
    that string is the one inferred under the first scan object that
    expands to the script. *)
Theorem needles_and_descriptors objs nd :
  expand_scanobjects objs (∅, ∅) = Ok nd →
  (∀ s, s ∈ nd.1 ↔
        ∃ obj scripts, obj ∈ objs ∧
          EvalDescriptorStringOrObject obj = Ok scripts ∧ s ∈ scripts) ∧
  (∀ s, s ∈ nd.1 ↔ is_Some (nd.2 !! s)) ∧
  (∀ s d, nd.2 !! s = Some d ↔
          ∃ pre obj post scripts,
            objs = pre ++ obj :: post ∧
            EvalDescriptorStringOrObject obj = Ok scripts ∧ s ∈ scripts ∧
            d = InferDescriptor obj s ∧
            Forall (λ o, ∀ sc, EvalDescriptorStringOrObject o = Ok sc → s ∉ sc) pre).
Proof.
  intros Hnd. apply expand_scanobjects_spec in Hnd as [Hn Hd]. simpl in Hn, Hd.
  assert (∀ s d, nd.2 !! s = Some d ↔
          ∃ pre obj post scripts,
            objs = pre ++ obj :: post ∧
            EvalDescriptorStringOrObject obj = Ok scripts ∧ s ∈ scripts ∧
            d = InferDescriptor obj s ∧
            Forall (λ o, ∀ sc, EvalDescriptorStringOrObject o = Ok sc → s ∉ sc) pre) as Hd'.
  { intros s d. rewrite Hd, lookup_empty. split.
    - by intros [?|[_ ?]].
    - intros H. by right. }
  assert (∀ s, s ∈ nd.1 ↔
        ∃ obj scripts, obj ∈ objs ∧
          EvalDescriptorStringOrObject obj = Ok scripts ∧ s ∈ scripts) as Hn'.
  { intros s. rewrite Hn. split; [|by right]. intros [H|H]; [|done].
    by apply elem_of_empty in H. }
  split; [done|]. split; [|done].
  intros s. rewrite Hn'. split.
  - intros (obj & scripts & Hobj & He & Hs).
    (* the first object of the list that expands to [s] *)
    clear Hn Hd Hn'. revert Hd'. generalize (nd.2). clear nd. intros dm Hd'.
    assert (∃ pre o post sc, objs = pre ++ o :: post ∧
              EvalDescriptorStringOrObject o = Ok sc ∧ s ∈ sc ∧
              Forall (λ o, ∀ sc, EvalDescriptorStringOrObject o = Ok sc → s ∉ sc) pre)
      as (pre & o & post & sc & Hobjs & Ho & Hin & Hpre).
    { clear Hd'. induction objs as [|o objs IH]; [by apply elem_of_nil in Hobj|].
      destruct (EvalDescriptorStringOrObject o) as [sc|err] eqn:Ho.
      - destruct (decide (s ∈ sc)) as [Hin|Hout].
        + by exists [], o, objs, sc.
        + apply elem_of_cons in Hobj as [->|Hobj]; [congruence|].
          destruct (IH Hobj) as (pre & o' & post & sc' & -> & Ho' & Hin' & Hpre).
          exists (o :: pre), o', post, sc'. repeat split; try done.
          constructor; [|done]. intros sc0 Hsc0. congruence.
      - apply elem_of_cons in Hobj as [->|Hobj]; [congruence|].
        destruct (IH Hobj) as (pre & o' & post & sc' & -> & Ho' & Hin' & Hpre).
        exists (o :: pre), o', post, sc'. repeat split; try done.
        constructor; [|done]. intros sc0 Hsc0. congruence. }
    exists (InferDescriptor o s). apply Hd'. by exists pre, o, post, sc.
  - intros [d Hs]. apply Hd' in Hs as (pre & o & post & sc & -> & Ho & Hin & _).
    exists o, sc. split; [|done]. apply elem_of_app. right. left.
Qed.
End needles.

Lemma needles_and_descriptors_witness :
  ∃ nd,
    ScanTxOutSet.expand_scanobjects CScript Examples.eval_raw Examples.infer_raw
      [Examples.script_a; Examples.script_b] (∅, ∅) = Ok nd ∧
    ∀ s, s ∈ nd.1 ↔ is_Some (nd.2 !! s).
Proof.
  eexists. split; [reflexivity|].
  exact (proj1 (proj2 (needles_and_descriptors CScript Examples.eval_raw Examples.infer_raw
                         [Examples.script_a; Examples.script_b] _ eq_refl))).
Defined.

End NeedleFacts.

(** ** Exports in sequence, and what an export depends on *)
Module ExportSequences.
Import Snapshot SnapshotFacts ExportVariants.

Lemma apply_op_keeps p o (d : disk) :
  (∀ from to, o ≠ OpRename from to) →
  is_Some (d.1 !! p) → is_Some ((apply_op o d).1 !! p).
Proof.
  intros Hren Hp. destruct o as [q|q xs|q xs|a b| | | |]; simpl; try done.
  - destruct (decide (q = p)) as [->|Hne].
    + rewrite lookup_insert_eq. eauto.
    + by rewrite lookup_insert_ne.
  - destruct (decide (q = p)) as [->|Hne].
    + rewrite lookup_alter_eq. destruct Hp as [c ->]. simpl. eauto.
    + by rewrite lookup_alter_ne.
  - destruct (decide (q = p)) as [->|Hne].
    + rewrite lookup_alter_eq. destruct Hp as [c ->]. simpl. eauto.
    + by rewrite lookup_alter_ne.
  - by destruct (Hren a b).
Qed.

Lemma replay_keeps p l (d : disk) :
  Forall (λ o, ∀ from to, o ≠ OpRename from to) l →
  is_Some (d.1 !! p) → is_Some ((replay l d).1 !! p).
Proof.
  intros Hall. revert d. induction Hall as [|o l Ho Hall IH]; intros d Hp; [done|].
  simpl. apply IH. by apply apply_op_keeps.
Qed.

Lemma writer_op_no_rename p o : writer_op p o → ∀ from to, o ≠ OpRename from to.
Proof. by destruct o. Qed.

(** The snapshot writer removes no file. *)
Lemma CreateUTXOSnapshot_keeps env afile p q w :
  (∀ h, handle afile = Some h → h = p) →
  is_Some (files w !! q) →
  is_Some (files (CreateUTXOSnapshot env afile w).2 !! q).
Proof.
  intros Hh Hq.
  destruct (CreateUTXOSnapshot_performs env afile p Hh w) as (new & _ & Hfiles & Hall).
  change (files (CreateUTXOSnapshot env afile w).2)
    with (on_disk (CreateUTXOSnapshot env afile w).2).1.
  rewrite Hfiles. apply replay_keeps; [|done].
  apply Forall_reverse. eapply Forall_impl; [exact Hall|].
  intros o. apply writer_op_no_rename.
Qed.

(** Nor does the close of its stream. *)
Lemma fclose_keeps env afile p q w :
  (∀ h, handle afile = Some h → h = p) →
  is_Some (files w !! q) →
  is_Some (files (fclose env afile w).2 !! q).
Proof.
  intros Hh Hq.
  destruct (performs_fclose (writer_op p) env afile) with (w := w)
    as (new & _ & Hfiles & Hall).
  { intros h xs Hhandle. simpl. by apply Hh. }
  change (files (fclose env afile w).2) with (on_disk (fclose env afile w).2).1.
  rewrite Hfiles. apply replay_keeps; [|done].
  apply Forall_reverse. eapply Forall_impl; [exact Hall|].
  intros o. apply writer_op_no_rename.
Qed.

Lemma stream_polled ip env afile pcursor iter i :
  (∀ j, polled j = true → ip j = rpc_interruption_point env j) →
  iter = Z.of_nat i mod 2 ^ 32 →
  ∀ w, stream (with_interruption_point ip env) afile pcursor iter i w =
       stream env afile pcursor iter i w.
Proof.
  intros Hip. revert iter i. induction pcursor as [|e rest IH]; intros iter i Hiter w;
    [done|].
  assert (wrap_uint32 (iter + 1) = Z.of_nat (S i) mod 2 ^ 32) as Hnext.
  { unfold wrap_uint32. rewrite Hiter, Nat2Z.inj_succ.
    rewrite <- Z.add_1_r. by rewrite Zplus_mod_idemp_l. }
  assert (∀ w1,
    bind (match GetKey e, GetValue e with
          | Some key, Some coin =>
              bind (write (with_interruption_point ip env) afile (IOutPoint key))
                   (λ _, write (with_interruption_point ip env) afile (ICoin coin))
          | _, _ => ret tt
          end)
         (λ _, stream (with_interruption_point ip env) afile rest
                 (wrap_uint32 (iter + 1)) (S i)) w1 =
    bind (match GetKey e, GetValue e with
          | Some key, Some coin =>
              bind (write env afile (IOutPoint key)) (λ _, write env afile (ICoin coin))
          | _, _ => ret tt
          end)
         (λ _, stream env afile rest (wrap_uint32 (iter + 1)) (S i)) w1) as Hrest.
  { intros w1. unfold bind.
    destruct (GetKey e) as [key|]; [destruct (GetValue e) as [coin|]|].
    - change (write (with_interruption_point ip env)) with (write env).
      destruct (write env afile (IOutPoint key) w1) as [[u|err] w2]; [|done].
      destruct (write env afile (ICoin coin) w2) as [[u2|err] w3]; [|done].
      by apply IH.
    - simpl. by apply IH.
    - simpl. by apply IH. }
  cbn [stream]. unfold bind at 1 3.
  change (rpc_interruption_point (with_interruption_point ip env) i) with (ip i).
  destruct (iter mod 5000 =? 0) eqn:Hm.
  - rewrite Hip by (unfold polled; by rewrite <- Hiter).
    destruct (rpc_interruption_point env i); [done|]. apply Hrest.
  - apply Hrest.
Qed.

Section exports.
Variable AbsPathJoin : string → string → string.
Variable datadir : string.

Local Abbreviation final_path := (final_path AbsPathJoin datadir).
Local Abbreviation temp_path := (temp_path AbsPathJoin datadir).
Local Abbreviation dumptxoutset := (dumptxoutset AbsPathJoin datadir).

(** X11.  After an export that succeeded, every further export to the
    same path is refused with the "already exists" error, whatever the
    node then answers, and the exported file stays as written. *)
Theorem second_export_rejected arg env w res w1 :
  final_path arg ≠ temp_path arg →
  dumptxoutset arg env w = (Ok res, w1) →
  ∀ env2,
    dumptxoutset arg env2 w1 =
      (Raise (JSONRPCError RPC_INVALID_PARAMETER
                (final_path arg +:+ " already exists. If you are sure this is what you want, "
                                +:+ "move it out of the way first")), w1).
Proof.
  intros Hne Hrun env2.
  pose proof (dumptxoutset_spec AbsPathJoin datadir arg env w Hne) as Hspec.
  cbv zeta in Hspec. rewrite Hrun in Hspec. simpl in Hspec.
  destruct Hspec as (new & _ & _ & _ & init & stats & tip & content & _ & _ & _ & _ & _
                     & Hfinal & _).
  apply dumptxoutset_exists. rewrite Hfinal. eauto.
Qed.

(** X12.  An export that fails after it has opened the temporary file
    does not remove it: the temporary file is left behind, and the final
    path stays free. *)
Theorem failed_export_leaves_temp_file arg env w e :
  final_path arg ≠ temp_path arg →
  files w !! final_path arg = None →
  fopen_fails env = false →
  (dumptxoutset arg env w).1 = Raise e →
  is_Some (files (dumptxoutset arg env w).2 !! temp_path arg) ∧
  files (dumptxoutset arg env w).2 !! final_path arg = None.
Proof.
  intros Hne Hfree Hfo Hfail. split.
  - rewrite dumptxoutset_free in Hfail |- * by done. rewrite Hfo in Hfail |- *.
    cbv beta zeta in Hfail |- *. rewrite export_run in Hfail |- *.
    set (afile := {| handle := Some (temp_path arg) |}) in *.
    set (w0 := opened (temp_path arg) w) in *.
    assert (Hh : ∀ h, handle afile = Some h → h = temp_path arg) by (by intros h [= <-]).
    assert (is_Some (files (CreateUTXOSnapshot env afile w0).2 !! temp_path arg)) as Htemp.
    { apply (CreateUTXOSnapshot_keeps env _ (temp_path arg) _ _ Hh).
      subst w0. simpl. rewrite lookup_insert_eq. eauto. }
    destruct (CreateUTXOSnapshot env afile w0) as [[r|err] w1]; simpl in Htemp.
    + destruct Htemp as [content Hc]. by rewrite Hc in Hfail.
    + by apply (fclose_keeps env afile (temp_path arg)).
  - pose proof (dumptxoutset_spec AbsPathJoin datadir arg env w Hne) as Hspec.
    cbv zeta in Hspec. destruct Hspec as (new & _ & Hdisk & Hres).
    rewrite Hfail in Hres.
    change (files (dumptxoutset arg env w).2) with (on_disk (dumptxoutset arg env w).2).1.
    rewrite Hdisk, (replay_untouched (final_path arg)); [done|].
    apply Forall_reverse. eapply Forall_impl; [exact Hres|].
    intros o. by apply export_op_untouched.
Qed.

(** X13.  A failed export does not stand in the way of the next one: an
    export to the same path that nothing disturbs then succeeds, although
    the temporary file of the failed one may still be there, and the file
    it publishes holds the header and the records of its own cursor
    only. *)
Theorem retry_after_failed_export arg env1 env2 w e stats tip :
  final_path arg ≠ temp_path arg →
  files w !! final_path arg = None →
  (dumptxoutset arg env1 w).1 = Raise e →
  benign env2 →
  GetUTXOStats env2 = StatsOk stats → LookupBlockIndex env2 (hashBlock stats) = Some tip →
  ∃ res w2,
    dumptxoutset arg env2 (dumptxoutset arg env1 w).2 = (Ok res, w2) ∧
    files w2 !! final_path arg =
      Some (IMetadata {| m_base_blockhash := BlockIndex.GetBlockHash tip;
                         m_coins_count := coins_count stats;
                         m_nchaintx := BlockIndex.nChainTx tip |}
            :: body_of (Cursor env2)) ∧
    files w2 !! temp_path arg = None.
Proof.
  intros Hne Hfree Hfail Hben Hstats Htip.
  pose proof (dumptxoutset_spec AbsPathJoin datadir arg env1 w Hne) as Hspec.
  cbv zeta in Hspec. destruct Hspec as (new & _ & Hfiles & Hres).
  rewrite Hfail in Hres.
  assert (files (dumptxoutset arg env1 w).2 !! final_path arg = None) as Hfree1.
  { change (files (dumptxoutset arg env1 w).2)
      with (on_disk (dumptxoutset arg env1 w).2).1.
    rewrite Hfiles, (replay_untouched (final_path arg)); [done|].
    apply Forall_reverse. eapply Forall_impl; [exact Hres|].
    intros o. by apply export_op_untouched. }
  destruct (dumptxoutset_benign AbsPathJoin datadir arg env2 _ stats tip Hne Hfree1 Hben
              Hstats Htip) as (res & w2 & Hrun).
  exists res, w2. split; [done|].
  pose proof (dumptxoutset_spec AbsPathJoin datadir arg env2 (dumptxoutset arg env1 w).2 Hne)
    as Hspec2.
  cbv zeta in Hspec2. rewrite Hrun in Hspec2. simpl in Hspec2.
  destruct Hspec2 as (new2 & _ & _ & _ & init & stats' & tip' & content & _ & _ & Hs' & Ht'
                      & _ & Hfinal & _ & Hfull & Htemp).
  rewrite Hstats in Hs'. injection Hs' as <-.
  rewrite Htip in Ht'. injection Ht' as <-.
  rewrite <- Hfull by apply Hben. done.
Qed.

(** X14.  The operations of an export name two paths only: every open,
    write-out and close of a stream and every rename it performs is on
    the temporary path or on the final path.  (Its one other effect on
    the disk is the flush of the node's coin database.) *)
Theorem export_touches_two_paths arg env w :
  ∃ new,
    ops (dumptxoutset arg env w).2 = new ++ ops w ∧
    on_disk (dumptxoutset arg env w).2 = replay (reverse new) (on_disk w) ∧
    ∀ o q, o ∈ new → touches q o → q = temp_path arg ∨ q = final_path arg.
Proof.
  set (P := λ o, ∀ q, touches q o → q = temp_path arg ∨ q = final_path arg).
  assert (HP : ∀ o, writer_op (temp_path arg) o → P o).
  { intros o Ho q Hq. left. destruct o; simpl in *; try done; congruence. }
  assert (Hrun : ∀ afile, (∀ h, handle afile = Some h → h = temp_path arg) →
            performs P
              (with_local (fclose env afile)
                 (bind (CreateUTXOSnapshot env afile)
                    (λ result, bind (rename (temp_path arg) (final_path arg))
                       (λ _, ret {| snapshot := result; path := final_path arg |}))))).
  { intros afile Hh. apply performs_with_local.
    - apply performs_bind.
      + eapply performs_impl; [exact HP|]. by apply CreateUTXOSnapshot_performs.
      + intros result. apply performs_bind; [|intros _; apply performs_ret].
        intros w0. unfold rename. destruct (files w0 !! temp_path arg); [|by exists []].
        apply performs_perform. intros q [<-|<-]; tauto.
    - apply performs_fclose. intros p xs Hp. apply HP. simpl. by apply Hh. }
  assert (∃ new, ops (dumptxoutset arg env w).2 = new ++ ops w ∧
                 on_disk (dumptxoutset arg env w).2 = replay (reverse new) (on_disk w) ∧
                 Forall P new) as (new & Ho & Hd & Hall).
  { destruct (files w !! final_path arg) as [c|] eqn:Hfinal.
    { rewrite dumptxoutset_exists by (rewrite Hfinal; eauto). exists []. by repeat split. }
    rewrite dumptxoutset_free by done. cbv beta zeta.
    destruct (fopen_fails env).
    - apply Hrun. by intros h [=].
    - destruct (Hrun {| handle := Some (temp_path arg) |} ltac:(by intros h [= <-])
                  (opened (temp_path arg) w)) as (new & Ho & Hd & Hall).
      exists (new ++ [OpFopen (temp_path arg)]).
      split; [rewrite Ho; simpl; by rewrite <- app_assoc|]. split.
      + rewrite Hd, reverse_app, replay_app. done.
      + apply Forall_app. split; [done|]. apply Forall_singleton.
        intros q Hq. left. by symmetry. }
  exists new. split; [exact Ho|]. split; [exact Hd|].
  intros o q Hin. rewrite Forall_forall in Hall. by apply Hall.
Qed.

(** X15.  The streaming loop consults the interruption callback at the
    records where its 32-bit counter is a multiple of 5000 and nowhere
    else: an export behaves the same under two callbacks that agree at
    these positions. *)
Theorem callback_polled_every_5000 ip arg env w :
  (∀ j, polled j = true → ip j = rpc_interruption_point env j) →
  dumptxoutset arg (with_interruption_point ip env) w = dumptxoutset arg env w.
Proof.
  intros Hip. unfold dumptxoutset, Snapshot.dumptxoutset, bind.
  destruct (fs_exists (final_path arg) w) as [[found|err] w0]; [|done].
  destruct found; [done|].
  assert (fopen_wb (with_interruption_point ip env) (temp_path arg) w0
          = fopen_wb env (temp_path arg) w0) as -> by done.
  destruct (fopen_wb env (temp_path arg) w0) as [[afile|err] w1]; [|done].
  change (fclose (with_interruption_point ip env) afile) with (fclose env afile).
  unfold with_local.
  assert (CreateUTXOSnapshot (with_interruption_point ip env) afile w1
          = CreateUTXOSnapshot env afile w1) as ->; [|done].
  unfold CreateUTXOSnapshot, bind. simpl.
  destruct (GetUTXOStats env) as [stats| |]; try done.
  simpl. destruct (LookupBlockIndex env (hashBlock stats)) as [tip|]; [|done].
  assert (∀ x w', write (with_interruption_point ip env) afile x w' = write env afile x w')
    as -> by done.
  destruct (write env afile _ _) as [[u|err] w2]; [|done].
  change (fclose (with_interruption_point ip env) afile) with (fclose env afile).
  by rewrite (stream_polled ip env).
Qed.
End exports.

Lemma second_export_rejected_witness :
  ∃ res w1,
    Snapshot.final_path Examples.abs_path_join "/data" "utxo.dat"
      ≠ Snapshot.temp_path Examples.abs_path_join "/data" "utxo.dat" ∧
    Snapshot.dumptxoutset Examples.abs_path_join "/data" "utxo.dat"
      (Examples.export_env (entry_of <$> Examples.store3) 3) Examples.no_files
      = (Ok res, w1) ∧
    (Snapshot.dumptxoutset Examples.abs_path_join "/data" "utxo.dat"
       (Examples.export_env [] 0) w1).2 = w1.
Proof.
  assert (Hne : Snapshot.final_path Examples.abs_path_join "/data" "utxo.dat"
                ≠ Snapshot.temp_path Examples.abs_path_join "/data" "utxo.dat").
  { apply (bool_decide_unpack _). vm_compute. exact I. }
  destruct (Snapshot.dumptxoutset Examples.abs_path_join "/data" "utxo.dat"
              (Examples.export_env (entry_of <$> Examples.store3) 3) Examples.no_files)
    as [[res|err] w1] eqn:Hrun; [|vm_compute in Hrun; discriminate].
  exists res, w1. split; [exact Hne|]. split; [reflexivity|].
  rewrite (second_export_rejected Examples.abs_path_join "/data" "utxo.dat"
             (Examples.export_env (entry_of <$> Examples.store3) 3) Examples.no_files
             res w1 Hne Hrun (Examples.export_env [] 0)).
  reflexivity.
Defined.

Lemma failed_export_leaves_temp_file_witness :
  let r := Snapshot.dumptxoutset Examples.abs_path_join "/data" "utxo.dat"
             (Examples.interrupted_env (entry_of <$> Examples.store3) 3 0)
             Examples.no_files in
  r.1 = Raise InterruptionError ∧
  is_Some (files r.2 !! Snapshot.temp_path Examples.abs_path_join "/data" "utxo.dat") ∧
  files r.2 !! Snapshot.final_path Examples.abs_path_join "/data" "utxo.dat" = None.
Proof.
  intros r.
  assert (Hne : Snapshot.final_path Examples.abs_path_join "/data" "utxo.dat"
                ≠ Snapshot.temp_path Examples.abs_path_join "/data" "utxo.dat").
  { apply (bool_decide_unpack _). vm_compute. exact I. }
  assert (Hfail : r.1 = Raise InterruptionError) by (vm_compute; reflexivity).
  split; [exact Hfail|].
  exact (failed_export_leaves_temp_file Examples.abs_path_join "/data" "utxo.dat"
           (Examples.interrupted_env (entry_of <$> Examples.store3) 3 0)
           Examples.no_files InterruptionError Hne eq_refl eq_refl Hfail).
Defined.

Lemma retry_after_failed_export_witness :
  let r1 := Snapshot.dumptxoutset Examples.abs_path_join "/data" "utxo.dat"
              (Examples.interrupted_env (entry_of <$> Examples.store3) 3 0)
              Examples.no_files in
  r1.1 = Raise InterruptionError ∧
  ∃ res w2,
    Snapshot.dumptxoutset Examples.abs_path_join "/data" "utxo.dat"
      (Examples.export_env (entry_of <$> Examples.store3) 3) r1.2 = (Ok res, w2) ∧
    files w2 !! Snapshot.temp_path Examples.abs_path_join "/data" "utxo.dat" = None.
Proof.
  intros r1.
  assert (Hne : Snapshot.final_path Examples.abs_path_join "/data" "utxo.dat"
                ≠ Snapshot.temp_path Examples.abs_path_join "/data" "utxo.dat").
  { apply (bool_decide_unpack _). vm_compute. exact I. }
  assert (Hfail : r1.1 = Raise InterruptionError) by (vm_compute; reflexivity).
  split; [exact Hfail|].
  destruct (retry_after_failed_export Examples.abs_path_join "/data" "utxo.dat"
              (Examples.interrupted_env (entry_of <$> Examples.store3) 3 0)
              (Examples.export_env (entry_of <$> Examples.store3) 3)
              Examples.no_files InterruptionError
              {| hashBlock := BlockIndex.GetBlockHash Examples.tip0; coins_count := 3 |}
              Examples.tip0 Hne eq_refl Hfail)
    as (res & w2 & Hrun & _ & Htemp).
  - split; [reflexivity|]. split; [intros; reflexivity|].
    split; [intros; discriminate|reflexivity].
  - reflexivity.
  - reflexivity.
  - exists res, w2. split; [exact Hrun|exact Htemp].
Defined.

Lemma callback_polled_every_5000_witness :
  Snapshot.dumptxoutset Examples.abs_path_join "/data" "utxo.dat"
    (with_interruption_point Samples.unpolled
       (Examples.export_env (entry_of <$> Examples.store3) 3)) Examples.no_files =
  Snapshot.dumptxoutset Examples.abs_path_join "/data" "utxo.dat"
    (Examples.export_env (entry_of <$> Examples.store3) 3) Examples.no_files.
Proof.
  apply (callback_polled_every_5000 Examples.abs_path_join "/data" Samples.unpolled).
  intros j Hj. unfold Samples.unpolled. rewrite Hj. reflexivity.
Defined.

End ExportSequences.

(** ** The median of getblockstats *)
Module MedianFacts.
Import BlockStats.

Lemma merge_sort_le_sorted (l : list Z) : StronglySorted Z.le (merge_sort Z.le l).
Proof. apply (StronglySorted_merge_sort Z.le). Qed.

Lemma merge_sort_le_perm (l1 l2 : list Z) :
  l1 ≡ₚ l2 → merge_sort Z.le l1 = merge_sort Z.le l2.
Proof.
  intros Hp. apply (StronglySorted_unique Z.le); try apply merge_sort_le_sorted.
  by rewrite !merge_sort_Permutation.
Qed.

Lemma filter_Forall_id {A} (P : A → Prop) `{∀ x, Decision (P x)} (l : list A) :
  Forall P l → filter P l = l.
Proof.
  induction 1 as [|x l Hx Hl IH]; [done|].
  rewrite filter_cons_True by done. by f_equal.
Qed.

(** In a sorted list the element at position [k] has at least [k + 1]
    elements at or below it and at least [length l - k] at or above. *)
Lemma sorted_count_below (l : list Z) k x m :
  StronglySorted Z.le l → l !! k = Some x → x ≤ m →
  (S k ≤ length (filter (λ v, (v ≤ m)%Z) l))%nat.
Proof.
  intros Hs Hk Hm.
  rewrite <- (take_drop (S k) l) at 1. rewrite filter_app, length_app.
  rewrite filter_Forall_id.
  - rewrite length_take_le; [lia|].
    apply lookup_lt_Some in Hk. lia.
  - apply Forall_lookup. intros i y Hi.
    apply lookup_take_Some in Hi as [Hi Hlt].
    pose proof (ScanFacts.StronglySorted_lookup_le l i k y x Hs) as Hle.
    specialize (Hle ltac:(lia) Hi Hk). simpl. lia.
Qed.

Lemma sorted_count_above (l : list Z) k x m :
  StronglySorted Z.le l → l !! k = Some x → m ≤ x →
  (length l - k ≤ length (filter (λ v, (m ≤ v)%Z) l))%nat.
Proof.
  intros Hs Hk Hm.
  rewrite <- (take_drop k l) at 2. rewrite filter_app, length_app.
  rewrite (filter_Forall_id _ (drop k l)).
  - rewrite length_drop. lia.
  - apply Forall_lookup. intros i y Hi.
    rewrite lookup_drop in Hi.
    pose proof (ScanFacts.StronglySorted_lookup_le l k (k + i) x y Hs) as Hle.
    specialize (Hle ltac:(lia) Hk Hi). simpl. lia.
Qed.

Lemma quot_2_between lo hi : lo ≤ hi → lo ≤ Z.quot (lo + hi) 2 ≤ hi.
Proof.
  intros Hle. pose proof (Z.quot_rem' (lo + hi) 2) as Hqr.
  destruct (Z_le_gt_dec 0 (lo + hi)) as [Hpos|Hneg].
  - pose proof (Z.rem_bound_pos (lo + hi) 2 Hpos ltac:(lia)). lia.
  - pose proof (Z.rem_bound_pos_neg (lo + hi) 2 ltac:(lia) ltac:(lia)). lia.
Qed.

(** X17.  For scores between -2^62 and 2^62 (so that the sum of two of
    them fits), the median does not depend on the order in which the
    scores are given; and it is 0 for no score. *)
Theorem median_order_independent (scores1 scores2 : list Z) :
  Forall (λ v, - 2 ^ 62 ≤ v < 2 ^ 62) scores1 →
  scores1 ≡ₚ scores2 →
  CalculateTruncatedMedian scores1 = CalculateTruncatedMedian scores2 ∧
  CalculateTruncatedMedian [] = 0.
Proof.
  intros _ Hp. split; [|done]. unfold CalculateTruncatedMedian.
  rewrite (Permutation_length Hp). by rewrite (merge_sort_le_perm _ _ Hp).
Qed.

(** The two middle scores, or the middle one twice. *)
Lemma median_middle (scores : list Z) :
  scores ≠ [] →
  Forall (λ v, - 2 ^ 62 ≤ v < 2 ^ 62) scores →
  let sorted := merge_sort Z.le scores in
  let size := length scores in
  ∃ i j lo hi,
    sorted !! i = Some lo ∧ sorted !! j = Some hi ∧ (i ≤ j)%nat ∧ lo ≤ hi ∧
    (size ≤ 2 * S i)%nat ∧ (size ≤ 2 * (size - j))%nat ∧
    lo ≤ CalculateTruncatedMedian scores ≤ hi ∧
    (Nat.odd size = true → CalculateTruncatedMedian scores = lo).
Proof.
  intros Hne Hrange sorted size.
  assert (length sorted = size) as Hlen.
  { subst sorted size. by rewrite merge_sort_Permutation. }
  assert (size ≠ 0%nat) as Hsize.
  { subst size. by destruct scores. }
  assert (StronglySorted Z.le sorted) as Hs by apply merge_sort_le_sorted.
  assert (Forall (λ v, - 2 ^ 62 ≤ v < 2 ^ 62) sorted) as Hr.
  { subst sorted. by rewrite merge_sort_Permutation. }
  unfold CalculateTruncatedMedian. fold size. fold sorted.
  destruct (size =? 0)%nat eqn:H0; [apply Nat.eqb_eq in H0; lia|].
  destruct (size mod 2 =? 0)%nat eqn:Hev.
  - apply Nat.eqb_eq in Hev.
    pose proof (Nat.div_mod_eq size 2) as Hdm.
    destruct (lookup_lt_is_Some_2 sorted (size / 2 - 1)) as [lo Hlo]; [lia|].
    destruct (lookup_lt_is_Some_2 sorted (size / 2)) as [hi Hhi]; [lia|].
    exists (size / 2 - 1)%nat, (size / 2)%nat, lo, hi.
    rewrite (nth_lookup_Some _ _ _ _ Hlo), (nth_lookup_Some _ _ _ _ Hhi).
    assert (lo ≤ hi) as Hle.
    { apply (ScanFacts.StronglySorted_lookup_le sorted (size / 2 - 1) (size / 2)); 
        [done|lia|done|done]. }
    rewrite Forall_lookup in Hr.
    pose proof (Hr _ _ Hlo). pose proof (Hr _ _ Hhi).
    rewrite wrap_int64_small by (unfold INT64_MAX; lia).
    repeat split; try done; try lia.
    + by apply quot_2_between.
    + by apply quot_2_between.
    + intros Hodd. rewrite <- Nat.negb_even in Hodd.
      apply negb_true_iff in Hodd.
      assert (Nat.even size = true); [|congruence].
      apply Nat.even_spec. exists (size / 2)%nat. lia.
  - apply Nat.eqb_neq in Hev.
    pose proof (Nat.div_mod_eq size 2) as Hdm.
    pose proof (Nat.mod_upper_bound size 2 ltac:(lia)) as Hm.
    destruct (lookup_lt_is_Some_2 sorted (size / 2)) as [mid Hmid]; [lia|].
    exists (size / 2)%nat, (size / 2)%nat, mid, mid.
    rewrite (nth_lookup_Some _ _ _ _ Hmid).
    repeat split; try done; try lia.
Qed.

(** X18.  For scores between -2^62 and 2^62 (so that the sum of two of
    them fits), the value returned lies between two scores of the vector,
    it is one of the scores when their number is odd, and it is a median:
    at least half of the scores are at or below it and at least half are
    at or above it. *)
Theorem median_is_median (scores : list Z) :
  scores ≠ [] →
  Forall (λ v, - 2 ^ 62 ≤ v < 2 ^ 62) scores →
  let m := CalculateTruncatedMedian scores in
  (∃ lo hi, lo ∈ scores ∧ hi ∈ scores ∧ lo ≤ m ≤ hi) ∧
  (Nat.odd (length scores) = true → m ∈ scores) ∧
  (length scores ≤ 2 * length (filter (λ v, (v ≤ m)%Z) scores))%nat ∧
  (length scores ≤ 2 * length (filter (λ v, (m ≤ v)%Z) scores))%nat.
Proof.
  intros Hne Hrange m.
  destruct (median_middle scores Hne Hrange)
    as (i & j & lo & hi & Hlo & Hhi & Hij & Hle & Hi & Hj & Hm & Hodd).
  fold m in Hm, Hodd.
  pose proof (merge_sort_Permutation Z.le scores) as Hperm.
  pose proof (merge_sort_le_sorted scores) as Hs.
  assert (lo ∈ scores) as Hlo_in.
  { rewrite <- Hperm. by apply list_elem_of_lookup_2 in Hlo. }
  assert (hi ∈ scores) as Hhi_in.
  { rewrite <- Hperm. by apply list_elem_of_lookup_2 in Hhi. }
  split; [by exists lo, hi|]. split; [|split].
  - intros Ho. by rewrite (Hodd Ho).
  - pose proof (sorted_count_below _ i lo m Hs Hlo ltac:(lia)) as Hc.
    rewrite Hperm in Hc. lia.
  - pose proof (sorted_count_above _ j hi m Hs Hhi ltac:(lia)) as Hc.
    rewrite Hperm in Hc. lia.
Qed.

Lemma median_is_median_witness :
  [30; 10; 40; 20] ≠ [] ∧
  ∃ lo hi, lo ∈ [30; 10; 40; 20] ∧ hi ∈ [30; 10; 40; 20] ∧
           lo ≤ CalculateTruncatedMedian [30; 10; 40; 20] ≤ hi.
Proof.
  assert (Hne : [30; 10; 40; 20] ≠ ([] : list Z)) by discriminate.
  split; [exact Hne|].
  refine (proj1 (median_is_median [30; 10; 40; 20] Hne _)).
  repeat constructor; vm_compute; discriminate.
Defined.

Lemma median_order_independent_witness :
  [3; 1; 2] ≡ₚ [1; 2; 3] ∧
  CalculateTruncatedMedian [3; 1; 2] = CalculateTruncatedMedian [1; 2; 3].
Proof.
  assert (Hp : [3; 1; 2] ≡ₚ [1; 2; 3]).
  { apply (bool_decide_unpack _). vm_compute. exact I. }
  split; [exact Hp|].
  refine (proj1 (median_order_independent [3; 1; 2] [1; 2; 3] _ Hp)).
  repeat constructor; vm_compute; discriminate.
Defined.

End MedianFacts.

